(** * OCR form extraction: the validation engine, embedded in Rocq

    This development embeds [app/utils/validation.py] (class
    [ExtractionValidator]), the geometry helper of [app/utils/ocr.py]
    ([_extract_bounding_box]), the flattening and rebuilding of the form
    editor ([app/streamlit_app_editable.py]) and the copy of the expected
    fields ([app/utils/openai_extractor.py]), and proves properties of them.

    Conventions of the embedding.
    - A Python [str] is a Rocq [string]; its characters are the code points
      U+0000..U+00FF.  The string methods below ([lower], [strip], [split],
      [isdigit], the regex class [\d], [int()]) are written out for that range.
    - A Python [float] that the code only adds, divides and compares is an
      exact rational [Qc].  The further properties of overlaps, scores and
      positions are stated in the forms that the rounding of floats keeps:
      signs, the order of sums and quotients, bounds that [min] enforces.
    - A JSON-like Python value is a [pyval]: [None], a [str] or a [dict]
      (insertion ordered, so an association list).
    - Code that can raise returns [result A]; [try ... except] is
      [try_except].
    - Logging is the only output of [_check_consistency_with_ocr], so that
      function returns its log records.  The log calls of the other functions
      have no influence on what they return and are left out, except where
      evaluating an argument of the call can raise.
    - [datetime.now()] is a parameter [today].
    - The OCR result is a record of the shape [ocr.py] builds.  The
      functions that read it are given a second time, in [Raw], for an object
      of any shape.
    - The interpreter's recursion limit is left out of the functions on
      values; [Raw] and the functions on objects, in the second part, count
      it. *)

From Stdlib Require Import Ascii String QArith Qcanon Lqa.
From stdpp Require Import base numbers list strings pretty gmap.

Set Warnings "-register-all,-clear-no-such-hyp".
Close Scope Z_scope.
Close Scope Qc_scope.

(** ** Exceptions *)

Inductive exn_class :=
  | ValueError | TypeError | AttributeError | IndexError | KeyError
  | OverflowError | RecursionError | SystemError.

Record exn := Exn { exn_cls : exn_class; exn_str : string }.

Inductive result (A : Type) :=
  | Ok (a : A)
  | Raise (e : exn).
Arguments Ok {A} a.
Arguments Raise {A} e.

Global Instance exn_class_eq_dec : EqDecision exn_class.
Proof. solve_decision. Defined.

(** [result] with stdpp's monad notation: [x ← m; k] and [m;; k]. *)
Global Instance result_ret : MRet result := λ A a, Ok a.
Global Instance result_bind : MBind result := λ A B k m,
  match m with
  | Ok a => k a
  | Raise e => Raise e
  end.

(** [try: body except cls: handler]; a handler for [Exception] is
    [try_except_all]. *)
Definition try_except {A} (body : result A) (cls : exn_class)
    (handler : exn → result A) : result A :=
  match body with
  | Ok a => Ok a
  | Raise e => if decide (exn_cls e = cls) then handler e else Raise e
  end.

Definition try_except_all {A} (body : result A) (handler : exn → result A)
    : result A :=
  match body with
  | Ok a => Ok a
  | Raise e => handler e
  end.

Definition returns {A} (m : result A) : Prop := ∃ a, m = Ok a.

Fixpoint mapM {A B} (f : A → result B) (l : list A) : result (list B) :=
  match l with
  | [] => Ok []
  | a :: l' => b ← f a; bs ← mapM f l'; Ok (b :: bs)
  end.

(** ** Python strings *)

Definition chr (n : N) : ascii := ascii_of_N n.
Definition ord (c : ascii) : N := N_of_ascii c.

Definition chars (s : string) : list ascii := list_ascii_of_string s.
Definition str_of (l : list ascii) : string := string_of_list_ascii l.

(** [str.lower()] on one character. *)
Definition lower_char (c : ascii) : ascii :=
  let n := ord c in
  if ((65 <=? n) && (n <=? 90) || (192 <=? n) && (n <=? 214)
      || (216 <=? n) && (n <=? 222))%N
  then chr (n + 32) else c.

Definition py_lower (s : string) : string := str_of (lower_char <$> chars s).

(** Characters for which [str.isspace()] holds; [strip()] and [split()]
    without argument remove exactly these. *)
Definition py_isspace (c : ascii) : bool :=
  let n := ord c in
  ((9 <=? n) && (n <=? 13) || (28 <=? n) && (n <=? 32)
   || (n =? 133) || (n =? 160))%N.

Fixpoint lstrip_chars (l : list ascii) : list ascii :=
  match l with
  | c :: l' => if py_isspace c then lstrip_chars l' else l
  | [] => []
  end.

Definition py_strip (s : string) : string :=
  str_of (reverse (lstrip_chars (reverse (lstrip_chars (chars s))))).

(** [s.split()]: the maximal runs of non-space characters. *)
Fixpoint split_chars (cur : list ascii) (l : list ascii) : list (list ascii) :=
  match l with
  | [] => if cur is [] then [] else [reverse cur]
  | c :: l' =>
      if py_isspace c
      then (if cur is [] then split_chars [] l'
            else reverse cur :: split_chars [] l')
      else split_chars (c :: cur) l'
  end.

Definition py_split (s : string) : list string :=
  str_of <$> split_chars [] (chars s).

(** [sep.join(parts)]. *)
Fixpoint py_join (sep : string) (parts : list string) : string :=
  match parts with
  | [] => ""
  | [p] => p
  | p :: rest => p +:+ sep +:+ py_join sep rest
  end.

(** [sub in s]. *)
Fixpoint py_in (sub s : string) : bool :=
  String.prefix sub s ||
  match s with
  | EmptyString => false
  | String _ s' => py_in sub s'
  end.

(** [c in s] for a character [c]. *)
Definition char_in (c : ascii) (s : string) : bool :=
  bool_decide (c ∈ chars s).

Definition py_endswith (s suffix : string) : bool :=
  String.prefix (String.rev suffix) (String.rev s).

Definition is_ascii_digit (c : ascii) : bool :=
  let n := ord c in ((48 <=? n) && (n <=? 57))%N.

(** [c.isdigit()]: the decimal digits and the superscripts U+00B2, U+00B3,
    U+00B9. *)
Definition isdigit_char (c : ascii) : bool :=
  let n := ord c in
  is_ascii_digit c || ((n =? 178) || (n =? 179) || (n =? 185))%N.

(** [s.isdigit()] is false on the empty string. *)
Definition py_isdigit (s : string) : bool :=
  match chars s with
  | [] => false
  | l => forallb isdigit_char l
  end.

Definition py_len (s : string) : nat := String.length s.

(** [s.replace(old, "")] for a one-character [old]. *)
Definition py_remove_char (c : ascii) (s : string) : string :=
  str_of (filter (λ d, d ≠ c) (chars s)).

(** [s.split(".")[-1]]: what follows the last dot. *)
Fixpoint last_segment_chars (acc l : list ascii) : list ascii :=
  match l with
  | [] => reverse acc
  | c :: l' =>
      if decide (c = "."%char) then last_segment_chars [] l'
      else last_segment_chars (c :: acc) l'
  end.

Definition last_segment (key : string) : string :=
  str_of (last_segment_chars [] (chars key)).

(** ** Regular expressions: the fragment the pattern registry uses

    [^], [$] and [\d{lo,hi}].  Without [re.MULTILINE], [$] matches at the end
    of the string and also just before a newline that ends the string; [\d]
    matches the decimal digits, which below U+0100 are [0-9]. *)

Inductive re_item :=
  | ReBol                          (* ^ *)
  | ReEol                          (* $ *)
  | ReDigits (lo hi : nat).        (* \d{lo,hi}; \d{n} is \d{n,n} *)

Definition regex := list re_item.

Definition nat_str (n : nat) : string := pretty n.

Definition re_item_source (i : re_item) : string :=
  match i with
  | ReBol => "^"
  | ReEol => "$"
  | ReDigits lo hi =>
      if decide (lo = hi) then "\d{" +:+ nat_str lo +:+ "}"
      else "\d{" +:+ nat_str lo +:+ "," +:+ nat_str hi +:+ "}"
  end.

Definition re_source (r : regex) : string :=
  foldr (λ i acc, re_item_source i +:+ acc) "" r.

Definition at_eol (l : list ascii) : bool :=
  match l with
  | [] => true
  | [c] => bool_decide (c = chr 10)
  | _ => false
  end.

(** [re_match_here r bol l]: can [r] match a prefix of [l], where [bol] says
    whether [l] starts at the beginning of the subject. *)
Fixpoint re_match_here (r : regex) (bol : bool) (l : list ascii) : bool :=
  match r with
  | [] => true
  | ReBol :: r' => bol && re_match_here r' bol l
  | ReEol :: r' => at_eol l && re_match_here r' bol l
  | ReDigits lo hi :: r' =>
      existsb
        (λ k, bool_decide (k ≤ length l)
              && forallb is_ascii_digit (take k l)
              && re_match_here r' (bol && bool_decide (k = 0)) (drop k l))
        (seq lo (S hi - lo))
  end.

(** [bool(re.match(pattern, value))]. *)
Definition re_match (r : regex) (value : string) : bool :=
  re_match_here r true (chars value).

(** ** The validator: configuration ([__init__]) *)

Definition field_patterns : gmap string regex :=
  {[ "idNumber" := [ReBol; ReDigits 9 9; ReEol];
     "mobilePhone" := [ReBol; ReDigits 10 10; ReEol];
     "landlinePhone" := [ReBol; ReDigits 9 9; ReEol];
     "postalCode" := [ReBol; ReDigits 5 7; ReEol] ]}.

Definition min_confidence_threshold : Qc := Q2Qc (5 # 10).
Definition spatial_overlap_threshold : Qc := Q2Qc (3 # 10).
Definition required_fields : list string :=
  ["lastName"; "firstName"; "idNumber"].

(** ** [validate_format] *)

Definition validate_format (field value : string) : bool :=
  if decide (value = "") then true
  else
    match field_patterns !! field with
    | None => true
    | Some pattern => re_match pattern value
    end.

(** ** [_infer_field_type] *)

Definition any_in (terms : list string) (s : string) : bool :=
  existsb (λ term, py_in term s) terms.

Definition _infer_field_type (field_name : string) : string :=
  let lower_name := py_lower field_name in
  if any_in ["id"; "number"; "num"; "code"] lower_name then "numeric"
  else if any_in ["phone"; "tel"; "mobile"; "landline"] lower_name then "phone"
  else if any_in ["date"; "day"; "month"; "year"] lower_name then "date"
  else if any_in ["name"; "first"; "last"; "family"] lower_name then "text"
  else if any_in ["address"; "street"; "city"] lower_name then "address"
  else "unknown".

(** ** Python values *)

Inductive pyval :=
  | PNone
  | PStr (s : string)
  | PDict (items : list (string * pyval)).

(** [bool(v)]. *)
Definition truthy (v : pyval) : bool :=
  match v with
  | PNone => false
  | PStr s => bool_decide (s ≠ "")
  | PDict items => bool_decide (items ≠ [])
  end.

Definition hex_digit (n : N) : ascii :=
  if (n <? 10)%N then chr (48 + n) else chr (87 + n).

(** Characters that [repr] writes as an escape [\xhh]. *)
Definition repr_escaped (c : ascii) : bool :=
  let n := ord c in
  ((n <? 32) || (127 <=? n) && (n <=? 160) || (n =? 173))%N.

Definition repr_char (quote c : ascii) : list ascii :=
  if decide (c = quote ∨ c = "\"%char) then ["\"%char; c]
  else if decide (c = chr 9) then ["\"%char; "t"%char]
  else if decide (c = chr 10) then ["\"%char; "n"%char]
  else if decide (c = chr 13) then ["\"%char; "r"%char]
  else if repr_escaped c
       then ["\"%char; "x"%char; hex_digit (ord c / 16); hex_digit (ord c mod 16)]
       else [c].

(** [repr(s)] of a [str]: double quotes when [s] has a single quote and no
    double quote, single quotes otherwise. *)
Definition repr_str (s : string) : string :=
  let quote :=
    if bool_decide ("'"%char ∈ chars s) && negb (bool_decide (chr 34 ∈ chars s))
    then chr 34 else "'"%char in
  str_of ([quote] ++ (chars s ≫= repr_char quote) ++ [quote]).

Fixpoint py_repr (v : pyval) : string :=
  match v with
  | PNone => "None"
  | PStr s => repr_str s
  | PDict items =>
      "{" +:+
      py_join ", "
        ((fix entries (l : list (string * pyval)) : list string :=
            match l with
            | [] => []
            | (k, x) :: l' => (repr_str k +:+ ": " +:+ py_repr x) :: entries l'
            end) items)
      +:+ "}"
  end.

(** [str(v)]. *)
Definition py_str (v : pyval) : string :=
  match v with
  | PStr s => s
  | _ => py_repr v
  end.

(** [v and str(v).strip()], as a condition. *)
Definition nonblank (v : pyval) : bool :=
  truthy v && bool_decide (py_strip (py_str v) ≠ "").

(** Insertion-ordered dictionaries: [d.get(k)], [k in d], [d[k] = v]. *)
Fixpoint dict_get {V} (k : string) (d : list (string * V)) : option V :=
  match d with
  | [] => None
  | (k', v) :: d' => if decide (k' = k) then Some v else dict_get k d'
  end.

Definition dict_has {V} (k : string) (d : list (string * V)) : bool :=
  bool_decide (is_Some (dict_get k d)).

Fixpoint dict_set {V} (k : string) (v : V) (d : list (string * V))
    : list (string * V) :=
  match d with
  | [] => [(k, v)]
  | (k', v') :: d' =>
      if decide (k' = k) then (k, v) :: d' else (k', v') :: dict_set k v d'
  end.

(** [d.update(other)]. *)
Definition dict_update {V} (d other : list (string * V)) : list (string * V) :=
  foldl (λ acc kv, dict_set kv.1 kv.2 acc) d other.

(** ** [int()] of a string and [datetime(year, month, day)] *)

(** The white space [int()] strips around the literal. *)
Definition int_isspace (c : ascii) : bool :=
  let n := ord c in
  ((9 <=? n) && (n <=? 13) || (n =? 32) || (n =? 133) || (n =? 160))%N.

Fixpoint int_lstrip (l : list ascii) : list ascii :=
  match l with
  | c :: l' => if int_isspace c then int_lstrip l' else l
  | [] => []
  end.

Definition digit_val (c : ascii) : Z := Z.of_N (ord c) - 48.

(** Digits with single underscores between them; [prev] is the character just
    read. *)
Fixpoint int_digits (l : list ascii) (prev : option ascii) (acc : Z)
    : option Z :=
  match l with
  | [] =>
      match prev with
      | Some c => if is_ascii_digit c then Some acc else None
      | None => None
      end
  | c :: l' =>
      if is_ascii_digit c then int_digits l' (Some c) (10 * acc + digit_val c)
      else if decide (c = "_"%char)
      then match prev with
           | Some p => if is_ascii_digit p then int_digits l' (Some c) acc
                       else None
           | None => None
           end
      else None
  end.

Definition int_literal (s : string) : option Z :=
  let body := reverse (int_lstrip (reverse (int_lstrip (chars s)))) in
  match body with
  | c :: rest =>
      if decide (c = "-"%char) then Z.opp <$> int_digits rest None 0
      else if decide (c = "+"%char) then int_digits rest None 0
      else int_digits body None 0
  | [] => None
  end.

Definition int_of_str (s : string) : result Z :=
  match int_literal s with
  | Some z => Ok z
  | None =>
      Raise (Exn ValueError
               ("invalid literal for int() with base 10: " +:+ repr_str s))
  end.

(** [int(v)]. *)
Definition py_int (v : pyval) : result Z :=
  match v with
  | PStr s => int_of_str s
  | PNone =>
      Raise (Exn TypeError
        "int() argument must be a string, a bytes-like object or a real number, not 'NoneType'")
  | PDict _ =>
      Raise (Exn TypeError
        "int() argument must be a string, a bytes-like object or a real number, not 'dict'")
  end.

Record datetime := Datetime { dt_year : Z; dt_month : Z; dt_day : Z }.

Definition is_leap (y : Z) : bool :=
  ((y mod 4 =? 0) && (negb (y mod 100 =? 0) || (y mod 400 =? 0)))%Z.

Definition days_in_month (y m : Z) : Z :=
  if (m =? 2)%Z then (if is_leap y then 29 else 28)
  else if ((m =? 4) || (m =? 6) || (m =? 9) || (m =? 11))%Z then 30
  else 31.

Definition fits_c_int (z : Z) : bool :=
  ((-2147483648 <=? z) && (z <=? 2147483647))%Z.

(** [datetime(year, month, day)]: the arguments are converted to C [int]s,
    then the year, the month and the day are range-checked in that order. *)
Definition datetime_new (year month day : Z) : result datetime :=
  if negb (fits_c_int year && fits_c_int month && fits_c_int day)
  then Raise (Exn OverflowError "Python int too large to convert to C int")
  else if negb ((1 <=? year) && (year <=? 9999))%Z
  then Raise (Exn ValueError ("year " +:+ pretty year +:+ " is out of range"))
  else if negb ((1 <=? month) && (month <=? 12))%Z
  then Raise (Exn ValueError "month must be in 1..12")
  else if negb ((1 <=? day) && (day <=? days_in_month year month))%Z
  then Raise (Exn ValueError "day is out of range for month")
  else Ok (Datetime year month day).

Definition dict_index (d : gmap string pyval) (k : string) : result pyval :=
  match d !! k with
  | Some v => Ok v
  | None => Raise (Exn KeyError (repr_str k))
  end.

(** ** [validate_date] *)

Definition validate_date (date_dict : gmap string pyval)
    : result (bool * string) :=
  try_except_all
    (if negb (forallb (λ o, from_option truthy false o)
                [date_dict !! "day"; date_dict !! "month"; date_dict !! "year"])
     then Ok (true, "")
     else
       try_except
         (year ← dict_index date_dict "year" ≫= py_int;
          month ← dict_index date_dict "month" ≫= py_int;
          day ← dict_index date_dict "day" ≫= py_int;
          date_obj ← datetime_new year month day;
          Ok (true, ""))
         ValueError
         (λ e, Ok (false, "Invalid date format: " +:+ exn_str e)))
    (λ e, Ok (false, "Unexpected error: " +:+ exn_str e)).

(** ** OCR data

    The OCR result in the shape [ocr.py] builds it: [text] is a list of
    spans, each with a confidence and a bounding box of numbers, [tables] a
    list of tables, each a list of cells, [average_confidence] a number; any
    key may be absent.  The text of a span is any value.  What the validator
    does with an object of another shape is the subject of [Raw], below. *)

Record span := Span {
  sp_text : option pyval;                      (* the key may be absent *)
  sp_confidence : option Qc;
  sp_bounding_box : option (gmap string Qc)
}.

Record cell := Cell {
  cell_text : string;
  row_index : nat;
  column_index : nat;
  cell_confidence : option Qc
}.

Record ocr_data := OcrData {
  od_text : option (list span);
  od_tables : option (list (list cell));
  od_average_confidence : option Qc
}.

(** [ocr_data.get("text", [])]. *)
Definition text_spans (od : ocr_data) : list span := default [] (od_text od).

(** [span.get("text", "")]. *)
Definition span_text (sp : span) : pyval := default (PStr "") (sp_text sp).

Definition type_name (v : pyval) : string :=
  match v with
  | PNone => "NoneType"
  | PStr _ => "str"
  | PDict _ => "dict"
  end.

Definition no_attribute (v : pyval) (attr : string) : exn :=
  Exn AttributeError
    ("'" +:+ type_name v +:+ "' object has no attribute '" +:+ attr +:+ "'").

(** [v.lower()] and [v.isdigit()] exist on strings only. *)
Definition lower_of (v : pyval) : result string :=
  match v with
  | PStr s => Ok (py_lower s)
  | _ => Raise (no_attribute v "lower")
  end.

Definition isdigit_of (v : pyval) : result bool :=
  match v with
  | PStr s => Ok (py_isdigit s)
  | _ => Raise (no_attribute v "isdigit")
  end.

(** An item of the argument of [str.join] has to be a string. *)
Definition join_item (v : pyval) : result string :=
  match v with
  | PStr s => Ok s
  | _ => Raise (Exn TypeError
                  ("sequence item: expected str instance, " +:+ type_name v
                   +:+ " found"))
  end.

(** ** Log records of the OCR-consistency check *)

Inductive log_level := DEBUG | INFO | WARNING | ERROR.

Inductive log_msg :=
  (* _check_consistency_with_ocr *)
  | ValueTooShort (field : string)
  | CheckingConsistency (field value_str : string)
  | BasicSimilarity (field : string) (score : Qc)
  | ComponentFound (field key component : string)
  | ComponentNotFound (field key component : string)
  | PossibleInconsistency (field : string) (found total : nat)
  | SuspectData (field : string)
  | ComponentsFound (field : string) (found total : nat)
  | TypeSubstitutionNotDigits (field expected value_str : string)
  | TypeSubstitutionOnlyDigits (field value_str : string)
  | TokenSimilar (token closest : string) (score : Qc)
  | TokenNoSimilar (token : string)
  | SignificantTokensFound (field : string) (found total : nat)
  | TokensFound (tokens : list string)
  | TokensNotFound (tokens : list string)
  | PossibleInvention (value_str field : string)
  | SuspiciousData (field value_str : string)
  | IncorrectFormat (field value_str expected : string)
  | FormatSeemsCorrect (value_str : string)
  (* _check_date_coherence *)
  | DateIncomplete (field : string)
  | DateNotDigits (field : string)
  | InvalidDay (field : string) (day : Z)
  | InvalidMonth (field : string) (month : Z)
  | UnusualYear (field : string) (year : Z)
  | DateIsValid (field : string) (d : datetime)
  | FutureDateLogicError (field : string) (d : datetime)
  | FutureDate (field : string) (d : datetime)
  | FillingBeforeInjury (filling injury : datetime)
  | InvalidDate (field reason : string)
  | DateCoherenceError (field reason : string).

Definition level_of (m : log_msg) : log_level :=
  match m with
  | ValueTooShort _ | CheckingConsistency _ _ | BasicSimilarity _ _
  | ComponentFound _ _ _ | TokensFound _ | TokensNotFound _
  | FormatSeemsCorrect _ | DateIncomplete _ => DEBUG
  | ComponentsFound _ _ _ | TokenSimilar _ _ _ | SignificantTokensFound _ _ _
  | DateIsValid _ _ => INFO
  | ComponentNotFound _ _ _ | PossibleInconsistency _ _ _ | SuspectData _
  | TokenNoSimilar _ | PossibleInvention _ _ | DateNotDigits _
  | UnusualYear _ _ | FutureDate _ _ => WARNING
  | TypeSubstitutionNotDigits _ _ _ | TypeSubstitutionOnlyDigits _ _
  | SuspiciousData _ _ | IncorrectFormat _ _ _ | InvalidDay _ _
  | InvalidMonth _ _ | FutureDateLogicError _ _ | FillingBeforeInjury _ _
  | InvalidDate _ _ | DateCoherenceError _ _ => ERROR
  end.

(** ** [_check_date_coherence]

    The validator instance keeps the last injury date ([self.injury_date]).
    [today] is the date part of [datetime.now()]: a [datetime(y, m, d)] is
    midnight of that day, so it is later than now exactly when its day is
    later than today. *)

Record validator := Validator { injury_date : option datetime }.

Definition dt_lt (a b : datetime) : bool :=
  ((dt_year a <? dt_year b)
   || (dt_year a =? dt_year b)
      && ((dt_month a <? dt_month b)
          || (dt_month a =? dt_month b) && (dt_day a <? dt_day b)))%Z.

Definition date_keys_present (date_dict : list (string * pyval)) : bool :=
  forallb (λ k, dict_has k date_dict) ["day"; "month"; "year"].

(** [date_dict[k]]. *)
Definition dict_item (date_dict : list (string * pyval)) (k : string)
    : result pyval :=
  match dict_get k date_dict with
  | Some v => Ok v
  | None => Raise (Exn KeyError (repr_str k))
  end.

(** [a and b] on conditions that can raise: [b] is not evaluated when [a] is
    false. *)
Definition and_then (a b : result bool) : result bool :=
  a ≫= λ x : bool, if x then b else Ok false.

Definition future_date_msgs (today : datetime) (field_name : string)
    (date_obj : datetime) : list log_msg :=
  if dt_lt today date_obj then
    if py_in "injury" (py_lower field_name)
       || py_in "receipt" (py_lower field_name)
       || py_in "filling" (py_lower field_name)
    then [FutureDateLogicError field_name date_obj]
    else [FutureDate field_name date_obj]
  else [].

Definition _check_date_coherence (self : validator) (today : datetime)
    (field_name : string) (date_dict : list (string * pyval))
    : validator * list log_msg :=
  if negb (date_keys_present date_dict) then (self, [DateIncomplete field_name])
  else
    let parsed :=
      digits ← and_then (dict_item date_dict "day" ≫= isdigit_of)
                 (and_then (dict_item date_dict "month" ≫= isdigit_of)
                           (dict_item date_dict "year" ≫= isdigit_of));
      if negb (digits : bool) then Ok None
      else
        day ← dict_item date_dict "day" ≫= py_int;
        month ← dict_item date_dict "month" ≫= py_int;
        year ← dict_item date_dict "year" ≫= py_int;
        Ok (Some (day, month, year)) in
    match parsed with
    | Raise e => (self, [DateCoherenceError field_name (exn_str e)])
    | Ok None => (self, [DateNotDigits field_name])
    | Ok (Some (day, month, year)) =>
        let ranges :=
          (if negb ((1 <=? day) && (day <=? 31))%Z
           then [InvalidDay field_name day] else [])
          ++ (if negb ((1 <=? month) && (month <=? 12))%Z
              then [InvalidMonth field_name month] else [])
          ++ (if ((year <? 1900) || (dt_year today <? year))%Z
              then [UnusualYear field_name year] else []) in
        match datetime_new year month day with
        | Ok date_obj =>
            let self' :=
              if py_in "injury" (py_lower field_name)
              then Validator (Some date_obj) else self in
            let order :=
              match injury_date self' with
              | Some injury =>
                  if py_in "filling" (py_lower field_name)
                     && dt_lt date_obj injury
                  then [FillingBeforeInjury date_obj injury] else []
              | None => []
              end in
            (self',
             ranges ++ [DateIsValid field_name date_obj]
             ++ future_date_msgs today field_name date_obj ++ order)
        | Raise e =>
            if decide (exn_cls e = ValueError)
            then (self, ranges ++ [InvalidDate field_name (exn_str e)])
            else (self, ranges ++ [DateCoherenceError field_name (exn_str e)])
        end
    end.

(** ** [_get_expected_format] and [_matches_expected_format] *)

Definition _get_expected_format (field_type : string) : string :=
  default ""
    (dict_get field_type
       [("numeric", "sequence of digits");
        ("phone", "phone number (digits only)");
        ("date", "date (day/month/year)");
        ("text", "text (not only digits)");
        ("address", "address (street, number, city, etc.)")]).

Definition ratio (a b : nat) : Qc := Q2Qc (Z.of_nat a # Pos.of_nat b).

(** [sum(c.isdigit() for c in value) / len(value) if value else 0]. *)
Definition digits_ratio (value : string) : Qc :=
  if decide (value = "") then Q2Qc 0
  else ratio (length (filter (λ c, isdigit_char c = true) (chars value)))
             (py_len value).

Definition _matches_expected_format (value expected_format : string) : bool :=
  if py_in "digits only" expected_format
  then bool_decide (Q2Qc (7 # 10)%Q < digits_ratio value)%Qc
  else if py_in "sequence of digits" expected_format
  then bool_decide (Q2Qc (9 # 10)%Q < digits_ratio value)%Qc
  else if py_in "not only digits" expected_format
  then bool_decide (digits_ratio value < Q2Qc (5 # 10)%Q)%Qc
  else true.

(** ** [_check_consistency_with_ocr] *)

(** [sum(1 for c in s if c in t)]. *)
Definition count_chars_in (s t : string) : nat :=
  length (filter (λ c, c ∈ chars t) (chars s)).

(** [" ".join([span.get("text", "").lower() for span in ...])]. *)
Definition ocr_corpus (od : ocr_data) : result string :=
  texts ← mapM (λ sp, lower_of (span_text sp)) (text_spans od);
  Ok (py_join " " texts).

(** [' '.join([span.get("text", "") for span in ...]).lower().split()]. *)
Definition ocr_tokens_of (od : ocr_data) : result (list string) :=
  texts ← mapM (λ sp, join_item (span_text sp)) (text_spans od);
  Ok (py_split (py_lower (py_join " " texts))).

(** The search for the closest OCR token: the pair (closest_match,
    match_score) after the loop over [ocr_tokens]. *)
Definition closest_step (token : string) (best : string * Qc)
    (ocr_token : string) : string * Qc :=
  if decide (3 < py_len ocr_token) then
    let common := count_chars_in token ocr_token in
    let score := ratio common (py_len token `max` py_len ocr_token) in
    if bool_decide (Q2Qc (6 # 10)%Q < score)%Qc
       && bool_decide (best.2 < score)%Qc
    then (ocr_token, score) else best
  else best.

Definition closest_match (token : string) (ocr_tokens : list string)
    : string * Qc :=
  foldl (closest_step token) ("", Q2Qc 0) ocr_tokens.

(** One significant token: is it in the corpus, and what is logged. *)
Definition check_token (od : ocr_data) (ocr_text token : string)
    : result (bool * list log_msg) :=
  if py_in token ocr_text then Ok (true, [])
  else
    ocr_tokens ← ocr_tokens_of od;
    let best := closest_match token ocr_tokens in
    Ok (false,
        if decide (best.1 ≠ "") then [TokenSimilar token best.1 best.2]
        else [TokenNoSimilar token]).

(** The loop over [value_tokens]: (tokens_found, tokens_not_found, log). *)
Fixpoint check_tokens (od : ocr_data) (ocr_text : string)
    (value_tokens : list string)
    : result (list string * list string * list log_msg) :=
  match value_tokens with
  | [] => Ok ([], [], [])
  | token :: rest =>
      if decide (3 < py_len token) then
        r ← check_token od ocr_text token;
        rs ← check_tokens od ocr_text rest;
        let '(tokens_found, tokens_not_found, logs) := rs in
        Ok (if r.1 : bool
            then (token :: tokens_found, tokens_not_found, r.2 ++ logs)
            else (tokens_found, token :: tokens_not_found, r.2 ++ logs))
      else check_tokens od ocr_text rest
  end.

(** The loop over the components of a dict value:
    (components_found, components_total, log). *)
Fixpoint check_components (field_name ocr_text : string)
    (items : list (string * pyval)) : nat * nat * list log_msg :=
  match items with
  | [] => (0, 0, [])
  | (component_key, component_val) :: rest =>
      let '(found, total, logs) := check_components field_name ocr_text rest in
      if nonblank component_val then
        let component_str := py_strip (py_lower (py_str component_val)) in
        if py_in component_str ocr_text
        then (S found, S total,
              ComponentFound field_name component_key component_str :: logs)
        else (found, S total,
              ComponentNotFound field_name component_key component_str :: logs)
      else (found, total, logs)
  end.

Definition _check_consistency_with_ocr (self : validator) (today : datetime)
    (field_name : string) (value : pyval) (od : ocr_data)
    : result (validator * list log_msg) :=
  let value_str := py_strip (py_lower (py_str value)) in
  if bool_decide (value_str = "") || bool_decide (py_len value_str ≤ 3)
  then Ok (self, [ValueTooShort field_name])
  else
    ocr_text ← ocr_corpus od;
    let common_chars := count_chars_in value_str ocr_text in
    let similarity_score := ratio common_chars (py_len value_str) in
    let header := [CheckingConsistency field_name value_str;
                   BasicSimilarity field_name similarity_score] in
    match value with
    | PDict items =>
        let '(components_found, components_total, logs) :=
          check_components field_name ocr_text items in
        let '(self', date_logs) :=
          if py_endswith (py_lower field_name) "date" && date_keys_present items
          then _check_date_coherence self today field_name items
          else (self, []) in
        let verdict :=
          if bool_decide (0 < components_total) then
            if bool_decide (ratio components_found components_total
                            < Q2Qc (5 # 10)%Q)%Qc
            then [PossibleInconsistency field_name components_found
                    components_total;
                  SuspectData field_name]
            else [ComponentsFound field_name components_found components_total]
          else [] in
        Ok (self', header ++ logs ++ date_logs ++ verdict)
    | _ =>
        let field_type := _infer_field_type field_name in
        let not_digits :=
          if bool_decide (field_type ∈ ["numeric"; "phone"])
             && negb (py_isdigit
                        (py_remove_char " " (py_remove_char "-" value_str)))
          then [TypeSubstitutionNotDigits field_name
                  (_get_expected_format field_type) value_str]
          else [] in
        let only_digits :=
          if bool_decide (field_type = "text") && py_isdigit value_str
          then [TypeSubstitutionOnlyDigits field_name value_str] else [] in
        rs ← check_tokens od ocr_text (py_split value_str);
        let '(tokens_found, tokens_not_found, logs) := rs in
        let verdict :=
          if bool_decide (tokens_found ≠ []) then
            [SignificantTokensFound field_name (length tokens_found)
               (length tokens_found + length tokens_not_found);
             TokensFound tokens_found]
            ++ (if bool_decide (tokens_not_found ≠ [])
                then [TokensNotFound tokens_not_found] else [])
          else if bool_decide (tokens_not_found ≠ []) then
            let expected_format := _get_expected_format field_type in
            [PossibleInvention value_str field_name;
             SuspiciousData field_name value_str]
            ++ (if bool_decide (expected_format ≠ "")
                   && negb (_matches_expected_format value_str expected_format)
                then [IncorrectFormat field_name value_str expected_format]
                else [FormatSeemsCorrect value_str])
          else [] in
        Ok (self, header ++ not_digits ++ only_digits ++ logs ++ verdict)
    end.

(** ** [_flatten_dict] *)

Definition join_key (parent_key k : string) : string :=
  if decide (parent_key ≠ "") then parent_key +:+ "." +:+ k else k.

Fixpoint flatten_value (v : pyval) (parent_key : string)
    : list (string * pyval) :=
  match v with
  | PDict d =>
      (fix loop (d : list (string * pyval)) (items : list (string * pyval))
         : list (string * pyval) :=
         match d with
         | [] => items
         | (k, v) :: d' =>
             let new_key := join_key parent_key k in
             loop d'
               match v with
               | PDict _ => dict_update items (flatten_value v new_key)
               | _ => dict_set new_key v items
               end
         end) d []
  | _ => []
  end.

Definition _flatten_dict (d : list (string * pyval)) (parent_key : string)
    : list (string * pyval) :=
  flatten_value (PDict d) parent_key.

(** ** [validate_extracted_data]

    On an OCR result of the shape above, and data within the recursion
    limit, neither [json.dumps(structured_data)] nor the log calls can raise:
    they are left out here, and written out in [Raw], below. *)

Record completeness_t := Completeness {
  filled_fields : nat;
  c_total_fields : nat;
  c_score : Qc;
  missing_required : list string
}.

Record invalid_field := InvalidField {
  if_field : string;
  if_value : pyval;
  if_reason : string
}.

Record accuracy_t := Accuracy {
  valid_format_fields : nat;
  a_total_fields : nat;
  a_score : Qc;
  invalid_fields : list invalid_field
}.

Record confidence_t := Confidence {
  conf_score : Qc;
  explanation : string
}.

Record validation_result := ValidationResult {
  completeness : completeness_t;
  accuracy : accuracy_t;
  confidence : confidence_t
}.

(** [a / b if b > 0 else 0]. *)
Definition score_of (a b : nat) : Qc :=
  if decide (0 < b) then ratio a b else Q2Qc 0.

(** The required-field loop: the keys appended to [missing_required]. *)
Definition missing_required_of (flat_data : list (string * pyval))
    : list string :=
  field ← required_fields;
  kv ← flat_data;
  if py_endswith kv.1 field && negb (nonblank kv.2) then [kv.1] else [].

(** The format loop over [flat_data.items()]: the validator and the triple
    (valid_format_fields, total_fields, invalid_fields). *)
Fixpoint accuracy_loop (self : validator) (today : datetime) (od : ocr_data)
    (items : list (string * pyval)) (acc : nat * nat * list invalid_field)
    : result (validator * (nat * nat * list invalid_field)) :=
  match items with
  | [] => Ok (self, acc)
  | (key, value) :: rest =>
      if py_in "confidences" key || py_in "confidence" key
      then accuracy_loop self today od rest acc
      else
        let field_name := last_segment key in
        if nonblank value then
          let '(valid, total, invalid) := acc in
          r ← _check_consistency_with_ocr self today field_name value od;
          accuracy_loop r.1 today od rest
            (if validate_format field_name (py_str value)
             then (S valid, S total, invalid)
             else (valid, S total,
                   invalid ++ [InvalidField key value "Invalid format"]))
        else accuracy_loop self today od rest acc
  end.

Definition validate_extracted_data (self : validator) (today : datetime)
    (structured_data : list (string * pyval)) (od : ocr_data)
    : result (validator * validation_result) :=
  let flat_data := _flatten_dict structured_data "" in
  let total_fields := length flat_data in
  let filled_fields :=
    length (filter (λ kv, nonblank kv.2 = true) flat_data) in
  let missing := missing_required_of flat_data in
  r ← accuracy_loop self today od flat_data (0, 0, []);
  let '(self', (valid_format, total, invalid)) := r in
  Ok (self',
      ValidationResult
        (Completeness filled_fields total_fields
           (score_of filled_fields total_fields) missing)
        (Accuracy valid_format total (score_of valid_format total) invalid)
        (Confidence (default (Q2Qc 0) (od_average_confidence od))
           "Average OCR confidence score")).

(** ** The OCR result as the validator receives it

    [ocr_data] above is the OCR result in the shape [ocr.py] builds it.
    [validate_extracted_data] and [_check_consistency_with_ocr] receive it as
    a plain object and read it with [get], a [for] loop, [lower] and [* 100].
    [Raw] gives both functions for an object of any JSON shape; it also counts
    what the interpreter's recursion limit lets [json.dumps], [str] and the
    recursion of [_flatten_dict] walk. *)

Inductive jval :=
  | JNone
  | JBool (b : bool)
  | JInt (n : Z)
  | JFloat (q : Qc)
  | JStr (s : string)
  | JList (elems : list jval)
  | JDict (items : list (string * jval)).

Definition jtype_name (v : jval) : string :=
  match v with
  | JNone => "NoneType"
  | JBool _ => "bool"
  | JInt _ => "int"
  | JFloat _ => "float"
  | JStr _ => "str"
  | JList _ => "list"
  | JDict _ => "dict"
  end.

(** What is left of the recursion limit when the validator is called: the
    number of nested dicts that [json.dumps] can encode, that [str] can
    print, and the number of nested calls of [_flatten_dict]. *)
Record limits := Limits {
  json_depth : nat;
  repr_depth : nat;
  call_depth : nat
}.

(** A walk of the library through the nested dicts of a value, as
    [json.dumps] and [str] make it. *)
Fixpoint walk (depth : nat) (v : pyval) {struct depth} : result unit :=
  match depth, v with
  | 0, PDict _ => Raise (Exn RecursionError "maximum recursion depth exceeded")
  | S depth', PDict items => mapM (λ kv, walk depth' kv.2) items;; Ok ()
  | _, _ => Ok ()
  end.

Module Raw.

Definition no_attribute (v : jval) (attr : string) : exn :=
  Exn AttributeError
    ("'" +:+ jtype_name v +:+ "' object has no attribute '" +:+ attr +:+ "'").

(** [v.get(k, otherwise)]: a method of dicts. *)
Definition get (v : jval) (k : string) (otherwise : jval) : result jval :=
  match v with
  | JDict items => Ok (default otherwise (dict_get k items))
  | _ => Raise (no_attribute v "get")
  end.

(** [for x in v]: the elements of a list, the keys of a dict, the
    characters of a string. *)
Definition iter (v : jval) : result (list jval) :=
  match v with
  | JList elems => Ok elems
  | JDict items => Ok (JStr <$> items.*1)
  | JStr s => Ok ((λ c, JStr (String c "")) <$> chars s)
  | _ => Raise (Exn TypeError
                  ("'" +:+ jtype_name v +:+ "' object is not iterable"))
  end.

(** [v.lower()]. *)
Definition lower (v : jval) : result string :=
  match v with
  | JStr s => Ok (py_lower s)
  | _ => Raise (no_attribute v "lower")
  end.

(** An item of the argument of [str.join]. *)
Definition join_item (v : jval) : result string :=
  match v with
  | JStr s => Ok s
  | _ => Raise (Exn TypeError
                  ("sequence item: expected str instance, " +:+ jtype_name v
                   +:+ " found"))
  end.

(** [v * 100], an argument of the log calls that report the OCR confidence:
    numbers are multiplied, strings and lists repeated.  What the log call
    does with the product has no effect on the run. *)
Definition times_100 (v : jval) : result unit :=
  match v with
  | JNone | JDict _ =>
      Raise (Exn TypeError
               ("unsupported operand type(s) for *: '" +:+ jtype_name v
                +:+ "' and 'int'"))
  | _ => Ok ()
  end.

(** [str(value)]. *)
Definition str_of_value (lim : limits) (value : pyval) : result string :=
  walk (repr_depth lim) value;; Ok (py_str value).

(** [" ".join([span.get("text", "").lower()
               for span in ocr_data.get("text", [])])]. *)
Definition ocr_corpus (ocr_data : jval) : result string :=
  text ← get ocr_data "text" (JList []);
  spans ← iter text;
  texts ← mapM (λ span, t ← get span "text" (JStr ""); lower t) spans;
  Ok (py_join " " texts).

(** [' '.join([span.get("text", "")
               for span in ocr_data.get("text", [])]).lower().split()]. *)
Definition ocr_tokens_of (ocr_data : jval) : result (list string) :=
  text ← get ocr_data "text" (JList []);
  spans ← iter text;
  items ← mapM (λ span, get span "text" (JStr "")) spans;
  texts ← mapM join_item items;
  Ok (py_split (py_lower (py_join " " texts))).

Definition check_token (ocr_data : jval) (ocr_text token : string)
    : result (bool * list log_msg) :=
  if py_in token ocr_text then Ok (true, [])
  else
    ocr_tokens ← ocr_tokens_of ocr_data;
    let best := closest_match token ocr_tokens in
    Ok (false,
        if decide (best.1 ≠ "") then [TokenSimilar token best.1 best.2]
        else [TokenNoSimilar token]).

Fixpoint check_tokens (ocr_data : jval) (ocr_text : string)
    (value_tokens : list string)
    : result (list string * list string * list log_msg) :=
  match value_tokens with
  | [] => Ok ([], [], [])
  | token :: rest =>
      if decide (3 < py_len token) then
        r ← check_token ocr_data ocr_text token;
        rs ← check_tokens ocr_data ocr_text rest;
        let '(tokens_found, tokens_not_found, logs) := rs in
        Ok (if r.1 : bool
            then (token :: tokens_found, tokens_not_found, r.2 ++ logs)
            else (tokens_found, token :: tokens_not_found, r.2 ++ logs))
      else check_tokens ocr_data ocr_text rest
  end.

(** The components of a dict value are printed after the value itself, at
    the same depth of the call stack: [check_components] prints them. *)
Definition _check_consistency_with_ocr (lim : limits) (self : validator)
    (today : datetime) (field_name : string) (value : pyval) (ocr_data : jval)
    : result (validator * list log_msg) :=
  s ← str_of_value lim value;
  let value_str := py_strip (py_lower s) in
  if bool_decide (value_str = "") || bool_decide (py_len value_str ≤ 3)
  then Ok (self, [ValueTooShort field_name])
  else
    ocr_text ← ocr_corpus ocr_data;
    let common_chars := count_chars_in value_str ocr_text in
    let similarity_score := ratio common_chars (py_len value_str) in
    let header := [CheckingConsistency field_name value_str;
                   BasicSimilarity field_name similarity_score] in
    match value with
    | PDict items =>
        let '(components_found, components_total, logs) :=
          check_components field_name ocr_text items in
        let '(self', date_logs) :=
          if py_endswith (py_lower field_name) "date" && date_keys_present items
          then _check_date_coherence self today field_name items
          else (self, []) in
        let verdict :=
          if bool_decide (0 < components_total) then
            if bool_decide (ratio components_found components_total
                            < Q2Qc (5 # 10)%Q)%Qc
            then [PossibleInconsistency field_name components_found
                    components_total;
                  SuspectData field_name]
            else [ComponentsFound field_name components_found components_total]
          else [] in
        Ok (self', header ++ logs ++ date_logs ++ verdict)
    | _ =>
        let field_type := _infer_field_type field_name in
        let not_digits :=
          if bool_decide (field_type ∈ ["numeric"; "phone"])
             && negb (py_isdigit
                        (py_remove_char " " (py_remove_char "-" value_str)))
          then [TypeSubstitutionNotDigits field_name
                  (_get_expected_format field_type) value_str]
          else [] in
        let only_digits :=
          if bool_decide (field_type = "text") && py_isdigit value_str
          then [TypeSubstitutionOnlyDigits field_name value_str] else [] in
        rs ← check_tokens ocr_data ocr_text (py_split value_str);
        let '(tokens_found, tokens_not_found, logs) := rs in
        let verdict :=
          if bool_decide (tokens_found ≠ []) then
            [SignificantTokensFound field_name (length tokens_found)
               (length tokens_found + length tokens_not_found);
             TokensFound tokens_found]
            ++ (if bool_decide (tokens_not_found ≠ [])
                then [TokensNotFound tokens_not_found] else [])
          else if bool_decide (tokens_not_found ≠ []) then
            let expected_format := _get_expected_format field_type in
            [PossibleInvention value_str field_name;
             SuspiciousData field_name value_str]
            ++ (if bool_decide (expected_format ≠ "")
                   && negb (_matches_expected_format value_str expected_format)
                then [IncorrectFormat field_name value_str expected_format]
                else [FormatSeemsCorrect value_str])
          else [] in
        Ok (self, header ++ not_digits ++ only_digits ++ logs ++ verdict)
    end.

(** [_flatten_dict], with its nested calls counted. *)
Fixpoint _flatten_dict (depth : nat) (d : list (string * pyval))
    (parent_key : string) : result (list (string * pyval)) :=
  match depth with
  | 0 => Raise (Exn RecursionError "maximum recursion depth exceeded")
  | S depth' =>
      (fix loop (d : list (string * pyval)) (items : list (string * pyval))
         : result (list (string * pyval)) :=
         match d with
         | [] => Ok items
         | (k, v) :: d' =>
             let new_key := join_key parent_key k in
             match v with
             | PDict nested =>
                 flat ← _flatten_dict depth' nested new_key;
                 loop d' (dict_update items flat)
             | _ => loop d' (dict_set new_key v items)
             end
         end) d []
  end.

Fixpoint accuracy_loop (lim : limits) (self : validator) (today : datetime)
    (ocr_data : jval) (items : list (string * pyval))
    (acc : nat * nat * list invalid_field)
    : result (validator * (nat * nat * list invalid_field)) :=
  match items with
  | [] => Ok (self, acc)
  | (key, value) :: rest =>
      if py_in "confidences" key || py_in "confidence" key
      then accuracy_loop lim self today ocr_data rest acc
      else
        let field_name := last_segment key in
        if nonblank value then
          let '(valid, total, invalid) := acc in
          r ← _check_consistency_with_ocr lim self today field_name value
                ocr_data;
          accuracy_loop lim r.1 today ocr_data rest
            (if validate_format field_name (py_str value)
             then (S valid, S total, invalid)
             else (valid, S total,
                   invalid ++ [InvalidField key value "Invalid format"]))
        else accuracy_loop lim self today ocr_data rest acc
  end.

(** The result: the confidence score is the object found in [ocr_data]. *)
Record validation_result := ValidationResult {
  completeness : completeness_t;
  accuracy : accuracy_t;
  confidence_score : jval
}.

(** [_log_validation_summary]: of the arguments of its log calls, only the
    OCR confidence in percent can raise. *)
Definition _log_validation_summary (validation_result : validation_result)
    : result unit :=
  times_100 (confidence_score validation_result).

Definition validate_extracted_data (lim : limits) (self : validator)
    (today : datetime) (structured_data : list (string * pyval))
    (ocr_data : jval) : result (validator * validation_result) :=
  walk (json_depth lim) (PDict structured_data);;
  score ← get ocr_data "average_confidence" (JInt 0);
  flat_data ← _flatten_dict (call_depth lim) structured_data "";
  let total_fields := length flat_data in
  let filled_fields :=
    length (filter (λ kv, nonblank kv.2 = true) flat_data) in
  let missing := missing_required_of flat_data in
  r ← accuracy_loop lim self today ocr_data flat_data (0, 0, []);
  let '(self', (valid_format, total, invalid)) := r in
  let validation_result :=
    ValidationResult
      (Completeness filled_fields total_fields
         (score_of filled_fields total_fields) missing)
      (Accuracy valid_format total (score_of valid_format total) invalid)
      score in
  _log_validation_summary validation_result;;
  times_100 (confidence_score validation_result);;
  Ok (self', validation_result).

End Raw.

(** ** Spatial coherence: [_calculate_overlap], [_validate_spatial_coherence] *)

Definition qmin (a b : Qc) : Qc := if bool_decide (b < a)%Qc then b else a.
Definition qmax (a b : Qc) : Qc := if bool_decide (a < b)%Qc then b else a.

Definition qsum (l : list Qc) : Qc := foldr Qcplus (Q2Qc 0) l.

(** [np.mean(l) if l else 0.0]. *)
Definition mean_or_zero (l : list Qc) : Qc :=
  match l with
  | [] => Q2Qc 0
  | _ => (qsum l / Q2Qc (Z.of_nat (length l) # 1))%Qc
  end.

(** The numbers are exact.  With floats the quotient can leave [0, 1] by a
    rounding error: a box and itself can give 1.0000000000000002. *)
Definition _calculate_overlap (bbox1 bbox2 : gmap string Qc) : Qc :=
  match bbox1 !! "x", bbox1 !! "y", bbox1 !! "width", bbox1 !! "height",
        bbox2 !! "x", bbox2 !! "y", bbox2 !! "width", bbox2 !! "height" with
  | Some x1, Some y1, Some w1, Some h1, Some x2, Some y2, Some w2, Some h2 =>
      let x_left := qmax x1 x2 in
      let y_top := qmax y1 y2 in
      let x_right := qmin (x1 + w1) (x2 + w2) in
      let y_bottom := qmin (y1 + h1) (y2 + h2) in
      if bool_decide (x_right < x_left)%Qc || bool_decide (y_bottom < y_top)%Qc
      then Q2Qc 0
      else
        let intersection_area := ((x_right - x_left) * (y_bottom - y_top))%Qc in
        let bbox1_area := (w1 * h1)%Qc in
        let bbox2_area := (w2 * h2)%Qc in
        let union_area := (bbox1_area + bbox2_area - intersection_area)%Qc in
        if bool_decide (Q2Qc 0 < union_area)%Qc
        then (intersection_area / union_area)%Qc else Q2Qc 0
  | _, _, _, _, _, _, _, _ => Q2Qc 0
  end.

(** An element of [text_spans + tables]: a span (a dict) or a table (a list
    of cells, which has no [get]). *)
Inductive element :=
  | ElSpan (sp : span)
  | ElTable (cells : list cell).

(** [element.get("bounding_box")]. *)
Definition element_bounding_box (el : element)
    : result (option (gmap string Qc)) :=
  match el with
  | ElSpan sp => Ok (sp_bounding_box sp)
  | ElTable _ =>
      Raise (Exn AttributeError "'list' object has no attribute 'get'")
  end.

(** The loop that collects [overlaps]. *)
Fixpoint overlaps_of (bbox : gmap string Qc) (all_elements : list element)
    : result (list Qc) :=
  match all_elements with
  | [] => Ok []
  | el :: rest =>
      b ← element_bounding_box el;
      if decide (b = Some bbox) then overlaps_of bbox rest
      else
        os ← overlaps_of bbox rest;
        Ok (_calculate_overlap bbox (default ∅ b) :: os)
  end.

Definition _validate_spatial_coherence (bbox : gmap string Qc)
    (all_elements : list element) : result Qc :=
  if decide (all_elements = []) then Ok (Q2Qc 1)
  else
    overlaps ← overlaps_of bbox all_elements;
    let avg_overlap := mean_or_zero overlaps in
    Ok (Q2Qc 1 - qmin (avg_overlap / spatial_overlap_threshold) (Q2Qc 1))%Qc.

(** ** [validate_extraction] *)

Record validated_span := ValidatedSpan {
  vs_text : pyval;
  confidence_valid : bool;
  spatial_score : Qc
}.

Record extraction_validation := ExtractionValidation {
  validated_spans : list validated_span;
  global_confidence : Qc;
  average_confidence : Qc;
  spatial_confidence : Qc
}.

(** [span.get("confidence", 0)] and [span.get("bounding_box", {})]. *)
Definition span_confidence (sp : span) : Qc :=
  default (Q2Qc 0) (sp_confidence sp).
Definition span_bounding_box (sp : span) : gmap string Qc :=
  default ∅ (sp_bounding_box sp).

(** [span.get("text", "")[:30]], an argument of the log call of each of the
    first spans: only a string can be sliced (a dict raises too; its
    exception class depends on the interpreter version). *)
Definition slice_text (v : pyval) : result string :=
  match v with
  | PStr s => Ok (str_of (take 30 (chars s)))
  | _ => Raise (Exn TypeError
                  ("'" +:+ type_name v +:+ "' object is not subscriptable"))
  end.

(** The loop over [text_spans[:20]]: the lists [validation_scores] and
    [spatial_validations]. *)
Fixpoint score_loop (spans : list span) (all_elements : list element)
    : result (list Qc * list Qc) :=
  match spans with
  | [] => Ok ([], [])
  | sp :: rest =>
      slice_text (span_text sp);;
      spatial ← _validate_spatial_coherence (span_bounding_box sp) all_elements;
      rs ← score_loop rest all_elements;
      Ok (span_confidence sp :: rs.1, spatial :: rs.2)
  end.

Definition validate_extraction (extraction_result : ocr_data)
    : result extraction_validation :=
  let text_spans := text_spans extraction_result in
  let tables := default [] (od_tables extraction_result) in
  scores ← score_loop (take 20 text_spans)
              ((ElSpan <$> text_spans) ++ (ElTable <$> tables));
  let avg_confidence := mean_or_zero scores.1 in
  let spatial_confidence := mean_or_zero scores.2 in
  validated ← mapM (λ sp,
      spatial ← _validate_spatial_coherence (span_bounding_box sp)
                   (ElSpan <$> text_spans);
      Ok (ValidatedSpan (span_text sp)
            (bool_decide (min_confidence_threshold ≤ span_confidence sp)%Qc)
            spatial)) text_spans;
  Ok (ExtractionValidation validated
        ((avg_confidence + spatial_confidence) / Q2Qc 2)%Qc
        avg_confidence spatial_confidence).

(** ** [_extract_bounding_box] ([app/utils/ocr.py]) *)

(** An element of a polygon: an object with attributes [x] and [y], a number,
    a list or tuple of numbers, or anything else. *)
Inductive pelem :=
  | PtObject (x y : Qc)
  | PtNumber (v : Qc)
  | PtSeq (l : list Qc)
  | PtOther.

Definition default_box : gmap string Qc :=
  {[ "x" := Q2Qc 0; "y" := Q2Qc 0; "width" := Q2Qc 100; "height" := Q2Qc 20 ]}.

(** [p.x] and [p.y]. *)
Definition attr_x (p : pelem) : result Qc :=
  match p with
  | PtObject x _ => Ok x
  | _ => Raise (Exn AttributeError "object has no attribute 'x'")
  end.

Definition attr_y (p : pelem) : result Qc :=
  match p with
  | PtObject _ y => Ok y
  | _ => Raise (Exn AttributeError "object has no attribute 'y'")
  end.

(** [p[i]]. *)
Definition subscript (i : nat) (p : pelem) : result Qc :=
  match p with
  | PtSeq l =>
      match l !! i with
      | Some v => Ok v
      | None => Raise (Exn IndexError "list index out of range")
      end
  | _ => Raise (Exn TypeError "object is not subscriptable")
  end.

(** A coordinate taken from a flat list: when it is not a number, [min],
    [max] or the subtraction raises [TypeError]. *)
Definition as_number (p : pelem) : result Qc :=
  match p with
  | PtNumber v => Ok v
  | _ => Raise (Exn TypeError "unsupported operand type(s)")
  end.

(** [[polygon[i] for i in range(start, len(polygon), 2)]]. *)
Fixpoint every_other {A} (take_it : bool) (l : list A) : list A :=
  match l with
  | [] => []
  | a :: l' =>
      if take_it then a :: every_other false l' else every_other true l'
  end.

(** [min(l)] and [max(l)]. *)
Definition py_min (l : list Qc) : result Qc :=
  match l with
  | [] => Raise (Exn ValueError "min() arg is an empty sequence")
  | a :: l' => Ok (foldl qmin a l')
  end.

Definition py_max (l : list Qc) : result Qc :=
  match l with
  | [] => Raise (Exn ValueError "max() arg is an empty sequence")
  | a :: l' => Ok (foldl qmax a l')
  end.

(** The coordinate lists, or [None] where the code returns the default box. *)
Definition polygon_coordinates (polygon : list pelem)
    : result (option (list Qc * list Qc)) :=
  match polygon with
  | [] => Ok None
  | PtObject _ _ :: _ =>
      x_coordinates ← mapM attr_x polygon;
      y_coordinates ← mapM attr_y polygon;
      Ok (Some (x_coordinates, y_coordinates))
  | PtNumber _ :: _ =>
      if decide (length polygon `mod` 2 = 0) then
        x_coordinates ← mapM as_number (every_other true polygon);
        y_coordinates ← mapM as_number (every_other false polygon);
        Ok (Some (x_coordinates, y_coordinates))
      else Ok None
  | PtSeq l :: _ =>
      if decide (length l = 2) then
        x_coordinates ← mapM (subscript 0) polygon;
        y_coordinates ← mapM (subscript 1) polygon;
        Ok (Some (x_coordinates, y_coordinates))
      else Ok None
  | PtOther :: _ => Ok None
  end.

Definition _extract_bounding_box (polygon : list pelem)
    : result (gmap string Qc) :=
  try_except_all
    (coordinates ← polygon_coordinates polygon;
     match coordinates with
     | None => Ok default_box
     | Some (x_coordinates, y_coordinates) =>
         min_x ← py_min x_coordinates;
         min_y ← py_min y_coordinates;
         max_x ← py_max x_coordinates;
         max_y ← py_max y_coordinates;
         Ok ({[ "x" := min_x; "y" := min_y;
                "width" := (max_x - min_x)%Qc;
                "height" := (max_y - min_y)%Qc ]} : gmap string Qc)
     end)
    (λ e, Ok default_box).

(** ** [validate_spatial_position] *)

(** An entry of [self.expected_zones]: the ranges of the normalised
    coordinates. *)
Record zone := Zone { y_range : Qc * Qc; x_range : Qc * Qc }.

(** [self.expected_zones]. *)
Definition expected_zones : gmap string zone :=
  {[ "lastName" := Zone (Q2Qc (2 # 10), Q2Qc (3 # 10))
                        (Q2Qc (6 # 10), Q2Qc (8 # 10));
     "firstName" := Zone (Q2Qc (2 # 10), Q2Qc (3 # 10))
                         (Q2Qc (4 # 10), Q2Qc (6 # 10));
     "idNumber" := Zone (Q2Qc (2 # 10), Q2Qc (3 # 10))
                        (Q2Qc (2 # 10), Q2Qc (4 # 10)) ]}.

(** What [validate_spatial_position] can raise: [KeyError] for a key that
    [position] or [page_dims] lacks, [ZeroDivisionError] for a page
    dimension 0. *)
Inductive position_error :=
  | PositionKeyError (key : string)
  | PositionZeroDivisionError.

(** [a <= x <= b]. *)
Definition between (r : Qc * Qc) (x : Qc) : bool :=
  bool_decide (r.1 ≤ x)%Qc && bool_decide (x ≤ r.2)%Qc.

(** [position[k] / page_dims[dim]].  The quotient and the bounds of the zones
    are exact: next to a bound of a zone, the quotient of floats can fall on
    the other side of it. *)
Definition normalised (position page_dims : gmap string Qc) (k dim : string)
    : position_error + Qc :=
  match position !! k with
  | None => inl (PositionKeyError k)
  | Some c =>
      match page_dims !! dim with
      | None => inl (PositionKeyError dim)
      | Some size =>
          if decide (size = Q2Qc 0) then inl PositionZeroDivisionError
          else inr (c / size)%Qc
      end
  end.

Definition validate_spatial_position (field : string)
    (position page_dims : gmap string Qc) : position_error + Qc :=
  match expected_zones !! field with
  | None => inr (Q2Qc 1)
  | Some expected =>
      match normalised position page_dims "x" "width" with
      | inl e => inl e
      | inr x_norm =>
          match normalised position page_dims "y" "height" with
          | inl e => inl e
          | inr y_norm =>
              let x_valid := between (x_range expected) x_norm in
              let y_valid := between (y_range expected) y_norm in
              if x_valid && y_valid then inr (Q2Qc 1)
              else if x_valid || y_valid then inr (Q2Qc (5 # 10))
              else inr (Q2Qc 0)
          end
      end
  end.

(** ** The form editor ([app/streamlit_app_editable.py])

    [flatten_dict] turns the extracted form into (dotted key, value) pairs
    for the input fields, [rebuild_dict] turns the edited pairs into a form
    again. *)

(** [dict(pairs)]. *)
Definition dict_of_pairs {V} (pairs : list (string * V)) : list (string * V) :=
  dict_update [] pairs.

Module App.

(** [flatten_dict]: the list of the (dotted key, leaf) pairs. *)
Fixpoint flatten_items (v : pyval) (parent_key : string)
    : list (string * pyval) :=
  match v with
  | PDict d =>
      (fix loop (d : list (string * pyval)) (items : list (string * pyval))
         : list (string * pyval) :=
         match d with
         | [] => items
         | (k, v) :: d' =>
             let new_key := join_key parent_key k in
             loop d'
               match v with
               | PDict _ => items ++ flatten_items v new_key
               | _ => items ++ [(new_key, v)]
               end
         end) d []
  | _ => []
  end.

Definition flatten_dict (d : list (string * pyval)) (parent_key : string)
    : list (string * pyval) :=
  flatten_items (PDict d) parent_key.

(** [key.split('.')]. *)
Fixpoint split_on_chars (sep : ascii) (cur l : list ascii)
    : list (list ascii) :=
  match l with
  | [] => [reverse cur]
  | c :: l' =>
      if decide (c = sep) then reverse cur :: split_on_chars sep [] l'
      else split_on_chars sep (c :: cur) l'
  end.

Definition split_dot (key : string) : list string :=
  str_of <$> split_on_chars "." [] (chars key).

(** What the walk does once [d] is bound to a value that is no dict:
    [part not in d], [d[part] = {}], [d = d[part]] or [d[last] = value]
    raises [TypeError] (the texts are those of CPython 3.11 to 3.13). *)
Definition walk_error (v : pyval) (rest : list string) : exn :=
  match v, rest with
  | PStr s, part :: _ :: _ =>
      if py_in part s
      then Exn TypeError "string indices must be integers, not 'str'"
      else Exn TypeError "'str' object does not support item assignment"
  | PStr _, _ =>
      Exn TypeError "'str' object does not support item assignment"
  | _, _ :: _ :: _ =>
      Exn TypeError "argument of type 'NoneType' is not iterable"
  | _, _ =>
      Exn TypeError "'NoneType' object does not support item assignment"
  end.

(** One pair of [rebuild_dict]: the walk along [parts[:-1]], which creates
    the dicts that are missing, and the assignment [d[parts[-1]] = value];
    the result is the dict [d] afterwards. *)
Fixpoint insert_path (parts : list string) (value : pyval)
    (d : list (string * pyval)) : result (list (string * pyval)) :=
  match parts with
  | [] => Ok d
  | [last] => Ok (dict_set last value d)
  | part :: rest =>
      match dict_get part d with
      | None =>
          sub ← insert_path rest value [];
          Ok (dict_set part (PDict sub) d)
      | Some (PDict sub0) =>
          sub ← insert_path rest value sub0;
          Ok (dict_set part (PDict sub) d)
      | Some v => Raise (walk_error v rest)
      end
  end.

(** The loop over [flat_items]; [result0] is the dict [result]. *)
Fixpoint rebuild_loop (flat_items : list (string * pyval))
    (result0 : list (string * pyval)) : result (list (string * pyval)) :=
  match flat_items with
  | [] => Ok result0
  | (key, value) :: rest =>
      r ← insert_path (split_dot key) value result0;
      rebuild_loop rest r
  end.

Definition rebuild_dict (flat_items : list (string * pyval))
    : result (list (string * pyval)) :=
  rebuild_loop flat_items [].

End App.

(** ** The expected structure ([app/utils/openai_extractor.py])

    [copy_expected_fields] is the function that [extract_structured_data]
    defines to keep, of the reply of the model, the fields of the expected
    schema only. *)

Module Extractor.

Definition date_schema : pyval :=
  PDict [("day", PStr ""); ("month", PStr ""); ("year", PStr "")].

(** [self.expected_schema]. *)
Definition expected_schema : list (string * pyval) :=
  [ ("lastName", PStr ""); ("firstName", PStr ""); ("idNumber", PStr "");
    ("gender", PStr "");
    ("dateOfBirth", date_schema);
    ("address",
     PDict [("street", PStr ""); ("houseNumber", PStr "");
            ("entrance", PStr ""); ("apartment", PStr ""); ("city", PStr "");
            ("postalCode", PStr ""); ("poBox", PStr "")]);
    ("landlinePhone", PStr ""); ("mobilePhone", PStr ""); ("jobType", PStr "");
    ("dateOfInjury", date_schema);
    ("timeOfInjury", PStr ""); ("accidentLocation", PStr "");
    ("accidentAddress", PStr ""); ("accidentDescription", PStr "");
    ("injuredBodyPart", PStr ""); ("signature", PStr "");
    ("formFillingDate", date_schema);
    ("formReceiptDateAtClinic", date_schema);
    ("medicalInstitutionFields",
     PDict [("healthFundMember", PStr ""); ("natureOfAccident", PStr "");
            ("medicalDiagnoses", PStr "")]) ].

(** [key == 'confidences' or key.endswith('_confidence')]. *)
Definition confidence_key (key : string) : bool :=
  bool_decide (key = "confidences") || py_endswith key "_confidence".

(** [{k: "" for k, v in schema[key].items()}]. *)
Definition empty_structure (schema : list (string * pyval))
    : list (string * pyval) :=
  dict_update [] ((λ kv, (kv.1, PStr "")) <$> schema).

(** [copy_expected_fields(source, schema, target)] for an empty [target]:
    the dict [target] afterwards. *)
Fixpoint copy_fields (schema : pyval) (source : list (string * pyval))
    : list (string * pyval) :=
  match schema with
  | PDict entries =>
      (fix loop (entries target : list (string * pyval))
         : list (string * pyval) :=
         match entries with
         | [] => target
         | (key, value) :: rest =>
             if confidence_key key then loop rest target
             else
               loop rest
                 (dict_set key
                    match value with
                    | PDict sub_schema =>
                        match dict_get key source with
                        | Some (PDict sub_source) =>
                            PDict (copy_fields value sub_source)
                        | _ => PDict (empty_structure sub_schema)
                        end
                    | _ => default (PStr "") (dict_get key source)
                    end
                    target)
         end) entries []
  | _ => []
  end.

Definition copy_expected_fields (source schema : list (string * pyval))
    : list (string * pyval) :=
  copy_fields (PDict schema) source.

End Extractor.

(** * Objects and mutation

    The functions above work on values.  To state that
    [validate_extracted_data] leaves its arguments alone, this part places
    the Python objects (dicts and lists) in a store, passes references, and
    writes down every allocation and every in-place update the code makes.
    The store survives an exception.  The decisions that only read (blank
    test, format validation, consistency check) are those of the value
    level, applied to the leaf read from the store; leaves are [None] or
    strings, as at the value level. *)

Module Objects.

Definition loc := positive.

Inductive hval :=
  | HNone
  | HStr (s : string)
  | HNum (q : Qc)
  | HRef (l : loc).

Inductive hobj :=
  | HDict (items : list (string * hval))
  | HList (elems : list hval).

Abbreviation heap := (gmap loc hobj).

(** A computation on the store: the store afterwards, and a value or an
    exception. *)
Definition prog (A : Type) : Type := heap → heap * result A.

Global Instance prog_ret : MRet prog := λ A a h, (h, Ok a).
Global Instance prog_bind : MBind prog := λ A B k m h,
  match m h with
  | (h', Ok a) => k a h'
  | (h', Raise e) => (h', Raise e)
  end.

Definition raise {A} (e : exn) : prog A := λ h, (h, Raise e).

(** A computation of the value level. *)
Definition lift {A} (r : result A) : prog A := λ h, (h, r).

(** A location no object lives at. *)
Definition fresh_loc (h : heap) : loc :=
  map_fold (λ l _ acc, Pos.max (Pos.succ l) acc) 1%positive h.

Definition new (o : hobj) : prog loc := λ h,
  let l := fresh_loc h in (<[l := o]> h, Ok l).

Definition load (l : loc) : prog hobj := λ h,
  match h !! l with
  | Some o => (h, Ok o)
  | None => (h, Raise (Exn SystemError "no object at this reference"))
  end.

Definition store (l : loc) (o : hobj) : prog unit := λ h, (<[l := o]> h, Ok ()).

(** [d.items()]. *)
Definition dict_items (d : loc) : prog (list (string * hval)) :=
  o ← load d;
  match o with
  | HDict items => mret items
  | HList _ =>
      raise (Exn AttributeError "'list' object has no attribute 'items'")
  end.

(** [d[k]]. *)
Definition getitem (d : loc) (k : string) : prog hval :=
  o ← load d;
  match o with
  | HDict items =>
      match dict_get k items with
      | Some v => mret v
      | None => raise (Exn KeyError (repr_str k))
      end
  | HList _ => raise (Exn TypeError "list indices must be integers or slices, not str")
  end.

(** [d.get(k, default)]. *)
Definition get_default (d : loc) (k : string) (otherwise : hval) : prog hval :=
  o ← load d;
  match o with
  | HDict items => mret (default otherwise (dict_get k items))
  | HList _ => raise (Exn AttributeError "'list' object has no attribute 'get'")
  end.

(** [d[k] = v]. *)
Definition setitem (d : loc) (k : string) (v : hval) : prog unit :=
  o ← load d;
  match o with
  | HDict items => store d (HDict (dict_set k v items))
  | HList _ =>
      raise (Exn TypeError "list indices must be integers or slices, not str")
  end.

(** [l.append(v)]. *)
Definition append (l : loc) (v : hval) : prog unit :=
  o ← load l;
  match o with
  | HList elems => store l (HList (elems ++ [v]))
  | HDict _ =>
      raise (Exn AttributeError "'dict' object has no attribute 'append'")
  end.

(** The object a value refers to, where the code subscripts or calls a
    method of it. *)
Definition deref (v : hval) : prog loc :=
  match v with
  | HRef l => mret l
  | _ => raise (Exn TypeError "object is not subscriptable")
  end.

(** [isinstance(v, dict)]. *)
Definition is_dict (v : hval) : prog bool :=
  match v with
  | HRef l =>
      o ← load l;
      mret (match o with HDict _ => true | HList _ => false end)
  | _ => mret false
  end.

Fixpoint for_each {A} (l : list A) (body : A → prog unit) : prog unit :=
  match l with
  | [] => mret ()
  | a :: l' => body a;; for_each l' body
  end.

(** The leaf of a flattened dict, as a value. *)
Definition leaf (v : hval) : pyval :=
  match v with
  | HStr s => PStr s
  | _ => PNone
  end.

(** [n + 1] and the number of a value. *)
Definition as_num (v : hval) : prog Qc :=
  match v with
  | HNum q => mret q
  | _ => raise (Exn TypeError "unsupported operand type(s)")
  end.

Definition num (n : nat) : hval := HNum (Q2Qc (Z.of_nat n # 1)).

(** ** [_flatten_dict]

    [depth] is what is left of the interpreter's recursion limit. *)
Fixpoint _flatten_dict (depth : nat) (d : loc) (parent_key : string)
    : prog loc :=
  match depth with
  | 0 => raise (Exn RecursionError "maximum recursion depth exceeded")
  | S depth' =>
      items ← new (HDict []);
      entries ← dict_items d;
      for_each entries (λ kv,
        let new_key := join_key parent_key kv.1 in
        nested ← is_dict kv.2;
        if nested : bool then
          v ← deref kv.2;
          flat ← _flatten_dict depth' v new_key;
          flat_entries ← dict_items flat;
          for_each flat_entries (λ kv', setitem items kv'.1 kv'.2)
        else setitem items new_key kv.2);;
      mret items
  end.

(** ** Reading the OCR result: the span texts *)

Definition span_of (h : heap) (v : hval) : span :=
  match v with
  | HRef l =>
      match h !! l with
      | Some (HDict items) => Span (leaf <$> dict_get "text" items) None None
      | _ => Span (Some PNone) None None
      end
  | _ => Span (Some PNone) None None
  end.

Definition ocr_of (h : heap) (od : loc) : ocr_data :=
  match h !! od with
  | Some (HDict items) =>
      match dict_get "text" items with
      | Some (HRef l) =>
          match h !! l with
          | Some (HList elems) => OcrData (Some (span_of h <$> elems)) None None
          | _ => OcrData (Some [Span (Some PNone) None None]) None None
          end
      | Some _ => OcrData (Some [Span (Some PNone) None None]) None None
      | None => OcrData None None None
      end
  | _ => OcrData None None None
  end.

Definition read_ocr (od : loc) : prog ocr_data := λ h, (h, Ok (ocr_of h od)).

(** ** [validate_extracted_data] *)

(** [validation_result[section][key]], a reference. *)
Definition sub_object (validation_result : loc) (section key : string)
    : prog loc :=
  s ← getitem validation_result section ≫= deref;
  getitem s key ≫= deref.

(** [validation_result[section][key] = v]. *)
Definition set_field (validation_result : loc) (section key : string)
    (v : hval) : prog unit :=
  s ← getitem validation_result section ≫= deref;
  setitem s key v.

(** [validation_result[section][key] += 1]. *)
Definition increment (validation_result : loc) (section key : string)
    : prog unit :=
  s ← getitem validation_result section ≫= deref;
  n ← getitem s key ≫= as_num;
  setitem s key (HNum (n + Q2Qc 1)%Qc).

(** The body of the required-field loop, for one field and one entry. *)
Definition required_step (validation_result : loc) (field : string)
    (kv : string * hval) : prog unit :=
  if py_endswith kv.1 field && negb (nonblank (leaf kv.2)) then
    missing ← sub_object validation_result "completeness" "missing_required";
    append missing (HStr kv.1)
  else mret ().

(** The format loop; the validator instance is threaded through it. *)
Fixpoint accuracy_loop (validation_result ocr_data : loc) (today : datetime)
    (entries : list (string * hval)) (self : validator) : prog validator :=
  match entries with
  | [] => mret self
  | (key, value) :: rest =>
      if py_in "confidences" key || py_in "confidence" key
      then accuracy_loop validation_result ocr_data today rest self
      else
        let field_name := last_segment key in
        if nonblank (leaf value) then
          increment validation_result "accuracy" "total_fields";;
          od ← read_ocr ocr_data;
          r ← lift (_check_consistency_with_ocr self today field_name
                      (leaf value) od);
          (if validate_format field_name (py_str (leaf value)) then
             increment validation_result "accuracy" "valid_format_fields"
           else
             entry ← new (HDict [("field", HStr key); ("value", value);
                                 ("reason", HStr "Invalid format")]);
             invalid ← sub_object validation_result "accuracy" "invalid_fields";
             append invalid (HRef entry));;
          accuracy_loop validation_result ocr_data today rest r.1
        else accuracy_loop validation_result ocr_data today rest self
  end.

(** [a / b if b > 0 else 0] on the numbers stored in the result. *)
Definition score_num (a b : Qc) : hval :=
  if bool_decide (Q2Qc 0 < b)%Qc then HNum (a / b)%Qc else num 0.

Definition validate_extracted_data (depth : nat) (self : validator)
    (today : datetime) (structured_data ocr_data : loc)
    : prog (validator * loc) :=
  missing_required ← new (HList []);
  completeness ← new (HDict [("filled_fields", num 0); ("total_fields", num 0);
                             ("score", num 0);
                             ("missing_required", HRef missing_required)]);
  invalid_fields ← new (HList []);
  accuracy ← new (HDict [("valid_format_fields", num 0); ("total_fields", num 0);
                         ("score", num 0);
                         ("invalid_fields", HRef invalid_fields)]);
  average ← get_default ocr_data "average_confidence" (num 0);
  confidence ← new (HDict [("score", average);
                           ("explanation", HStr "Average OCR confidence score")]);
  validation_result ← new (HDict [("completeness", HRef completeness);
                                  ("accuracy", HRef accuracy);
                                  ("confidence", HRef confidence)]);
  flat_data ← _flatten_dict depth structured_data "";
  entries ← dict_items flat_data;
  let total_fields := length entries in
  let filled_fields :=
    length (filter (λ kv, nonblank (leaf kv.2) = true) entries) in
  for_each required_fields (λ field,
    for_each entries (required_step validation_result field));;
  self' ← accuracy_loop validation_result ocr_data today entries self;
  set_field validation_result "completeness" "filled_fields" (num filled_fields);;
  set_field validation_result "completeness" "total_fields" (num total_fields);;
  set_field validation_result "completeness" "score"
    (score_num (Q2Qc (Z.of_nat filled_fields # 1))
       (Q2Qc (Z.of_nat total_fields # 1)));;
  acc ← getitem validation_result "accuracy" ≫= deref;
  valid_format ← getitem acc "valid_format_fields" ≫= as_num;
  total ← getitem acc "total_fields" ≫= as_num;
  set_field validation_result "accuracy" "score" (score_num valid_format total);;
  mret (self', validation_result).

(** ** Building a store from values *)

Fixpoint alloc_pyval (v : pyval) : prog hval :=
  match v with
  | PNone => mret HNone
  | PStr s => mret (HStr s)
  | PDict items =>
      entries ←
        (fix alloc_entries (l : list (string * pyval))
           : prog (list (string * hval)) :=
           match l with
           | [] => mret []
           | (k, x) :: l' =>
               hx ← alloc_pyval x;
               rest ← alloc_entries l';
               mret ((k, hx) :: rest)
           end) items;
      l ← new (HDict entries);
      mret (HRef l)
  end.

Fixpoint alloc_spans (spans : list span) : prog (list hval) :=
  match spans with
  | [] => mret []
  | sp :: spans' =>
      d ← match sp_text sp with
          | Some text => t ← alloc_pyval text; new (HDict [("text", t)])
          | None => new (HDict [])
          end;
      rest ← alloc_spans spans';
      mret (HRef d :: rest)
  end.

Definition alloc_ocr (od : ocr_data) : prog loc :=
  spans ← alloc_spans (text_spans od);
  text ← new (HList spans);
  new (HDict
         (("text", HRef text)
          :: match od_average_confidence od with
             | Some q => [("average_confidence", HNum q)]
             | None => []
             end)).

(** The number stored at [validation_result[section][key]]. *)
Definition number_at (h : heap) (validation_result : loc)
    (section key : string) : option Q :=
  match (s ← getitem validation_result section ≫= deref;
         getitem s key ≫= as_num) h with
  | (_, Ok q) => Some (this q)
  | _ => None
  end.

(** ** The vocabulary of the frame property *)

(** From a store that extends [h0] and satisfies [P], the computation ends
    in a store that extends [h0], whether it returns or raises; when it
    returns [a], [Q a] holds of the final store. *)
Definition hoare (h0 : heap) {A} (P : heap → Prop) (m : prog A)
    (Q : A → heap → Prop) : Prop :=
  ∀ h, h0 ⊆ h → P h →
    h0 ⊆ (m h).1 ∧ ∀ a, (m h).2 = Ok a → Q a (m h).1.

(** A computation that does not write. *)
Definition readonly {A} (m : prog A) : Prop := ∀ h, (m h).1 = h.

(** A computation that only extends the store it starts from; when it
    returns a reference, the object is a new one. *)
Definition extends (m : prog loc) : Prop :=
  ∀ h, h ⊆ (m h).1 ∧ ∀ l, (m h).2 = Ok l → h !! l = None.

(** The dict at [d] has the reference [t] under the key [k]. *)
Definition points (h : heap) (d : loc) (k : string) (t : loc) : Prop :=
  ∃ items, h !! d = Some (HDict items) ∧ dict_get k items = Some (HRef t).

(** The result dict [vr] has its sections at [c] (completeness) and [a]
    (accuracy), which have their lists at [mr] (missing_required) and [inv]
    (invalid_fields). *)
Definition result_inv (vr c a mr inv : loc) (h : heap) : Prop :=
  points h vr "completeness" c ∧ points h vr "accuracy" a
  ∧ points h c "missing_required" mr ∧ points h a "invalid_fields" inv.

(** A key that holds no reference of the result. *)
Definition untracked (key : string) : Prop :=
  key ∉ ["completeness"; "accuracy"; "missing_required"; "invalid_fields"].

(** The section of the result a key names. *)
Definition section_loc (c a : loc) (section : string) (s : loc) : Prop :=
  (section = "completeness" ∧ s = c) ∨ (section = "accuracy" ∧ s = a).

End Objects.

(** * The vocabulary of the properties

    The words of the specification, kept apart from the code above, and the
    sample inputs. *)

(** ** Format validation *)

(** The whole value matches the pattern, as the spec words it
    ([re.fullmatch]): the pattern has to use up the subject. *)
Fixpoint full_match_here (r : regex) (bol : bool) (l : list ascii) : bool :=
  match r with
  | [] => bool_decide (l = [])
  | ReBol :: r' => bol && full_match_here r' bol l
  | ReEol :: r' => at_eol l && full_match_here r' bol l
  | ReDigits lo hi :: r' =>
      existsb
        (λ k, bool_decide (k ≤ length l)
              && forallb is_ascii_digit (take k l)
              && full_match_here r' (bol && bool_decide (k = 0)) (drop k l))
        (seq lo (S hi - lo))
  end.

Definition full_string_match (r : regex) (value : string) : bool :=
  full_match_here r true (chars value).

(** The string of one line feed. *)
Definition newline : string := String (chr 10) "".

(** [lo] to [hi] decimal digits and nothing else. *)
Definition digits_between (lo hi : nat) (d : string) : Prop :=
  forallb is_ascii_digit (chars d) = true ∧ lo ≤ length (chars d) ≤ hi.

(** The digit bounds of the pattern of a registered field. *)
Definition digit_bounds (field : string) : option (nat * nat) :=
  if decide (field = "idNumber") then Some (9, 9)
  else if decide (field = "mobilePhone") then Some (10, 10)
  else if decide (field = "landlinePhone") then Some (9, 9)
  else if decide (field = "postalCode") then Some (5, 7)
  else None.

(** ** Field-type inference *)

(** [sub] occurs inside [s]. *)
Definition substring (sub s : string) : Prop :=
  ∃ pre post, chars s = pre ++ chars sub ++ post.

(** The priority table of [_infer_field_type], as the spec words it: ordered
    keyword sets, the first set with a keyword inside the name decides. *)
Definition keyword_table : list (list string * string) :=
  [ (["id"; "number"; "num"; "code"], "numeric");
    (["phone"; "tel"; "mobile"; "landline"], "phone");
    (["date"; "day"; "month"; "year"], "date");
    (["name"; "first"; "last"; "family"], "text");
    (["address"; "street"; "city"], "address") ].

Fixpoint first_match (table : list (list string * string)) (name : string)
    : string :=
  match table with
  | [] => "unknown"
  | (keywords, type) :: table' =>
      if any_in keywords name then type else first_match table' name
  end.

(** The priority rule in words: the first keyword set with a keyword inside
    the name decides, ["unknown"] when no set has one. *)
Inductive decides : list (list string * string) → string → string → Prop :=
  | decides_unknown name : decides [] name "unknown"
  | decides_here keywords type table name keyword :
      keyword ∈ keywords → substring keyword name →
      decides ((keywords, type) :: table) name type
  | decides_later keywords type table name type' :
      (∀ keyword, keyword ∈ keywords → ¬ substring keyword name) →
      decides table name type' →
      decides ((keywords, type) :: table) name type'.

(** ** Date validation *)

(** The words of the date policy: a component is missing or empty; the
    integer-parsed components construct a calendar date. *)
Definition valid_ymd (y m d : Z) : Prop :=
  (1 ≤ y ≤ 9999 ∧ 1 ≤ m ≤ 12 ∧ 1 ≤ d ≤ days_in_month y m)%Z.

Definition component_missing (sd : gmap string string) (k : string) : Prop :=
  sd !! k = None ∨ sd !! k = Some "".

Definition incomplete (sd : gmap string string) : Prop :=
  component_missing sd "day" ∨ component_missing sd "month"
  ∨ component_missing sd "year".

Definition constructs_date (sd : gmap string string) : Prop :=
  ∃ ys ms ds y m d,
    sd !! "year" = Some ys ∧ sd !! "month" = Some ms ∧ sd !! "day" = Some ds
    ∧ int_literal ys = Some y ∧ int_literal ms = Some m
    ∧ int_literal ds = Some d ∧ valid_ymd y m d.

(** ** Bounding boxes *)

(** [m] is the least (the greatest) number of [l]. *)
Definition is_min (m : Qc) (l : list Qc) : Prop :=
  m ∈ l ∧ ∀ x, x ∈ l → (m ≤ x)%Qc.

Definition is_max (m : Qc) (l : list Qc) : Prop :=
  m ∈ l ∧ ∀ x, x ∈ l → (x ≤ m)%Qc.

(** The axis-aligned box that spans the points [pts]. *)
Definition spanning_box (b : gmap string Qc) (pts : list (Qc * Qc)) : Prop :=
  ∃ min_x min_y max_x max_y,
    is_min min_x pts.*1 ∧ is_max max_x pts.*1
    ∧ is_min min_y pts.*2 ∧ is_max max_y pts.*2
    ∧ b = {[ "x" := min_x; "y" := min_y;
             "width" := (max_x - min_x)%Qc; "height" := (max_y - min_y)%Qc ]}.

(** The three well-formed encodings of the points of a polygon. *)
Definition as_objects (pts : list (Qc * Qc)) : list pelem :=
  (λ p, PtObject p.1 p.2) <$> pts.

Definition as_flat_list (pts : list (Qc * Qc)) : list pelem :=
  pts ≫= λ p, [PtNumber p.1; PtNumber p.2].

Definition as_pairs (pts : list (Qc * Qc)) : list pelem :=
  (λ p, PtSeq [p.1; p.2]) <$> pts.

(** ** Flattened fields *)

(** The leaf fields of a nested dict, with their dotted paths, in order. *)
Fixpoint leaves (v : pyval) (parent_key : string) : list (string * pyval) :=
  match v with
  | PDict d =>
      (fix entries (d : list (string * pyval)) : list (string * pyval) :=
         match d with
         | [] => []
         | (k, x) :: d' =>
             match x with
             | PDict _ => leaves x (join_key parent_key k)
             | _ => [(join_key parent_key k, x)]
             end ++ entries d'
         end) d
  | _ => []
  end.

(** What one entry of a dict does to [items] in [_flatten_dict]. *)
Definition flatten_entry (parent_key : string) (items : list (string * pyval))
    (kv : string * pyval) : list (string * pyval) :=
  match kv.2 with
  | PDict _ => dict_update items (flatten_value kv.2 (join_key parent_key kv.1))
  | _ => dict_set (join_key parent_key kv.1) kv.2 items
  end.

(** The leaves that one entry of a dict contributes. *)
Definition leaves_entry (parent_key : string) (kv : string * pyval)
    : list (string * pyval) :=
  match kv.2 with
  | PDict _ => leaves kv.2 (join_key parent_key kv.1)
  | _ => [(join_key parent_key kv.1, kv.2)]
  end.

(** Induction on values, with the hypothesis for every entry of a dict. *)
Fixpoint pyval_nested_ind (P : pyval → Prop) (HN : P PNone)
    (HS : ∀ s, P (PStr s))
    (HD : ∀ items, Forall (λ kv, P kv.2) items → P (PDict items))
    (v : pyval) : P v :=
  match v with
  | PNone => HN
  | PStr s => HS s
  | PDict items =>
      HD items
        ((fix all (l : list (string * pyval)) : Forall (λ kv, P kv.2) l :=
            match l with
            | [] => @List.Forall_nil _ (λ kv, P kv.2)
            | (k, x) :: l' =>
                @List.Forall_cons _ (λ kv, P kv.2) (k, x) l'
                  (pyval_nested_ind P HN HS HD x) (all l')
            end) items)
  end.

(** A flattened field is checked for format when its key does not contain
    "confidence" and its value is not blank. *)
Definition format_checked (kv : string * pyval) : bool :=
  negb (py_in "confidences" kv.1 || py_in "confidence" kv.1) && nonblank kv.2.

(** ** The OCR-consistency check *)

(** Every OCR span has a string as its text (or no text at all). *)
Definition spans_have_text (od : ocr_data) : Prop :=
  Forall (λ sp, ∃ s, span_text sp = PStr s) (text_spans od).

(** The span texts as strings, in order. *)
Definition text_of (v : pyval) : string :=
  match v with
  | PStr s => s
  | _ => ""
  end.

Definition span_strings (od : ocr_data) : list string :=
  (λ sp, text_of (span_text sp)) <$> text_spans od.

(** The search corpus of the consistency check: the lower-cased span texts,
    joined by single spaces. *)
Definition corpus_of (od : ocr_data) : string :=
  py_join " " (py_lower <$> span_strings od).

(** The records of the token comparison, which are no flags. *)
Definition is_token_msg (m : log_msg) : Prop :=
  match m with
  | TokenSimilar _ _ _ | TokenNoSimilar _ => True
  | _ => False
  end.

(** A token is significant when it is longer than 3 characters. *)
Definition significant (token : string) : Prop := 3 < py_len token.

Global Instance significant_dec token : Decision (significant token).
Proof. unfold significant. apply _. Defined.

(** [str(value).lower().strip()] and its significant tokens. *)
Definition value_str_of (value : pyval) : string :=
  py_strip (py_lower (py_str value)).

Definition significant_tokens (value : pyval) : list string :=
  filter significant (py_split (value_str_of value)).

(** A value that is not a dict. *)
Definition is_scalar (value : pyval) : Prop :=
  match value with
  | PDict _ => False
  | _ => True
  end.

(** The two advisory flags: a scalar value is a suspected invention; a
    composite field may contain invented values. *)
Definition suspected_invention (field : string) (value : pyval)
    (logs : list log_msg) : Prop :=
  PossibleInvention (value_str_of value) field ∈ logs.

Definition suspect_composite (field : string) (logs : list log_msg) : Prop :=
  SuspectData field ∈ logs.

(** The records that flag a value. *)
Definition is_flag (m : log_msg) : Prop :=
  match m with
  | PossibleInvention _ _ | SuspectData _ => True
  | _ => False
  end.

(** The populated components of a dict value, and those found verbatim in
    the corpus. *)
Definition populated (items : list (string * pyval)) : list (string * pyval) :=
  filter (λ kv, nonblank kv.2 = true) items.

Definition found_in (corpus : string) (items : list (string * pyval))
    : list (string * pyval) :=
  filter (λ kv, py_in (value_str_of kv.2) corpus = true) (populated items).

(** ** OCR-only validation *)

(** The spatial score of a span among the text spans. *)
Definition spatial_of (spans : list span) (sp : span) : Qc :=
  match _validate_spatial_coherence (span_bounding_box sp) (ElSpan <$> spans) with
  | Ok q => q
  | Raise _ => Q2Qc 0
  end.

(** The global confidence as the spec words it: the equal-weight average of
    the mean confidence and of the mean spatial score over all text spans. *)
Definition mean_confidence (spans : list span) : Qc :=
  mean_or_zero (span_confidence <$> spans).

Definition mean_spatial_score (spans : list span) : Qc :=
  mean_or_zero (spatial_of spans <$> spans).

Definition claimed_global_confidence (spans : list span) : Qc :=
  ((mean_confidence spans + mean_spatial_score spans) / Q2Qc 2)%Qc.

(** ** Sample inputs *)

(** A validator without injury date, run on 15 January 2024, and an OCR
    result of three spans, the last one without text. *)
Definition sample_validator : validator := Validator None.

Definition sample_today : datetime := Datetime 2024 1 15.

Definition sample_ocr : ocr_data :=
  OcrData
    (Some [Span (Some (PStr "John Smith")) (Some (Q2Qc (9 # 10))) None;
           Span (Some (PStr "Cohen David 123456789")) (Some (Q2Qc (7 # 10))) None;
           Span None None None])
    None (Some (Q2Qc (8 # 10))).

(** An OCR result with a span whose text is [None]. *)
Definition untyped_ocr : ocr_data :=
  OcrData (Some [Span (Some PNone) None None]) None None.

(** A form of ten leaf fields, seven of them filled. *)
Definition sample_form : list (string * pyval) :=
  [ ("lastName", PStr "Cohen"); ("firstName", PStr "David");
    ("idNumber", PStr "123456789");
    ("dateOfBirth",
     PDict [("day", PStr "5"); ("month", PStr "3"); ("year", PStr "1990")]);
    ("address", PDict [("street", PStr ""); ("city", PStr "Haifa");
                      ("postalCode", PStr " ")]);
    ("mobilePhone", PNone) ].

(** Twenty-one spans without bounding box: twenty of confidence 1 and a last
    one of confidence 0. *)
Definition twenty_one_spans : list span :=
  replicate 20 (Span (Some (PStr "ok")) (Some (Q2Qc 1)) None)
  ++ [Span (Some (PStr "blur")) (Some (Q2Qc 0)) None].

(** The sample form and the sample OCR result as objects of a store. *)
Definition sample_store : gmap Objects.loc Objects.hobj
                          * result (Objects.loc * Objects.loc) :=
  (sd ← Objects.alloc_pyval (PDict sample_form) ≫= Objects.deref;
   od ← Objects.alloc_ocr sample_ocr;
   mret (sd, od)) ∅.

(** ** Boxes, scores and zones *)

(** The intersection over union of two complete boxes. *)
Definition iou (x1 y1 w1 h1 x2 y2 w2 h2 : Qc) : Qc :=
  let x_left := qmax x1 x2 in
  let y_top := qmax y1 y2 in
  let x_right := qmin (x1 + w1) (x2 + w2) in
  let y_bottom := qmin (y1 + h1) (y2 + h2) in
  if bool_decide (x_right < x_left)%Qc || bool_decide (y_bottom < y_top)%Qc
  then Q2Qc 0
  else
    let intersection_area := ((x_right - x_left) * (y_bottom - y_top))%Qc in
    let union_area := (w1 * h1 + w2 * h2 - intersection_area)%Qc in
    if bool_decide (Q2Qc 0 < union_area)%Qc
    then (intersection_area / union_area)%Qc else Q2Qc 0.

(** The dict [{x, y, width, height}]. *)
Definition box (x y w h : Qc) : gmap string Qc :=
  {[ "x" := x; "y" := y; "width" := w; "height" := h ]}.

(** A box that has the four keys. *)
Definition complete_box (b : gmap string Qc) : Prop :=
  is_Some (b !! "x") ∧ is_Some (b !! "y") ∧ is_Some (b !! "width")
  ∧ is_Some (b !! "height").

(** Between 0 and 1. *)
Definition unit_interval (q : Qc) : Prop := (Q2Qc 0 ≤ q ≤ Q2Qc 1)%Qc.

(** An element that is a span, and not a table. *)
Definition is_span_element (el : element) : Prop :=
  match el with
  | ElSpan _ => True
  | ElTable _ => False
  end.

Global Instance is_span_element_dec el : Decision (is_span_element el).
Proof. destruct el; apply _. Defined.

(** The text of the span is a string (or absent). *)
Definition has_string_text (sp : span) : Prop := ∃ s, span_text sp = PStr s.

(** ** The fields of a run *)

(** [suffix] ends [s]. *)
Definition ends_with (s suffix : string) : Prop :=
  ∃ pre, chars s = pre ++ chars suffix.

Global Instance has_string_text_dec sp : Decision (∃ s, span_text sp = PStr s).
Proof.
  destruct (span_text sp) as [|s|items];
    [right; by intros [? ?] | left; by eexists | right; by intros [? ?]].
Defined.

Global Instance spans_have_text_dec od : Decision (spans_have_text od).
Proof. unfold spans_have_text. apply _. Defined.

(** The fields whose value string is too short for the OCR check. *)
Definition short_value (kv : string * pyval) : Prop :=
  py_len (value_str_of kv.2) ≤ 3.

(** A checked field whose format is valid, and one whose format is not. *)
Definition format_valid (kv : string * pyval) : bool :=
  format_checked kv && validate_format (last_segment kv.1) (py_str kv.2).

Definition format_invalid (kv : string * pyval) : bool :=
  format_checked kv
  && negb (validate_format (last_segment kv.1) (py_str kv.2)).

(** The entry of [invalid_fields] for a field. *)
Definition invalid_entry (kv : string * pyval) : invalid_field :=
  InvalidField kv.1 kv.2 "Invalid format".

(** [sum(c.isdigit() for c in value)]. *)
Definition digit_count (value : string) : nat :=
  length (filter (λ c, isdigit_char c = true) (chars value)).

(** A form whose last name is blank. *)
Definition nameless_form : list (string * pyval) :=
  [("lastName", PStr " "); ("firstName", PStr "Dana");
   ("idNumber", PStr "12345")].

(** ** Dates *)

(** The date dict has the three components as strings of digits that
    construct the calendar date [date]. *)
Definition reads_as (date_dict : list (string * pyval)) (date : datetime)
    : Prop :=
  ∃ ds ms ys day month year,
    dict_get "day" date_dict = Some (PStr ds)
    ∧ dict_get "month" date_dict = Some (PStr ms)
    ∧ dict_get "year" date_dict = Some (PStr ys)
    ∧ py_isdigit ds = true ∧ py_isdigit ms = true ∧ py_isdigit ys = true
    ∧ int_literal ds = Some day ∧ int_literal ms = Some month
    ∧ int_literal ys = Some year
    ∧ datetime_new year month day = Ok date.

(** The validator after a valid date was checked for [field_name]. *)
Definition remember_injury (self : validator) (field_name : string)
    (date : datetime) : validator :=
  if py_in "injury" (py_lower field_name) then Validator (Some date) else self.

(** The record of a filling date before the injury date. *)
Definition is_order_msg (m : log_msg) : Prop :=
  match m with
  | FillingBeforeInjury _ _ => True
  | _ => False
  end.



(** An injury of 10 January 2024 and a form filled on 5 January 2024. *)
Definition injury_dict : list (string * pyval) :=
  [("day", PStr "10"); ("month", PStr "1"); ("year", PStr "2024")].

Definition filling_dict : list (string * pyval) :=
  [("day", PStr "5"); ("month", PStr "1"); ("year", PStr "2024")].

(** ** Forms in the editor *)

(** A key the editor can handle: not empty and without a dot. *)
Definition plain_key (k : string) : Prop := k ≠ "" ∧ "."%char ∉ chars k.

(** The nested dicts of a value are not empty, and the keys of each have no
    duplicates and are plain. *)
Fixpoint nested_ok (v : pyval) : Prop :=
  match v with
  | PDict d =>
      d ≠ [] ∧ NoDup d.*1
      ∧ (fix all (l : list (string * pyval)) : Prop :=
           match l with
           | [] => True
           | (k, x) :: l' => plain_key k ∧ nested_ok x ∧ all l'
           end) d
  | _ => True
  end.

(** A form the editor can flatten and rebuild. *)
Definition editable (d : list (string * pyval)) : Prop :=
  NoDup d.*1 ∧ Forall (λ kv, plain_key kv.1 ∧ nested_ok kv.2) d.

(** The leaves of a value with their paths, as lists of keys. *)
Fixpoint paths (v : pyval) : list (list string * pyval) :=
  match v with
  | PDict d =>
      (fix entries (d : list (string * pyval)) : list (list string * pyval) :=
         match d with
         | [] => []
         | (k, x) :: d' =>
             match x with
             | PDict _ => (λ pv, (k :: pv.1, pv.2)) <$> paths x
             | _ => [([k], x)]
             end ++ entries d'
         end) d
  | _ => []
  end.

(** The leaves that one entry of a dict contributes, with their paths. *)
Definition path_entry (kv : string * pyval) : list (list string * pyval) :=
  match kv.2 with
  | PDict _ => (λ pv, (kv.1 :: pv.1, pv.2)) <$> paths kv.2
  | _ => [([kv.1], kv.2)]
  end.

(** [dotted [k1; ...; kn]] is [k1.k2. ... .kn]. *)
Definition dotted (path : list string) : string := foldl join_key "" path.

(** The loop of [rebuild_dict] on keys that are split already. *)
Fixpoint insert_all (items : list (list string * pyval))
    (root : list (string * pyval)) : result (list (string * pyval)) :=
  match items with
  | [] => Ok root
  | (path, value) :: rest =>
      r ← App.insert_path path value root; insert_all rest r
  end.

(** ** The expected schema *)

(** What [copy_expected_fields] stores under one key of the schema. *)
Definition copied (source : list (string * pyval)) (kv : string * pyval)
    : pyval :=
  match kv.2 with
  | PDict sub_schema =>
      match dict_get kv.1 source with
      | Some (PDict sub_source) =>
          PDict (Extractor.copy_fields kv.2 sub_source)
      | _ => PDict (Extractor.empty_structure sub_schema)
      end
  | _ => default (PStr "") (dict_get kv.1 source)
  end.

(** A schema whose keys are distinct and are no confidence keys. *)
Definition plain_schema (schema : list (string * pyval)) : Prop :=
  NoDup schema.*1 ∧ Forall (λ kv, Extractor.confidence_key kv.1 = false) schema.

(** The nested schemas are plain and hold only strings. *)
Definition two_level (schema : list (string * pyval)) : Prop :=
  plain_schema schema
  ∧ Forall (λ kv, ∀ sub, kv.2 = PDict sub →
                  plain_schema sub ∧ Forall (λ kv', is_scalar kv'.2) sub)
      schema.

(** Where the schema expects a string, the source has no dict. *)
Definition scalars_where_expected (schema source : list (string * pyval))
    : Prop :=
  Forall (λ kv,
            match kv.2 with
            | PDict sub =>
                ∀ sub_source, dict_get kv.1 source = Some (PDict sub_source) →
                  Forall (λ kv', ∀ v, dict_get kv'.1 sub_source = Some v →
                                      is_scalar v) sub
            | _ => ∀ v, dict_get kv.1 source = Some v → is_scalar v
            end) schema.

(** ** An OCR result of any shape *)

(** The depth of the nested dicts of a value. *)
Fixpoint nesting (v : pyval) : nat :=
  match v with
  | PDict items =>
      S ((fix deepest (l : list (string * pyval)) : nat :=
            match l with
            | [] => 0
            | (_, x) :: l' => nesting x `max` deepest l'
            end) items)
  | _ => 0
  end.

(** The recursion limit lets the run encode and flatten the data. *)
Definition within (lim : limits) (structured_data : list (string * pyval))
    : Prop :=
  nesting (PDict structured_data) ≤ json_depth lim
  ∧ nesting (PDict structured_data) ≤ call_depth lim.

(** A span: a dict whose text is a string, or that has no text. *)
Definition span_with_text (span : jval) : Prop :=
  ∃ d, span = JDict d ∧ ∃ s, default (JStr "") (dict_get "text" d) = JStr s.

(** The text entry of an OCR result that the consistency check can read: a
    list of such spans, or an object without elements. *)
Definition readable_spans (text : jval) : Prop :=
  (∃ spans, text = JList spans ∧ Forall span_with_text spans)
  ∨ text = JStr "" ∨ text = JDict [].

Definition readable_ocr (ocr_data : jval) : Prop :=
  ∃ items, ocr_data = JDict items
           ∧ readable_spans (default (JList []) (dict_get "text" items)).

(** The average confidence of the OCR result can be multiplied: it is
    absent, or neither [None] nor a dict. *)
Definition has_percentage (ocr_data : jval) : Prop :=
  ∃ items, ocr_data = JDict items
           ∧ match default (JInt 0) (dict_get "average_confidence" items) with
             | JNone | JDict _ => False
             | _ => True
             end.

(** The span texts and the corpus of a readable OCR result. *)
Definition span_string (span : jval) : string :=
  match span with
  | JDict d =>
      match dict_get "text" d with
      | Some (JStr s) => s
      | _ => ""
      end
  | _ => ""
  end.

Definition spans_of (ocr_data : jval) : list jval :=
  match ocr_data with
  | JDict items =>
      match dict_get "text" items with
      | Some (JList spans) => spans
      | _ => []
      end
  | _ => []
  end.

Definition raw_corpus (ocr_data : jval) : string :=
  py_join " " (py_lower <$> (span_string <$> spans_of ocr_data)).

(** The OCR result of the typed shape, as an object. *)
Fixpoint jval_of (v : pyval) : jval :=
  match v with
  | PNone => JNone
  | PStr s => JStr s
  | PDict items =>
      JDict ((fix entries (l : list (string * pyval)) : list (string * jval) :=
                match l with
                | [] => []
                | (k, x) :: l' => (k, jval_of x) :: entries l'
                end) items)
  end.

Definition box_dict (b : gmap string Qc) : jval :=
  JDict (prod_map id JFloat <$> map_to_list b).

Definition optional {A} (k : string) (f : A → jval) (o : option A)
    : list (string * jval) :=
  match o with
  | Some a => [(k, f a)]
  | None => []
  end.

Definition span_dict (sp : span) : jval :=
  JDict (optional "text" jval_of (sp_text sp)
         ++ optional "confidence" JFloat (sp_confidence sp)
         ++ optional "bounding_box" box_dict (sp_bounding_box sp)).

Definition cell_dict (c : cell) : jval :=
  JDict [("text", JStr (cell_text c));
         ("row_index", JInt (Z.of_nat (row_index c)));
         ("column_index", JInt (Z.of_nat (column_index c)));
         ("confidence", from_option JFloat JNone (cell_confidence c))].

Definition ocr_dict (od : ocr_data) : jval :=
  JDict (optional "text" (λ spans, JList (span_dict <$> spans)) (od_text od)
         ++ optional "tables"
              (λ tables, JList ((λ t, JList (cell_dict <$> t)) <$> tables))
              (od_tables od)
         ++ optional "average_confidence" JFloat (od_average_confidence od)).

(** The typed view of the spans of an object. *)
Definition typed_spans (raw : jval) : ocr_data :=
  OcrData (Some ((λ sp, Span (Some (PStr (span_string sp))) None None)
                 <$> spans_of raw)) None None.

(** The recursion limit leaves room for 50 nested dicts. *)
Definition sample_limits : limits := Limits 50 50 50.

(** An OCR result whose text is [None], and one whose average confidence
    is [None]. *)
Definition none_text_ocr : jval := JDict [("text", JNone)].

Definition none_confidence_ocr : jval :=
  JDict [("text", JList [JDict [("text", JStr "Cohen David")]]);
         ("average_confidence", JNone)].

(** * Properties *)

(** ** Strings *)

Lemma chars_str_of l : chars (str_of l) = l.
Proof. apply list_ascii_of_string_of_list_ascii. Qed.

Lemma str_of_chars s : str_of (chars s) = s.
Proof. apply string_of_list_ascii_of_string. Qed.

Lemma chars_inj s t : chars s = chars t → s = t.
Proof. intros H. rewrite <- (str_of_chars s), <- (str_of_chars t). by f_equal. Qed.

Lemma chars_app s t : chars (s +:+ t) = chars s ++ chars t.
Proof. induction s as [|c s IH]; simpl; [done | by rewrite <- IH]. Qed.

Lemma chars_nil s : chars s = [] ↔ s = "".
Proof. destruct s; simpl; split; congruence. Qed.

Lemma py_len_chars s : py_len s = length (chars s).
Proof. induction s as [|c s IH]; simpl; [done | by f_equal]. Qed.

Lemma prefix_chars (p s : string) :
  String.prefix p s = true ↔ ∃ rest, chars s = chars p ++ rest.
Proof.
  revert s. induction p as [|c p IH]; intros s.
  - split; [intros _; by exists (chars s) | by destruct s].
  - destruct s as [|d s]; simpl.
    + split; [done | intros [rest ?]; discriminate].
    + destruct (Ascii.ascii_dec c d) as [->|Hne].
      * rewrite IH. split; intros [rest H]; exists rest; simpl in *; congruence.
      * split; [done | intros [rest H]; simpl in H; congruence].
Qed.

Lemma py_in_unfold (sub s : string) :
  py_in sub s =
  String.prefix sub s ||
  match s with
  | EmptyString => false
  | String _ s' => py_in sub s'
  end.
Proof. by destruct s. Qed.

(** [sub in s] is the substring test. *)
Lemma py_in_spec (sub s : string) :
  py_in sub s = true ↔ ∃ pre post, chars s = pre ++ chars sub ++ post.
Proof.
  induction s as [|c s IH]; rewrite py_in_unfold.
  - rewrite orb_false_r, prefix_chars. split.
    + intros [rest H]. by exists [], rest.
    + intros (pre & post & H). simpl in H.
      symmetry in H. apply app_eq_nil in H as [_ H'].
      apply app_eq_nil in H' as [Hsub _]. exists []. by rewrite Hsub.
  - rewrite orb_true_iff, IH, prefix_chars. split.
    + intros [[rest H] | (pre & post & H)].
      * by exists [], rest.
      * exists (c :: pre), post. simpl. by rewrite H.
    + intros (pre & post & H). destruct pre as [|d pre]; simpl in H.
      * left. by exists post.
      * right. exists pre, post. congruence.
Qed.

Lemma lower_char_idemp c : lower_char (lower_char c) = lower_char c.
Proof. destruct c as [[] [] [] [] [] [] [] []]; reflexivity. Qed.

Lemma py_lower_idemp s : py_lower (py_lower s) = py_lower s.
Proof.
  unfold py_lower. rewrite chars_str_of, <- list_fmap_compose. f_equal.
  apply list_fmap_ext. intros _ c _. apply lower_char_idemp.
Qed.

Lemma split_chars_length cur l tok :
  tok ∈ split_chars cur l → length tok ≤ length cur + length l.
Proof.
  revert cur. induction l as [|c l IH]; intros cur; simpl.
  - destruct cur as [|d cur]; [by intros ?%elem_of_nil |].
    intros ->%list_elem_of_singleton. rewrite length_reverse. simpl. lia.
  - destruct (py_isspace c).
    + destruct cur as [|d cur].
      * intros H%IH. simpl in *. lia.
      * intros [-> | H%IH]%elem_of_cons.
        -- rewrite length_reverse. simpl. lia.
        -- simpl in *. lia.
    + intros H%IH. simpl in *. lia.
Qed.

Lemma py_len_str_of l : py_len (str_of l) = length l.
Proof. by rewrite py_len_chars, chars_str_of. Qed.

Lemma py_split_length s t : t ∈ py_split s → py_len t ≤ py_len s.
Proof.
  unfold py_split. intros (tok & -> & H%split_chars_length)%list_elem_of_fmap.
  rewrite py_len_str_of, py_len_chars. simpl in H. lia.
Qed.

Lemma chars_py_lower s : chars (py_lower s) = lower_char <$> chars s.
Proof. unfold py_lower. apply chars_str_of. Qed.

Lemma py_len_lower s : py_len (py_lower s) = py_len s.
Proof. by rewrite !py_len_chars, chars_py_lower, length_fmap. Qed.

(** ** Tokens of a value and of its lower-cased, stripped string *)

Lemma py_isspace_lower c : py_isspace (lower_char c) = py_isspace c.
Proof. destruct c as [[] [] [] [] [] [] [] []]; reflexivity. Qed.

Lemma split_chars_lower (cur l : list ascii) :
  split_chars (lower_char <$> cur) (lower_char <$> l)
  = (λ token : list ascii, lower_char <$> token) <$> split_chars cur l.
Proof.
  revert cur. induction l as [|c l IH]; intros cur.
  - destruct cur as [|d cur]; [done |].
    rewrite fmap_cons. cbn [split_chars fmap list_fmap].
    by rewrite <- fmap_cons, fmap_reverse.
  - pose proof (IH []) as IH0. pose proof (IH (c :: cur)) as IH1.
    rewrite fmap_cons in IH1. rewrite fmap_nil in IH0.
    rewrite fmap_cons. cbn [split_chars]. rewrite py_isspace_lower.
    destruct (py_isspace c); [| done].
    destruct cur as [|d cur]; [done |].
    rewrite !fmap_cons, IH0. f_equal.
    by rewrite <- fmap_cons, fmap_reverse.
Qed.

Lemma split_chars_lstrip l : split_chars [] (lstrip_chars l) = split_chars [] l.
Proof.
  induction l as [|c l IH]; [done |]. cbn [lstrip_chars split_chars].
  destruct (py_isspace c) eqn:E; [done |]. cbn [split_chars]. by rewrite E.
Qed.

Lemma split_chars_spaces cur ws :
  forallb py_isspace ws = true → split_chars cur ws = split_chars cur [].
Proof.
  revert cur. induction ws as [|c ws IH]; intros cur; [done |].
  cbn [forallb split_chars]. intros [-> Hws]%andb_true_iff.
  destruct cur; by rewrite (IH []).
Qed.

Lemma split_chars_app_spaces cur l ws :
  forallb py_isspace ws = true → split_chars cur (l ++ ws) = split_chars cur l.
Proof.
  intros Hws. revert cur. induction l as [|c l IH]; intros cur.
  - by apply split_chars_spaces.
  - cbn [app split_chars]. destruct (py_isspace c), cur; by rewrite ?IH.
Qed.

Lemma lstrip_chars_decompose l :
  ∃ ws, forallb py_isspace ws = true ∧ l = ws ++ lstrip_chars l.
Proof.
  induction l as [|c l (ws & Hws & IH)]; [by exists [] |].
  cbn [lstrip_chars]. destruct (py_isspace c) eqn:E.
  - exists (c :: ws). cbn. rewrite E, Hws. by rewrite IH at 1.
  - by exists [].
Qed.

Lemma forallb_reverse {A} (f : A → bool) l :
  forallb f (reverse l) = forallb f l.
Proof.
  induction l as [|a l IH]; [done |].
  rewrite reverse_cons, forallb_app, IH. cbn. by rewrite andb_true_r, andb_comm.
Qed.

Lemma split_chars_strip l :
  split_chars [] (reverse (lstrip_chars (reverse (lstrip_chars l))))
  = split_chars [] l.
Proof.
  rewrite <- (split_chars_lstrip l).
  destruct (lstrip_chars_decompose (reverse (lstrip_chars l))) as (ws & Hws & E).
  apply (f_equal reverse) in E. rewrite reverse_involutive, reverse_app in E.
  rewrite E at 2. rewrite split_chars_app_spaces; [done |].
  by rewrite forallb_reverse.
Qed.

Lemma py_lower_str_of l : py_lower (str_of l) = str_of (lower_char <$> l).
Proof. unfold py_lower. by rewrite chars_str_of. Qed.

(** The tokens of [s.lower().strip()] are the lower-cased tokens of [s]. *)
Lemma py_split_lower_strip s :
  py_split (py_strip (py_lower s)) = py_lower <$> py_split s.
Proof.
  unfold py_split, py_strip. rewrite chars_str_of, split_chars_strip.
  rewrite chars_py_lower, (split_chars_lower []), <- !list_fmap_compose.
  apply list_fmap_ext. intros _ l _. cbn. by rewrite py_lower_str_of.
Qed.

Lemma significant_tokens_lower value :
  significant_tokens value
  = py_lower <$> filter significant (py_split (py_str value)).
Proof.
  unfold significant_tokens, value_str_of. rewrite py_split_lower_strip.
  induction (py_split (py_str value)) as [|t l IH]; [done |].
  rewrite fmap_cons, !filter_cons.
  assert (significant (py_lower t) ↔ significant t) as Hsig
    by (unfold significant; by rewrite py_len_lower).
  destruct (decide (significant t)) as [Ht | Ht].
  - rewrite decide_True by (by apply Hsig). by rewrite fmap_cons, IH.
  - rewrite decide_False by (by rewrite Hsig). done.
Qed.

(** ** Flattening and leaves *)

Lemma flatten_value_foldl d parent_key :
  flatten_value (PDict d) parent_key = foldl (flatten_entry parent_key) [] d.
Proof.
  cbn [flatten_value]. generalize (@nil (string * pyval)).
  induction d as [|[k v] d IH]; intros items; [done |].
  cbn [foldl]. rewrite <- IH. by destruct v.
Qed.

Lemma leaves_bind d parent_key :
  leaves (PDict d) parent_key = d ≫= leaves_entry parent_key.
Proof.
  cbn [leaves]. induction d as [|[k v] d IH]; [done |].
  rewrite bind_cons, <- IH. by destruct v.
Qed.

Lemma dict_set_fresh {V} k (v : V) items :
  k ∉ items.*1 → dict_set k v items = items ++ [(k, v)].
Proof.
  induction items as [|[k' v'] items IH]; [done |].
  rewrite fmap_cons, not_elem_of_cons. intros [Hne Hin]. cbn.
  rewrite decide_False by done. by rewrite IH.
Qed.

Lemma dict_update_fresh {V} (items other : list (string * V)) :
  NoDup (items.*1 ++ other.*1) → dict_update items other = items ++ other.
Proof.
  unfold dict_update. revert items.
  induction other as [|[k v] other IH]; intros items Hnd.
  - by rewrite app_nil_r.
  - cbn [foldl fst snd]. rewrite fmap_cons in Hnd.
    apply NoDup_app in Hnd as (Hi & Hdisj & Ho).
    apply NoDup_cons in Ho as [Hk Ho].
    rewrite dict_set_fresh by (intros ?; eapply Hdisj; [done | left]).
    rewrite IH; [by rewrite <- app_assoc |].
    rewrite fmap_app. cbn. rewrite <- app_assoc. cbn.
    apply NoDup_app. split_and!; [done | | by apply NoDup_cons].
    intros x Hx. by apply Hdisj.
Qed.

(** When the leaf paths are distinct, [_flatten_dict] yields exactly the
    leaves, in order. *)
Lemma flatten_value_leaves v parent_key :
  NoDup (leaves v parent_key).*1 →
  flatten_value v parent_key = leaves v parent_key.
Proof.
  revert parent_key.
  induction v as [| s | d IH] using pyval_nested_ind; intros parent_key;
    [done | done |].
  rewrite flatten_value_foldl, leaves_bind.
  assert (∀ items,
            NoDup (items.*1 ++ (d ≫= leaves_entry parent_key).*1) →
            foldl (flatten_entry parent_key) items d
            = items ++ (d ≫= leaves_entry parent_key)) as H.
  { induction d as [|[k x] d IHd]; intros items Hnd.
    - by rewrite app_nil_r.
    - apply Forall_cons in IH as [IHx IH]. cbn [snd] in IHx.
      rewrite bind_cons, fmap_app in Hnd. rewrite bind_cons. cbn [foldl].
      assert (flatten_entry parent_key items (k, x)
              = items ++ leaves_entry parent_key (k, x)) as ->.
      { rewrite app_assoc in Hnd. apply NoDup_app in Hnd as (Hnd & _ & _).
        unfold flatten_entry, leaves_entry in *. cbn [fst snd] in *.
        destruct x as [| s | d'].
        - apply dict_set_fresh. apply NoDup_app in Hnd as (_ & Hdisj & _).
          intros Hin. eapply Hdisj; [done | left].
        - apply dict_set_fresh. apply NoDup_app in Hnd as (_ & Hdisj & _).
          intros Hin. eapply Hdisj; [done | left].
        - rewrite IHx by (by apply NoDup_app in Hnd as (_ & _ & ?)).
          by apply dict_update_fresh. }
      rewrite IHd; [by rewrite <- app_assoc | done |].
      by rewrite fmap_app, <- app_assoc. }
  intros Hnd. by rewrite H.
Qed.

Lemma flatten_dict_leaves d parent_key :
  NoDup (leaves (PDict d) parent_key).*1 →
  _flatten_dict d parent_key = leaves (PDict d) parent_key.
Proof. apply flatten_value_leaves. Qed.

(** ** Format validation *)

Lemma at_eol_spec l : at_eol l = true ↔ l = [] ∨ l = chars newline.
Proof.
  destruct l as [|c [|d l]]; simpl.
  - by split; [left |].
  - rewrite bool_decide_eq_true. split.
    + intros ->. by right.
    + intros [? | [= ->]]; done.
  - split; [done | intros [? | ?]; done].
Qed.

Lemma in_digit_range lo hi k : In k (seq lo (S hi - lo)) ↔ lo ≤ k ≤ hi.
Proof. rewrite in_seq. lia. Qed.

(** What [re.match] accepts for a pattern [^\d{lo,hi}$]: the digits, and
    the digits followed by one newline. *)
Lemma re_match_digits lo hi v :
  re_match [ReBol; ReDigits lo hi; ReEol] v = true ↔
  ∃ d, digits_between lo hi d ∧ (v = d ∨ v = d +:+ newline).
Proof.
  unfold re_match. simpl. rewrite existsb_exists. split.
  - intros (k & Hk%in_digit_range & H).
    rewrite !andb_true_iff, bool_decide_eq_true, at_eol_spec in H.
    destruct H as [[Hlen Hdig] [Heol _]].
    exists (str_of (take k (chars v))). split.
    + unfold digits_between. rewrite chars_str_of, length_take. split; [done | lia].
    + destruct Heol as [Heol | Heol]; [left | right]; apply chars_inj;
        rewrite ?chars_app, chars_str_of;
        rewrite <- (take_drop k (chars v)) at 1; rewrite Heol;
        by rewrite ?app_nil_r.
  - intros (d & [Hdig Hlen] & Hv). exists (length (chars d)).
    rewrite in_digit_range. split; [done |].
    assert (∃ tail, chars v = chars d ++ tail ∧ (tail = [] ∨ tail = chars newline))
      as (tail & -> & Htail).
    { destruct Hv as [-> | ->].
      - exists []. by rewrite app_nil_r; auto.
      - exists (chars newline). rewrite chars_app. auto. }
    rewrite take_app_length, drop_app_length, Hdig, length_app.
    rewrite !andb_true_iff, bool_decide_eq_true, at_eol_spec. repeat split; auto with lia.
Qed.

(** What a full-string match of [^\d{lo,hi}$] accepts: the digits only. *)
Lemma full_string_match_digits lo hi v :
  full_string_match [ReBol; ReDigits lo hi; ReEol] v = true ↔
  digits_between lo hi v.
Proof.
  unfold full_string_match. simpl. rewrite existsb_exists. split.
  - intros (k & Hk%in_digit_range & H).
    rewrite !andb_true_iff, !bool_decide_eq_true in H.
    destruct H as [[Hlen Hdig] [_ Hnil]].
    apply drop_nil_inv in Hnil.
    assert (k = length (chars v)) as -> by lia.
    rewrite firstn_all in Hdig. by split.
  - intros [Hdig Hlen]. exists (length (chars v)).
    rewrite in_digit_range. split; [done |].
    rewrite firstn_all, drop_all, Hdig.
    rewrite !andb_true_iff, !bool_decide_eq_true. repeat split; auto.
Qed.

(** A full-string match is a match. *)
Lemma full_match_here_match r bol l :
  full_match_here r bol l = true → re_match_here r bol l = true.
Proof.
  revert bol l. induction r as [|i r IH]; intros bol l; [done |].
  destruct i as [| |lo hi]; simpl.
  - rewrite !andb_true_iff. intros [? ?]. auto.
  - rewrite !andb_true_iff. intros [? ?]. auto.
  - rewrite !existsb_exists. intros (k & Hk & H). exists k. split; [done |].
    rewrite !andb_true_iff in *. destruct H as [? ?]. auto.
Qed.

Lemma field_patterns_lookup field pattern :
  field_patterns !! field = Some pattern ↔
  (field = "idNumber" ∧ pattern = [ReBol; ReDigits 9 9; ReEol])
  ∨ (field = "mobilePhone" ∧ pattern = [ReBol; ReDigits 10 10; ReEol])
  ∨ (field = "landlinePhone" ∧ pattern = [ReBol; ReDigits 9 9; ReEol])
  ∨ (field = "postalCode" ∧ pattern = [ReBol; ReDigits 5 7; ReEol]).
Proof.
  unfold field_patterns. split.
  - intros H.
    repeat (apply lookup_insert_Some in H as [[<- <-] | [? H]]; [tauto |]).
    apply lookup_singleton_Some in H as [<- <-]. tauto.
  - intros [[-> ->] | [[-> ->] | [[-> ->] | [-> ->]]]]; by vm_compute.
Qed.

(** Exactly four fields have a pattern. *)
Lemma field_patterns_registered field :
  is_Some (field_patterns !! field) ↔
  field ∈ ["idNumber"; "mobilePhone"; "landlinePhone"; "postalCode"].
Proof.
  rewrite !elem_of_cons, elem_of_nil. split.
  - intros [pattern H%field_patterns_lookup]. tauto.
  - intros [-> | [-> | [-> | [-> | []]]]]; eexists; by vm_compute.
Qed.

Lemma field_patterns_bounds field :
  field_patterns !! field =
  (λ b, [ReBol; ReDigits b.1 b.2; ReEol]) <$> digit_bounds field.
Proof.
  destruct (field_patterns !! field) as [pattern|] eqn:H.
  - apply field_patterns_lookup in H.
    destruct H as [[-> ->] | [[-> ->] | [[-> ->] | [-> ->]]]]; by vm_compute.
  - unfold digit_bounds.
    repeat case_decide; subst; try done; by vm_compute in H.
Qed.

(** What [validate_format] does: an empty value and a field without pattern
    pass; for a registered field the value has to be the digits the pattern
    asks for, possibly followed by one newline. *)
Lemma validate_format_spec field value :
  validate_format field value = true ↔
  value = ""
  ∨ field ∉ ["idNumber"; "mobilePhone"; "landlinePhone"; "postalCode"]
  ∨ ∃ lo hi d, digit_bounds field = Some (lo, hi) ∧ digits_between lo hi d
               ∧ (value = d ∨ value = d +:+ newline).
Proof.
  unfold validate_format. case_decide as Hv; [naive_solver |].
  rewrite <- field_patterns_registered, field_patterns_bounds.
  destruct (digit_bounds field) as [[lo hi]|]; simpl.
  - rewrite re_match_digits. split.
    + intros (d & ? & ?). right. right. by exists lo, hi, d.
    + intros [? | [H | (lo' & hi' & d & [= <- <-] & ? & ?)]];
        [done | by destruct H | by exists d].
  - split; [intros _ | done]. right. left. by intros [? ?].
Qed.

(** C1: [validate_format] accepts an empty value and any value of a field
    without pattern; for a field with a pattern it accepts the digits the
    pattern asks for and also those digits followed by one newline.  So it
    accepts an ID number of nine digits followed by a newline, although the
    whole value, of length 10, does not match the pattern [^\d{9}$]
    registered for [idNumber]: [$] also matches just before a newline that
    ends the value.  Every value that matches as a whole is accepted. *)
Theorem validate_format_trailing_newline field value :
  (validate_format field value = true ↔
   value = ""
   ∨ field ∉ ["idNumber"; "mobilePhone"; "landlinePhone"; "postalCode"]
   ∨ ∃ lo hi d, digit_bounds field = Some (lo, hi) ∧ digits_between lo hi d
                ∧ (value = d ∨ value = d +:+ newline))
  ∧ (∀ pattern, field_patterns !! field = Some pattern →
       full_string_match pattern value = true →
       validate_format field value = true)
  ∧ field_patterns !! "idNumber" = Some [ReBol; ReDigits 9 9; ReEol]
  ∧ validate_format "idNumber" ("123456789" +:+ newline) = true
  ∧ full_string_match [ReBol; ReDigits 9 9; ReEol] ("123456789" +:+ newline)
    = false
  ∧ py_len ("123456789" +:+ newline) = 10.
Proof.
  split; [apply validate_format_spec |].
  split; [| by vm_compute].
  intros pattern Hp Hfull. unfold validate_format.
  case_decide; [done |]. rewrite Hp.
  by apply full_match_here_match.
Qed.

(** The three examples of the specification. *)
Lemma validate_format_examples :
  validate_format "idNumber" "123456789" = true
  ∧ validate_format "idNumber" "12345678" = false
  ∧ validate_format "idNumber" "" = true.
Proof. by vm_compute. Qed.

(** ** Field-type inference *)

Lemma any_in_spec keywords s :
  any_in keywords s = true ↔ ∃ keyword, keyword ∈ keywords ∧ substring keyword s.
Proof.
  unfold any_in. rewrite existsb_exists. unfold substring.
  split; intros (kw & Hin & H); exists kw.
  - split; [by apply list_elem_of_In | by apply py_in_spec].
  - split; [by apply list_elem_of_In | by apply py_in_spec].
Qed.

Lemma first_match_decides table name :
  decides table name (first_match table name).
Proof.
  induction table as [|[keywords type] table IH]; simpl; [constructor |].
  destruct (any_in keywords name) eqn:H.
  - apply any_in_spec in H as (keyword & ? & ?). by eapply decides_here.
  - apply decides_later; [| done].
    intros keyword ? ?. apply not_true_iff_false in H. apply H, any_in_spec. eauto.
Qed.

Lemma decides_first_match table name type :
  decides table name type → type = first_match table name.
Proof.
  induction 1 as [| keywords type table name keyword Hin Hsub
                  | keywords type table name type' Hnone _ IH]; simpl.
  - done.
  - assert (any_in keywords name = true) as -> by (apply any_in_spec; eauto).
    done.
  - destruct (any_in keywords name) eqn:H; [| done].
    apply any_in_spec in H as (keyword & ? & ?). by destruct (Hnone keyword).
Qed.

Lemma infer_field_type_first_match field_name :
  _infer_field_type field_name = first_match keyword_table (py_lower field_name).
Proof. reflexivity. Qed.

(** C9: the inferred type is the one the priority table decides for the
    lower-cased field name, so the first keyword set (numeric, phone, date,
    text, address) with a keyword inside the name wins and the type is
    "unknown" otherwise; the result does not depend on the case of the name;
    "mobilePhone" is a phone, "lastName" a text and "unknownXyz" unknown. *)
Theorem infer_field_type_priority field_name :
  decides keyword_table (py_lower field_name) (_infer_field_type field_name)
  ∧ (∀ type, decides keyword_table (py_lower field_name) type ↔
             type = _infer_field_type field_name)
  ∧ _infer_field_type (py_lower field_name) = _infer_field_type field_name
  ∧ keyword_table.*2 = ["numeric"; "phone"; "date"; "text"; "address"]
  ∧ keyword_table !! 0 = Some (["id"; "number"; "num"; "code"], "numeric")
  ∧ _infer_field_type "mobilePhone" = "phone"
  ∧ _infer_field_type "lastName" = "text"
  ∧ _infer_field_type "unknownXyz" = "unknown".
Proof.
  rewrite !infer_field_type_first_match, py_lower_idemp.
  split; [apply first_match_decides |].
  split.
  { intros type. split.
    - apply decides_first_match.
    - intros ->. apply first_match_decides. }
  split; [done |].
  by vm_compute.
Qed.

(** ** Date validation *)

Lemma days_in_month_bounds y m : (28 ≤ days_in_month y m ≤ 31)%Z.
Proof. unfold days_in_month. repeat case_match; lia. Qed.

Lemma in_range_spec (lo hi z : Z) :
  ((lo <=? z) && (z <=? hi))%Z = true ↔ (lo ≤ z ≤ hi)%Z.
Proof. rewrite andb_true_iff, !Z.leb_le. tauto. Qed.

Lemma in_range_false (lo hi z : Z) :
  ((lo <=? z) && (z <=? hi))%Z = false ↔ ¬ (lo ≤ z ≤ hi)%Z.
Proof. rewrite <- in_range_spec. by destruct (_ && _). Qed.

Lemma datetime_new_spec y m d :
  match datetime_new y m d with
  | Ok dt => valid_ymd y m d ∧ dt = Datetime y m d
  | Raise e => ¬ valid_ymd y m d
  end.
Proof.
  pose proof (days_in_month_bounds y m).
  unfold datetime_new, valid_ymd, fits_c_int.
  generalize dependent (days_in_month y m). intros dim Hdim.
  match goal with
  | |- context [negb (?a && ?b && ?c)] => destruct (negb (a && b && c)) eqn:Hf
  end.
  { apply negb_true_iff in Hf. rewrite !andb_false_iff, !Z.leb_gt in Hf. lia. }
  clear Hf.
  destruct ((1 <=? y)%Z && (y <=? 9999)%Z) eqn:Hy;
    [apply in_range_spec in Hy | apply in_range_false in Hy];
  (destruct ((1 <=? m)%Z && (m <=? 12)%Z) eqn:Hm;
    [apply in_range_spec in Hm | apply in_range_false in Hm]);
  (destruct ((1 <=? d)%Z && (d <=? dim)%Z) eqn:Hd;
    [apply in_range_spec in Hd | apply in_range_false in Hd]);
  cbn [negb]; try tauto.
Qed.

Lemma try_except_all_returns {A} (body : result A) handler :
  (∀ e, returns (handler e)) → returns (try_except_all body handler).
Proof. intros H. destruct body as [a|e]; [by exists a | apply H]. Qed.

(** [validate_date] never raises, whatever the components are. *)
Lemma validate_date_returns (date_dict : gmap string pyval) :
  returns (validate_date date_dict).
Proof. apply try_except_all_returns. intros e. by eexists. Qed.

Lemma validate_date_incomplete (date_dict : gmap string pyval) :
  forallb (λ o, from_option truthy false o)
    [date_dict !! "day"; date_dict !! "month"; date_dict !! "year"] = false →
  validate_date date_dict = Ok (true, "").
Proof. intros H. unfold validate_date. by rewrite H. Qed.

(** The outcome for a date whose three components are non-empty strings. *)
Lemma validate_date_complete (date_dict : gmap string pyval) ys ms ds :
  date_dict !! "year" = Some (PStr ys) → date_dict !! "month" = Some (PStr ms) →
  date_dict !! "day" = Some (PStr ds) → ys ≠ "" → ms ≠ "" → ds ≠ "" →
  match int_literal ys, int_literal ms, int_literal ds with
  | Some y, Some m, Some d =>
      if decide (valid_ymd y m d)
      then validate_date date_dict = Ok (true, "")
      else ∃ reason, validate_date date_dict = Ok (false, reason)
  | _, _, _ => ∃ reason, validate_date date_dict = Ok (false, reason)
  end.
Proof.
  intros Hy Hm Hd Hys Hms Hds.
  remember (validate_date date_dict) as r eqn:Hr.
  unfold validate_date, dict_index in Hr.
  rewrite Hy, Hm, Hd in Hr. cbn [forallb from_option truthy] in Hr.
  rewrite !bool_decide_eq_true_2 in Hr by done. cbn [andb negb] in Hr.
  cbn [mbind result_bind py_int] in Hr. unfold int_of_str in Hr.
  destruct (int_literal ys) as [y|]; [| subst r; by eexists].
  destruct (int_literal ms) as [m|].
  2: { destruct (int_literal ds); subst r; by eexists. }
  destruct (int_literal ds) as [d|]; [| subst r; by eexists].
  cbn [mbind result_bind] in Hr.
  pose proof (datetime_new_spec y m d) as Hnew.
  destruct (datetime_new y m d) as [dt | e].
  - destruct Hnew as [Hv _]. rewrite decide_True by done. by subst r.
  - rewrite decide_False by done. cbn in Hr. unfold try_except in Hr.
    case_decide; subst r; by eexists.
Qed.

Lemma truthy_str_fmap (sd : gmap string string) k :
  from_option truthy false ((PStr <$> sd) !! k) = false ↔ component_missing sd k.
Proof.
  unfold component_missing. rewrite lookup_fmap.
  destruct (sd !! k) as [s|]; simpl.
  - rewrite bool_decide_eq_false. split.
    + intros H. right. f_equal. by destruct (decide (s = "")).
    + intros [? | [= ->]]; [done | by intros []].
  - split; [by left | done].
Qed.

Lemma incomplete_forallb (sd : gmap string string) :
  forallb (λ o, from_option truthy false o)
    [(PStr <$> sd) !! "day"; (PStr <$> sd) !! "month"; (PStr <$> sd) !! "year"]
  = false ↔ incomplete sd.
Proof.
  unfold incomplete. rewrite <- !truthy_str_fmap. cbn [forallb].
  rewrite !andb_false_iff. intuition congruence.
Qed.

Lemma complete_components (sd : gmap string string) :
  ¬ incomplete sd →
  ∃ ys ms ds, sd !! "year" = Some ys ∧ sd !! "month" = Some ms
              ∧ sd !! "day" = Some ds ∧ ys ≠ "" ∧ ms ≠ "" ∧ ds ≠ "".
Proof.
  unfold incomplete, component_missing. intros H.
  destruct (sd !! "year") as [ys|], (sd !! "month") as [ms|],
    (sd !! "day") as [ds|]; try (exfalso; tauto).
  exists ys, ms, ds. split_and!; try done; intros ->; tauto.
Qed.

(** C5: for a date of string components, [validate_date] never raises;
    it answers (true, "") when the day, the month or the year is missing or
    empty; when the three are present it answers (true, "") exactly when the
    integer-parsed components construct a calendar date, and (false, reason)
    otherwise; 31/02/2020 is rejected and the all-empty date accepted. *)
Theorem validate_date_policy (sd : gmap string string) :
  returns (validate_date (PStr <$> sd))
  ∧ (incomplete sd → validate_date (PStr <$> sd) = Ok (true, ""))
  ∧ (¬ incomplete sd →
     (validate_date (PStr <$> sd) = Ok (true, "") ↔ constructs_date sd)
     ∧ (¬ constructs_date sd →
        ∃ reason, validate_date (PStr <$> sd) = Ok (false, reason)))
  ∧ (∃ reason,
       validate_date
         (PStr <$> {[ "day" := "31"; "month" := "02"; "year" := "2020" ]})
       = Ok (false, reason))
  ∧ validate_date (PStr <$> {[ "day" := ""; "month" := ""; "year" := "" ]})
    = Ok (true, "").
Proof.
  assert (incomplete sd → validate_date (PStr <$> sd) = Ok (true, "")) as Hinc.
  { intros H. by apply validate_date_incomplete, incomplete_forallb. }
  assert (¬ incomplete sd →
     (validate_date (PStr <$> sd) = Ok (true, "") ↔ constructs_date sd)
     ∧ (¬ constructs_date sd →
        ∃ reason, validate_date (PStr <$> sd) = Ok (false, reason))) as Hcomp.
  { intros (ys & ms & ds & Hy & Hm & Hd & Hys & Hms & Hds)%complete_components.
    pose proof (validate_date_complete (PStr <$> sd) ys ms ds) as H.
    rewrite !lookup_fmap, Hy, Hm, Hd in H.
    specialize (H eq_refl eq_refl eq_refl Hys Hms Hds).
    assert (constructs_date sd ↔
            ∃ y m d, int_literal ys = Some y ∧ int_literal ms = Some m
                     ∧ int_literal ds = Some d ∧ valid_ymd y m d) as ->.
    { unfold constructs_date. rewrite Hy, Hm, Hd. split.
      - intros (? & ? & ? & y & m & d & [= <-] & [= <-] & [= <-] & ?). by exists y, m, d.
      - intros (y & m & d & ?). by exists ys, ms, ds, y, m, d. }
    destruct (int_literal ys) as [y|], (int_literal ms) as [m|],
      (int_literal ds) as [d|];
      try (destruct H as [reason H]; rewrite H; split;
           [split; [done | by intros (? & ? & ? & ? & ? & ? & ?)] | by eexists]).
    destruct (decide (valid_ymd y m d)) as [Hv | Hv].
    - rewrite H. split; [split; [by exists y, m, d | done] |].
      intros []. by exists y, m, d.
    - destruct H as [reason H]. rewrite H. split; [| by eexists].
      split; [done |]. intros (? & ? & ? & [= <-] & [= <-] & [= <-] & ?). done. }
  split_and!; try done.
  - apply validate_date_returns.
  - eexists. by vm_compute.
Qed.

(** ** Bounding boxes *)

Lemma qmin_cases a b : (qmin a b = a ∧ (a ≤ b)%Qc) ∨ (qmin a b = b ∧ (b ≤ a)%Qc).
Proof.
  unfold qmin. case_bool_decide as H.
  - right. split; [done | by apply Qclt_le_weak].
  - left. split; [done | by apply Qcnot_lt_le].
Qed.

Lemma qmax_cases a b : (qmax a b = a ∧ (b ≤ a)%Qc) ∨ (qmax a b = b ∧ (a ≤ b)%Qc).
Proof.
  unfold qmax. case_bool_decide as H.
  - right. split; [done | by apply Qclt_le_weak].
  - left. split; [done | by apply Qcnot_lt_le].
Qed.

Lemma foldl_qmin a l : is_min (foldl qmin a l) (a :: l).
Proof.
  revert a. induction l as [|b l IH]; intros a; simpl.
  - split; [set_solver |]. intros x ->%list_elem_of_singleton. apply Qcle_refl.
  - destruct (IH (qmin a b)) as [Hin Hle]. split.
    + apply elem_of_cons in Hin as [-> | Hin]; [| set_solver].
      destruct (qmin_cases a b) as [[-> _] | [-> _]]; set_solver.
    + intros x Hx.
      assert (foldl qmin (qmin a b) l ≤ qmin a b)%Qc as H0 by (apply Hle; set_solver).
      apply elem_of_cons in Hx as [-> | Hx]; [| apply elem_of_cons in Hx as [-> | Hx]].
      * destruct (qmin_cases a b) as [[E ?] | [E ?]]; rewrite E in *; [done |].
        by eapply Qcle_trans.
      * destruct (qmin_cases a b) as [[E ?] | [E ?]]; rewrite E in *; [| done].
        by eapply Qcle_trans.
      * apply Hle. set_solver.
Qed.

Lemma foldl_qmax a l : is_max (foldl qmax a l) (a :: l).
Proof.
  revert a. induction l as [|b l IH]; intros a; simpl.
  - split; [set_solver |]. intros x ->%list_elem_of_singleton. apply Qcle_refl.
  - destruct (IH (qmax a b)) as [Hin Hle]. split.
    + apply elem_of_cons in Hin as [-> | Hin]; [| set_solver].
      destruct (qmax_cases a b) as [[-> _] | [-> _]]; set_solver.
    + intros x Hx.
      assert (qmax a b ≤ foldl qmax (qmax a b) l)%Qc as H0 by (apply Hle; set_solver).
      apply elem_of_cons in Hx as [-> | Hx]; [| apply elem_of_cons in Hx as [-> | Hx]].
      * destruct (qmax_cases a b) as [[E ?] | [E ?]]; rewrite E in *; [done |].
        by eapply Qcle_trans.
      * destruct (qmax_cases a b) as [[E ?] | [E ?]]; rewrite E in *; [| done].
        by eapply Qcle_trans.
      * apply Hle. set_solver.
Qed.

Lemma mapM_fmap {A B C} (f : B → result C) (g : A → B) (h : A → C) l :
  (∀ a, f (g a) = Ok (h a)) → mapM f (g <$> l) = Ok (h <$> l).
Proof.
  intros H. induction l as [|a l IH]; [done |].
  rewrite !fmap_cons. cbn [mapM]. rewrite H. cbn [mbind result_bind].
  by rewrite IH.
Qed.

Lemma mapM_Ok {A} (l : list A) : mapM Ok l = Ok l.
Proof. induction l as [|a l IH]; simpl; [done | by rewrite IH]. Qed.

Lemma every_other_flat (pts : list (Qc * Qc)) :
  every_other true (as_flat_list pts) = PtNumber <$> pts.*1
  ∧ every_other false (as_flat_list pts) = PtNumber <$> pts.*2.
Proof.
  induction pts as [|p pts [IH1 IH2]]; [done |].
  change (as_flat_list (p :: pts))
    with (PtNumber p.1 :: PtNumber p.2 :: as_flat_list pts).
  cbn [every_other]. by rewrite IH1, IH2.
Qed.

Lemma length_flat (pts : list (Qc * Qc)) :
  length (as_flat_list pts) = 2 * length pts.
Proof.
  induction pts as [|p pts IH]; [done |].
  change (as_flat_list (p :: pts))
    with (PtNumber p.1 :: PtNumber p.2 :: as_flat_list pts).
  cbn [length]. rewrite IH. lia.
Qed.

(** The box computed from non-empty coordinate lists. *)
Lemma box_of_coordinates (pts : list (Qc * Qc)) polygon :
  pts ≠ [] →
  polygon_coordinates polygon = Ok (Some (pts.*1, pts.*2)) →
  ∃ b, _extract_bounding_box polygon = Ok b ∧ spanning_box b pts.
Proof.
  intros Hne Hc. unfold _extract_bounding_box. rewrite Hc.
  destruct pts as [|[x y] pts]; [done |]. simpl.
  eexists. split; [done |].
  exists (foldl qmin x pts.*1), (foldl qmin y pts.*2),
         (foldl qmax x pts.*1), (foldl qmax y pts.*2).
  split_and!; try done;
    first [apply (foldl_qmin _ _) | apply (foldl_qmax _ _)].
Qed.

Lemma polygon_coordinates_objects pts :
  pts ≠ [] → polygon_coordinates (as_objects pts) = Ok (Some (pts.*1, pts.*2)).
Proof.
  intros Hne. destruct pts as [|p pts]; [done |].
  change (as_objects (p :: pts)) with (PtObject p.1 p.2 :: as_objects pts).
  cbn [polygon_coordinates].
  change (PtObject p.1 p.2 :: as_objects pts) with (as_objects (p :: pts)).
  unfold as_objects.
  rewrite (mapM_fmap attr_x _ fst), (mapM_fmap attr_y _ snd) by done.
  done.
Qed.

Lemma polygon_coordinates_flat pts :
  pts ≠ [] → polygon_coordinates (as_flat_list pts) = Ok (Some (pts.*1, pts.*2)).
Proof.
  intros Hne. pose proof (length_flat pts) as Hlen.
  destruct (every_other_flat pts) as [Hx Hy].
  destruct pts as [|p pts]; [done |].
  change (as_flat_list (p :: pts))
    with (PtNumber p.1 :: PtNumber p.2 :: as_flat_list pts) in *.
  cbn [polygon_coordinates]. rewrite Hlen.
  rewrite decide_True by (by rewrite Nat.mul_comm, Nat.Div0.mod_mul).
  rewrite Hx, Hy.
  rewrite (mapM_fmap as_number PtNumber id), (mapM_fmap as_number PtNumber id)
    by done.
  by rewrite !list_fmap_id.
Qed.

Lemma polygon_coordinates_pairs pts :
  pts ≠ [] → polygon_coordinates (as_pairs pts) = Ok (Some (pts.*1, pts.*2)).
Proof.
  intros Hne. destruct pts as [|p pts]; [done |].
  change (as_pairs (p :: pts)) with (PtSeq [p.1; p.2] :: as_pairs pts).
  cbn [polygon_coordinates length]. rewrite decide_True by done.
  change (PtSeq [p.1; p.2] :: as_pairs pts) with (as_pairs (p :: pts)).
  unfold as_pairs.
  rewrite (mapM_fmap (subscript 0) _ fst), (mapM_fmap (subscript 1) _ snd)
    by done.
  done.
Qed.

(** Whatever is raised while the coordinates are collected ends in the
    default box. *)
Lemma extract_bounding_box_raise polygon e :
  polygon_coordinates polygon = Raise e →
  _extract_bounding_box polygon = Ok default_box.
Proof. intros H. unfold _extract_bounding_box. by rewrite H. Qed.

(** C8: the bounding-box extraction never raises; the empty polygon, a flat
    numeric list of odd length and a first element of unrecognised shape give
    the default box; the three well-formed encodings of a non-empty list of
    points give the axis-aligned box that spans their minimum and maximum
    coordinates. *)
Theorem extract_bounding_box_spec (polygon : list pelem) :
  returns (_extract_bounding_box polygon)
  ∧ (polygon = [] → _extract_bounding_box polygon = Ok default_box)
  ∧ (∀ v rest, polygon = PtNumber v :: rest → Nat.Odd (length polygon) →
       _extract_bounding_box polygon = Ok default_box)
  ∧ (∀ rest, polygon = PtOther :: rest →
       _extract_bounding_box polygon = Ok default_box)
  ∧ (∀ l rest, polygon = PtSeq l :: rest → length l ≠ 2 →
       _extract_bounding_box polygon = Ok default_box)
  ∧ (∀ pts, pts ≠ [] →
       polygon = as_objects pts ∨ polygon = as_flat_list pts
       ∨ polygon = as_pairs pts →
       ∃ b, _extract_bounding_box polygon = Ok b ∧ spanning_box b pts)
  ∧ default_box !! "x" = Some (Q2Qc 0) ∧ default_box !! "y" = Some (Q2Qc 0)
  ∧ default_box !! "width" = Some (Q2Qc 100)
  ∧ default_box !! "height" = Some (Q2Qc 20).
Proof.
  split_and!; try done.
  - apply try_except_all_returns. intros e. by eexists.
  - by intros ->.
  - intros v rest -> Hodd. unfold _extract_bounding_box. cbn [polygon_coordinates].
    rewrite decide_False; [done |].
    intros H. apply Nat.Div0.mod_divides in H as [k Hk].
    destruct Hodd as [j Hj]. lia.
  - by intros rest ->.
  - intros l rest -> Hl. unfold _extract_bounding_box. cbn [polygon_coordinates].
    by rewrite decide_False.
  - intros pts Hne [-> | [-> | ->]]; apply box_of_coordinates; try done.
    + by apply polygon_coordinates_objects.
    + by apply polygon_coordinates_flat.
    + by apply polygon_coordinates_pairs.
Qed.

(** ** Completeness and accuracy scores *)

Lemma Q2Qc_le (p q : Q) : (Q2Qc p ≤ Q2Qc q)%Qc ↔ (p <= q)%Q.
Proof. unfold Qcle. simpl. by rewrite !Qred_correct. Qed.

Lemma Zpos_of_nat b : 0 < b → Z.pos (Pos.of_nat b) = Z.of_nat b.
Proof.
  intros Hb. rewrite <- (Nat2Pos.id b) at 2 by lia. by rewrite positive_nat_Z.
Qed.

Lemma ratio_bounds a b : 0 < b → a ≤ b → (Q2Qc 0 ≤ ratio a b ≤ Q2Qc 1)%Qc.
Proof.
  intros Hb Hab. unfold ratio. rewrite !Q2Qc_le. unfold Qle. simpl.
  rewrite Zpos_of_nat by done. lia.
Qed.

(** [ratio a b] is the quotient of the two integers. *)
Lemma ratio_div a b :
  0 < b →
  ratio a b = (Q2Qc (Z.of_nat a # 1) / Q2Qc (Z.of_nat b # 1))%Qc.
Proof.
  intros Hb. unfold ratio. apply Qc_is_canon. simpl.
  rewrite !Qred_correct. unfold Qeq, Qdiv, Qmult, Qinv. simpl.
  destruct b as [|b]; [lia |]. simpl.
  rewrite !Pos.mul_1_l || idtac. lia.
Qed.

Lemma score_of_bounds a b : a ≤ b → (Q2Qc 0 ≤ score_of a b ≤ Q2Qc 1)%Qc.
Proof.
  intros Hab. unfold score_of. case_decide.
  - by apply ratio_bounds.
  - split; [apply Qcle_refl | by apply Q2Qc_le].
Qed.

(** What the format loop counts. *)
Lemma accuracy_loop_counts self today od items valid total invalid self' acc :
  accuracy_loop self today od items (valid, total, invalid) = Ok (self', acc) →
  acc.1.2 = total + length (filter (λ kv, format_checked kv = true) items)
  ∧ valid ≤ acc.1.1 ∧ acc.1.1 - valid ≤ acc.1.2 - total
  ∧ length acc.2 + acc.1.1 - valid = length invalid + acc.1.2 - total.
Proof.
  revert self valid total invalid.
  induction items as [|[key value] items IH]; intros self valid total invalid H.
  - simpl in H. injection H as <- <-. simpl. lia.
  - cbn [accuracy_loop] in H. rewrite filter_cons.
    assert (format_checked (key, value)
            = negb (py_in "confidences" key || py_in "confidence" key)
              && nonblank value) as Hfc by done.
    destruct (py_in "confidences" key || py_in "confidence" key).
    { rewrite decide_False by (by rewrite Hfc). by apply IH in H. }
    destruct (nonblank value).
    2: { rewrite decide_False by (by rewrite Hfc). by apply IH in H. }
    rewrite decide_True by (by rewrite Hfc). cbn [length].
    destruct (_check_consistency_with_ocr _ _ _ _ _) as [r|e]; [| done].
    cbn [mbind result_bind] in H.
    destruct (validate_format _ _); apply IH in H; cbn [length] in *;
      rewrite ?length_app in *; cbn [length] in *; lia.
Qed.

(** The result record of a run that returns. *)
Lemma validate_extracted_data_result self today sd od self' r :
  validate_extracted_data self today sd od = Ok (self', r) →
  let flat_data := _flatten_dict sd "" in
  ∃ valid total invalid,
    accuracy_loop self today od flat_data (0, 0, [])
    = Ok (self', (valid, total, invalid))
    ∧ r = ValidationResult
        (Completeness
           (length (filter (λ kv, nonblank kv.2 = true) flat_data))
           (length flat_data)
           (score_of (length (filter (λ kv, nonblank kv.2 = true) flat_data))
              (length flat_data))
           (missing_required_of flat_data))
        (Accuracy valid total (score_of valid total) invalid)
        (Confidence (default (Q2Qc 0) (od_average_confidence od))
           "Average OCR confidence score").
Proof.
  intros H flat_data. unfold validate_extracted_data in H.
  cbv zeta in H. fold flat_data in H.
  destruct (accuracy_loop self today od flat_data (0, 0, []))
    as [[self'' [[valid total] invalid]]|e]; [| done].
  cbn in H. simplify_eq. by exists valid, total, invalid.
Qed.

(** The accuracy total of a run that returns counts the checked fields. *)
Lemma accuracy_total_checked self today sd od self' r :
  validate_extracted_data self today sd od = Ok (self', r) →
  a_total_fields (accuracy r)
  = length (filter (λ kv, format_checked kv = true) (_flatten_dict sd "")).
Proof.
  intros H.
  destruct (validate_extracted_data_result _ _ _ _ _ _ H)
    as (valid & total & invalid & Hloop & ->).
  apply accuracy_loop_counts in Hloop. cbn [fst snd] in Hloop.
  cbn [accuracy a_total_fields]. lia.
Qed.

(** Without fields the format loop has nothing to do: the run returns. *)
Lemma validate_extracted_data_empty self today sd od :
  _flatten_dict sd "" = [] →
  ∃ r, validate_extracted_data self today sd od = Ok (self, r)
       ∧ c_total_fields (completeness r) = 0
       ∧ c_score (completeness r) = Q2Qc 0.
Proof.
  intros H. unfold validate_extracted_data. cbv zeta. rewrite H.
  eexists. split; [done |]. split; [done |]. by apply Qc_is_canon.
Qed.

(** C6: the completeness score of a run that returns is filled_fields
    divided by total_fields, where total_fields is the number of flattened
    fields (the number of leaves of [structured_data] when no two leaves have
    the same dotted path) and filled_fields the number of those whose value
    is not blank after trimming; 7 filled fields out of 10 give exactly 7/10;
    with no field the score is 0, and the run then returns. *)
Theorem completeness_score_spec self today sd od self' r :
  validate_extracted_data self today sd od = Ok (self', r) →
  let flat_data := _flatten_dict sd "" in
  let c := completeness r in
  c_total_fields c = length flat_data
  ∧ (NoDup (leaves (PDict sd) "").*1 →
     c_total_fields c = length (leaves (PDict sd) "")
     ∧ filled_fields c
       = length (filter (λ kv, nonblank kv.2 = true) (leaves (PDict sd) "")))
  ∧ filled_fields c = length (filter (λ kv, nonblank kv.2 = true) flat_data)
  ∧ (0 < c_total_fields c →
     c_score c
     = (Q2Qc (Z.of_nat (filled_fields c) # 1)
        / Q2Qc (Z.of_nat (c_total_fields c) # 1))%Qc)
  ∧ (c_total_fields c = 0 → c_score c = Q2Qc 0)
  ∧ (c_total_fields c = 10 → filled_fields c = 7 →
     c_score c = Q2Qc (7 # 10))
  ∧ (flat_data = [] →
     ∀ self0 today0 od0,
       ∃ r0, validate_extracted_data self0 today0 sd od0 = Ok (self0, r0)
             ∧ c_score (completeness r0) = Q2Qc 0).
Proof.
  intros H flat_data c.
  destruct (validate_extracted_data_result _ _ _ _ _ _ H)
    as (valid & total & invalid & _ & ->).
  subst c. cbn [completeness c_total_fields filled_fields c_score].
  fold flat_data. split_and!; try done.
  - intros Hnd. subst flat_data. by rewrite flatten_dict_leaves.
  - intros Hpos. unfold score_of. rewrite decide_True by done.
    by apply ratio_div.
  - by intros ->.
  - intros -> ->. by apply Qc_is_canon.
  - intros Hempty self0 today0 od0.
    destruct (validate_extracted_data_empty self0 today0 sd od0 Hempty)
      as (r0 & Hr0 & _ & Hscore). by exists r0.
Qed.

(** C7: in the result of a run that returns, both scores lie in [0, 1],
    filled_fields is at most the completeness total, valid_format_fields is
    at most the accuracy total, and the accuracy total counts the non-blank
    fields (those whose key does not mention a confidence). *)
Theorem validation_result_invariants self today sd od self' r :
  validate_extracted_data self today sd od = Ok (self', r) →
  (Q2Qc 0 ≤ c_score (completeness r) ≤ Q2Qc 1)%Qc
  ∧ (Q2Qc 0 ≤ a_score (accuracy r) ≤ Q2Qc 1)%Qc
  ∧ filled_fields (completeness r) ≤ c_total_fields (completeness r)
  ∧ valid_format_fields (accuracy r) ≤ a_total_fields (accuracy r)
  ∧ a_total_fields (accuracy r)
    = length (filter (λ kv, format_checked kv = true) (_flatten_dict sd ""))
  ∧ a_total_fields (accuracy r) ≤ filled_fields (completeness r)
  ∧ length (invalid_fields (accuracy r)) + valid_format_fields (accuracy r)
    = a_total_fields (accuracy r).
Proof.
  intros H.
  destruct (validate_extracted_data_result _ _ _ _ _ _ H)
    as (valid & total & invalid & Hloop & ->).
  apply accuracy_loop_counts in Hloop. cbn [fst snd length] in Hloop.
  destruct Hloop as (Htotal & _ & Hle & Hinv).
  set (flat_data := _flatten_dict sd "") in *.
  assert (length (filter (λ kv, nonblank kv.2 = true) flat_data)
          ≤ length flat_data) as Hfilled by apply length_filter.
  assert (length (filter (λ kv, format_checked kv = true) flat_data)
          ≤ length (filter (λ kv, nonblank kv.2 = true) flat_data)) as Hchecked.
  { clear. induction flat_data as [|kv l IH]; [done |].
    rewrite !filter_cons.
    assert (format_checked kv = true → nonblank kv.2 = true) as Himp.
    { unfold format_checked. by intros [_ ?]%andb_true_iff. }
    repeat case_decide; cbn [length]; try lia. by destruct Himp. }
  cbn [completeness accuracy c_score a_score filled_fields c_total_fields
       valid_format_fields a_total_fields invalid_fields].
  split_and!; try (apply score_of_bounds); lia.
Qed.

(** The sample form has ten leaf fields, seven of them filled: its
    completeness score is 7/10. *)
Lemma completeness_score_witness :
  ∃ self' r,
    validate_extracted_data sample_validator sample_today sample_form sample_ocr
    = Ok (self', r)
    ∧ c_total_fields (completeness r) = 10
    ∧ filled_fields (completeness r) = 7
    ∧ c_score (completeness r) = Q2Qc (7 # 10).
Proof.
  eexists _, _. split; [vm_compute; reflexivity |].
  split; [reflexivity |]. split; [reflexivity |].
  eapply (completeness_score_spec sample_validator sample_today sample_form
            sample_ocr); [vm_compute; reflexivity | reflexivity | reflexivity].
Defined.

Lemma validation_result_invariants_witness :
  ∃ self' r,
    validate_extracted_data sample_validator sample_today sample_form sample_ocr
    = Ok (self', r)
    ∧ (Q2Qc 0 ≤ c_score (completeness r) ≤ Q2Qc 1)%Qc
    ∧ (Q2Qc 0 ≤ a_score (accuracy r) ≤ Q2Qc 1)%Qc
    ∧ filled_fields (completeness r) ≤ c_total_fields (completeness r)
    ∧ valid_format_fields (accuracy r) ≤ a_total_fields (accuracy r).
Proof.
  eexists _, _. split; [vm_compute; reflexivity |].
  match goal with
  | |- context [c_score (completeness ?r)] =>
      destruct (validation_result_invariants sample_validator sample_today
                  sample_form sample_ocr sample_validator r)
        as (H1 & H2 & H3 & H4 & _)
  end; [vm_compute; reflexivity |].
  exact (conj H1 (conj H2 (conj H3 H4))).
Defined.

(** ** Exceptions in the per-field checks *)

Lemma mapM_spans (f : pyval → result string) (g : string → string) spans :
  (∀ s, f (PStr s) = Ok (g s)) →
  Forall (λ sp, ∃ s, span_text sp = PStr s) spans →
  mapM (λ sp, f (span_text sp)) spans
  = Ok ((λ sp, g (text_of (span_text sp))) <$> spans).
Proof.
  intros Hf. induction 1 as [|sp spans [s Hs] _ IH]; [done |].
  cbn [mapM]. rewrite Hs, Hf, IH. cbn. by rewrite Hs.
Qed.

Lemma ocr_corpus_typed od :
  spans_have_text od → ocr_corpus od = Ok (corpus_of od).
Proof.
  intros H. unfold ocr_corpus, corpus_of, span_strings.
  rewrite (mapM_spans lower_of py_lower) by done. cbn.
  by rewrite <- list_fmap_compose.
Qed.

Lemma ocr_tokens_typed od :
  spans_have_text od →
  ocr_tokens_of od
  = Ok (py_split (py_lower (py_join " " (span_strings od)))).
Proof.
  intros H. unfold ocr_tokens_of, span_strings.
  by rewrite (mapM_spans join_item id) by done.
Qed.

(** A span whose text is not a string makes the corpus raise. *)
Lemma ocr_corpus_untyped od :
  ¬ spans_have_text od → ∃ e, ocr_corpus od = Raise e.
Proof.
  unfold spans_have_text, ocr_corpus. intros H.
  induction (text_spans od) as [|sp spans IH].
  - destruct H. constructor.
  - cbn [mapM]. destruct (span_text sp) as [|s|items] eqn:Hs;
      try (by eexists).
    cbn. destruct (mapM _ spans) as [texts|e] eqn:Hm; [| by eexists].
    destruct IH as [e He]; [| done].
    intros Hall. apply H. constructor; [by exists s | done].
Qed.

(** With string span texts the token loop returns: the significant tokens
    found in the corpus, those not found, and token records only. *)
Lemma check_tokens_typed od corpus tokens :
  spans_have_text od →
  ∃ logs,
    check_tokens od corpus tokens
    = Ok (filter (λ t, py_in t corpus = true) (filter significant tokens),
          filter (λ t, py_in t corpus ≠ true) (filter significant tokens),
          logs)
    ∧ Forall is_token_msg logs.
Proof.
  intros Hod. induction tokens as [|token tokens (logs & IH & Hlogs)].
  - by exists [].
  - cbn [check_tokens]. rewrite (filter_cons significant).
    destruct (decide (significant token)) as [Hsig | Hsig].
    2: { rewrite (decide_False (P := 3 < py_len token)) by done. by exists logs. }
    rewrite (decide_True (P := 3 < py_len token)) by done.
    rewrite IH. unfold check_token. rewrite !filter_cons.
    destruct (py_in token corpus) eqn:Hin.
    + cbn. exists logs. rewrite decide_True by done.
      by rewrite decide_False by (by intros []).
    + rewrite ocr_tokens_typed by done. cbn.
      eexists. rewrite (decide_False (P := false = true)) by done.
      rewrite (decide_True (P := false ≠ true)) by done.
      split; [done |].
      apply Forall_app. split; [| done]. case_decide; by repeat constructor.
Qed.

(** ** The OCR-consistency check *)

Lemma not_flag_elem (m : log_msg) logs :
  is_flag m → Forall (λ m', ¬ is_flag m') logs → m ∉ logs.
Proof. intros Hm Hall Hin. by eapply Forall_forall in Hall. Qed.

Lemma token_msgs_no_flag logs :
  Forall is_token_msg logs → Forall (λ m, ¬ is_flag m) logs.
Proof.
  intros H. eapply Forall_impl; [done |]. intros m Hm Hf. by destruct m.
Qed.

Lemma significant_value_str value :
  significant_tokens value ≠ [] → 3 < py_len (value_str_of value).
Proof.
  unfold significant_tokens. intros H.
  destruct (filter significant _) as [|t l] eqn:Hf; [done |].
  assert (t ∈ filter significant (py_split (value_str_of value))) as Ht
    by (rewrite Hf; left).
  apply list_elem_of_filter in Ht as [Hsig Hin%py_split_length].
  unfold significant in Hsig. lia.
Qed.

Lemma filter_nil_iff {A} (P : A → Prop) `{∀ x, Decision (P x)} (l : list A) :
  filter P l = [] ↔ ∀ x, x ∈ l → ¬ P x.
Proof.
  induction l as [|a l IH]; [by split; [intros _ ? ?%elem_of_nil |] |].
  rewrite filter_cons. case_decide as Ha.
  - split; [done | intros Hall]. destruct (Hall a); [left | done].
  - rewrite IH. split.
    + intros Hall x [-> | ?]%elem_of_cons; auto.
    + intros Hall x ?. apply Hall. by right.
Qed.

(** The early return is not taken for a value string longer than 3. *)
Lemma value_str_checked value :
  3 < py_len (value_str_of value) →
  bool_decide (value_str_of value = "")
  || bool_decide (py_len (value_str_of value) ≤ 3) = false.
Proof.
  intros H. rewrite bool_decide_eq_false_2, bool_decide_eq_false_2; [done | lia |].
  intros E. rewrite E in H. simpl in H. lia.
Qed.

Lemma filter_in_nil (c : string) (sig : list string) :
  filter (λ t, py_in t c = true) sig = [] ↔
  ∀ t, t ∈ sig → py_in t c = false.
Proof.
  rewrite filter_nil_iff. split; intros H t Ht.
  - by apply not_true_iff_false, H.
  - by rewrite (H t Ht).
Qed.

Lemma filter_not_in_all (c : string) (sig : list string) :
  (∀ t, t ∈ sig → py_in t c = false) →
  filter (λ t, py_in t c ≠ true) sig = sig.
Proof.
  intros H. induction sig as [|t sig IH]; [done |].
  rewrite filter_cons, decide_True.
  - rewrite IH; [done |]. intros t' ?. apply H. by right.
  - rewrite (H t); [done | left].
Qed.

Ltac no_flag :=
  repeat case_match; repeat constructor;
  try (by apply token_msgs_no_flag); simpl; auto.

(** The check on a scalar value with a significant token, for string span
    texts: it returns, the validator is unchanged, and the value is marked as
    a suspected invention exactly when no significant token is in the corpus. *)
Lemma consistency_scalar self today field value od :
  spans_have_text od → is_scalar value → significant_tokens value ≠ [] →
  ∃ logs,
    _check_consistency_with_ocr self today field value od = Ok (self, logs)
    ∧ (suspected_invention field value logs ↔
       ∀ t, t ∈ significant_tokens value → py_in t (corpus_of od) = false).
Proof.
  intros Hod Hscalar Hsig.
  pose proof (value_str_checked value (significant_value_str value Hsig)) as Hlen.
  destruct (check_tokens_typed od (corpus_of od) (py_split (value_str_of value)) Hod)
    as (tlogs & Htok & Htlogs).
  fold (significant_tokens value) in Htok.
  unfold _check_consistency_with_ocr. fold (value_str_of value).
  rewrite Hlen, ocr_corpus_typed by done. cbn [mbind result_bind].
  destruct value as [|s|items]; [| | done]; rewrite Htok; cbn [mbind result_bind];
    (eexists; split; [reflexivity |]).
  all: unfold suspected_invention;
    set (sig := significant_tokens _) in *; set (vs := value_str_of _) in *.
  all: rewrite <- filter_in_nil.
  all: pose proof (filter_not_in_all (corpus_of od) sig) as Hnf.
  all: destruct (filter (λ t, py_in t (corpus_of od) = true) sig) as [|t0 tf]
         eqn:Htf;
    [rewrite Hnf by (by apply filter_in_nil) |].
  all: rewrite !elem_of_app.
  all: try rewrite bool_decide_eq_false_2 by (by intros []).
  all: try rewrite (bool_decide_eq_true_2 (sig ≠ [])) by done.
  all: try rewrite (bool_decide_eq_true_2 (t0 :: tf ≠ [])) by done.
  1,3: split; [done | intros _; do 4 right; left].
  all: split; [| done].
  all: intros [H | [H | [H | [H | H]]]]; exfalso; revert H;
    apply not_flag_elem; try done; no_flag.
Qed.

Lemma check_components_spec field corpus items :
  ∃ logs,
    check_components field corpus items
    = (length (found_in corpus items), length (populated items), logs)
    ∧ Forall (λ m, ¬ is_flag m) logs.
Proof.
  unfold found_in, populated.
  induction items as [|[key val] items (logs & IH & Hlogs)]; [by exists [] |].
  cbn [check_components]. rewrite IH, filter_cons. cbn [snd].
  destruct (nonblank val).
  - rewrite decide_True by done. rewrite filter_cons. cbn [snd].
    fold (value_str_of val).
    destruct (py_in (value_str_of val) corpus).
    + rewrite decide_True by done. eexists. split; [done |].
      constructor; [by intros [] | done].
    + rewrite decide_False by done. eexists. split; [done |].
      constructor; [by intros [] | done].
  - rewrite decide_False by done. by exists logs.
Qed.

Lemma date_coherence_no_flag self today field date_dict :
  Forall (λ m, ¬ is_flag m) (_check_date_coherence self today field date_dict).2.
Proof.
  unfold _check_date_coherence, future_date_msgs.
  repeat (case_match; cbn [snd]); rewrite ?Forall_app; repeat split;
    repeat constructor; auto.
Qed.

Lemma py_strip_bracketed c1 l c2 :
  py_isspace c1 = false → py_isspace c2 = false →
  py_strip (str_of (c1 :: l ++ [c2])) = str_of (c1 :: l ++ [c2]).
Proof.
  intros H1 H2. unfold py_strip. rewrite chars_str_of. f_equal.
  cbn [lstrip_chars]. rewrite H1.
  assert (reverse (c1 :: l ++ [c2]) = c2 :: reverse (c1 :: l)) as E
    by (by rewrite app_comm_cons, reverse_app).
  rewrite E. cbn [lstrip_chars]. rewrite H2, <- E.
  apply reverse_involutive.
Qed.

Lemma py_join_length sep p rest : py_len p ≤ py_len (py_join sep (p :: rest)).
Proof.
  destruct rest as [|q rest]; [done |].
  change (py_join sep (p :: q :: rest)) with (p +:+ sep +:+ py_join sep (q :: rest)).
  rewrite !py_len_chars, chars_app, length_app. lia.
Qed.

Lemma repr_str_length s : 2 ≤ py_len (repr_str s).
Proof.
  unfold repr_str. rewrite py_len_str_of, !length_app. simpl. lia.
Qed.

(** The string of a non-empty dict is longer than 3 characters, so the
    check of a non-empty dict value never stops early. *)
Lemma dict_value_str_long items :
  items ≠ [] → 3 < py_len (value_str_of (PDict items)).
Proof.
  intros Hne. destruct items as [|[k x] items]; [done |].
  unfold value_str_of. cbn [py_str py_repr].
  match goal with
  | |- context [py_join ", " ?es] => set (body := py_join ", " es)
  end.
  assert (4 ≤ py_len body) as Hbody.
  { subst body. etrans; [| apply py_join_length].
    rewrite py_len_chars, !chars_app, !length_app, <- py_len_chars.
    pose proof (repr_str_length k). change (length (chars ": ")) with 2. lia. }
  assert (py_lower ("{" +:+ body +:+ "}")
          = str_of ("{"%char :: (lower_char <$> chars body) ++ ["}"%char])) as ->.
  { apply chars_inj. rewrite chars_py_lower, chars_str_of, !chars_app.
    simpl. by rewrite fmap_app. }
  rewrite py_strip_bracketed by done.
  rewrite py_len_str_of. cbn [length]. rewrite length_app, length_fmap.
  rewrite <- py_len_chars. simpl. lia.
Qed.

Lemma Q2Qc_lt (p q : Q) : (Q2Qc p < Q2Qc q)%Qc ↔ (p < q)%Q.
Proof. unfold Qclt. simpl. by rewrite !Qred_correct. Qed.

(** Fewer than half: [found / total < 0.5]. *)
Lemma ratio_lt_half found total :
  0 < total → (ratio found total < Q2Qc (5 # 10))%Qc ↔ 2 * found < total.
Proof.
  intros Hpos. unfold ratio. rewrite Q2Qc_lt. unfold Qlt. simpl.
  rewrite Zpos_of_nat by done. lia.
Qed.

(** The check on a dict value, for string span texts: it returns, and the
    composite field is flagged exactly when fewer than half of its populated
    components are found verbatim in the corpus. *)
Lemma consistency_dict self today field items od :
  spans_have_text od →
  ∃ self' logs,
    _check_consistency_with_ocr self today field (PDict items) od
    = Ok (self', logs)
    ∧ (suspect_composite field logs ↔
       2 * length (found_in (corpus_of od) items) < length (populated items)).
Proof.
  intros Hod. unfold suspect_composite.
  destruct (decide (items = [])) as [-> | Hne].
  { exists self, [ValueTooShort field]. split; [done |].
    split; [| by (cbn; lia)].
    intros [? | H]%elem_of_cons; [done | by apply elem_of_nil in H]. }
  pose proof (value_str_checked _ (dict_value_str_long items Hne)) as Hlen.
  unfold _check_consistency_with_ocr. fold (value_str_of (PDict items)).
  rewrite Hlen, ocr_corpus_typed by done. cbn [mbind result_bind]. clear Hlen.
  destruct (check_components_spec field (corpus_of od) items)
    as (clogs & -> & Hclogs).
  pose proof (date_coherence_no_flag self today field items) as Hdate.
  destruct (_check_date_coherence self today field items) as [self1 dlogs].
  cbn [snd] in Hdate.
  set (found := length (found_in (corpus_of od) items)).
  set (total := length (populated items)).
  match goal with
  | |- context [if ?c then (self1, dlogs) else (self, [])] =>
      assert (∃ self' date_logs,
                (if c then (self1, dlogs) else (self, [])) = (self', date_logs)
                ∧ Forall (λ m, ¬ is_flag m) date_logs)
        as (self' & date_logs & -> & Hdl)
        by (destruct c; eexists _, _; split; try done; constructor)
  end.
  eexists _, _. split; [reflexivity |].
  rewrite !elem_of_app.
  destruct (decide (0 < total)) as [Hpos | Hpos].
  - rewrite (bool_decide_eq_true_2 (0 < total)) by done.
    rewrite <- (ratio_lt_half found total) by done.
    case_bool_decide as Hr.
    + split; [done |]. intros _. do 3 right. right. left.
    + split; [| done]. clear Hr.
      intros [H | [H | [H | H]]]; exfalso; revert H;
        apply not_flag_elem; try done; no_flag.
  - rewrite (bool_decide_eq_false_2 (0 < total)) by done.
    split; [| lia].
    intros [H | [H | [H | H]]]; exfalso; revert H;
      apply not_flag_elem; try done; no_flag.
Qed.

(** With string span texts the check never raises. *)
Lemma consistency_returns self today field value od :
  spans_have_text od →
  returns (_check_consistency_with_ocr self today field value od).
Proof.
  intros Hod. destruct value as [|s|items].
  3: { destruct (consistency_dict self today field items od Hod)
         as (self' & logs & H & _). by eexists. }
  all: unfold _check_consistency_with_ocr; case_match; [by eexists |];
    rewrite ocr_corpus_typed by done; cbn [mbind result_bind];
    match goal with
    | |- context [check_tokens ?o ?c ?t] =>
        destruct (check_tokens_typed o c t Hod) as (tlogs & -> & _)
    end; by eexists.
Qed.

Lemma accuracy_loop_returns self today od items acc :
  spans_have_text od → returns (accuracy_loop self today od items acc).
Proof.
  intros Hod. revert self acc.
  induction items as [|[key value] items IH]; intros self acc; [by eexists |].
  cbn [accuracy_loop].
  destruct (py_in "confidences" key || py_in "confidence" key); [apply IH |].
  destruct (nonblank value); [| apply IH].
  destruct acc as [[valid total] invalid].
  destruct (consistency_returns self today (last_segment key) value od Hod)
    as [r ->].
  apply IH.
Qed.

(** An exception of the consistency check of one field leaves the loop: no
    later field is checked and no result is built. *)
Lemma accuracy_loop_propagates self today od items acc kv :
  kv ∈ items → format_checked kv = true →
  (∀ self0, ¬ returns (_check_consistency_with_ocr self0 today
                         (last_segment kv.1) kv.2 od)) →
  ¬ returns (accuracy_loop self today od items acc).
Proof.
  intros Hin Hchecked Hraise. revert self acc.
  induction items as [|[key value] items IH]; intros self acc;
    [by apply elem_of_nil in Hin |].
  apply elem_of_cons in Hin as [-> | Hin].
  - unfold format_checked in Hchecked. cbn [fst snd] in *.
    apply andb_true_iff in Hchecked as [Hc%negb_true_iff Hn].
    cbn [accuracy_loop]. rewrite Hc, Hn. destruct acc as [[valid total] invalid].
    destruct (_check_consistency_with_ocr self today (last_segment key) value od)
      as [r|e] eqn:E.
    + destruct (Hraise self). rewrite E. by eexists.
    + by intros [? ?].
  - cbn [accuracy_loop].
    destruct (py_in "confidences" key || py_in "confidence" key);
      [by apply IH |].
    destruct (nonblank value); [| by apply IH].
    destruct acc as [[valid total] invalid].
    destruct (_check_consistency_with_ocr _ _ _ _ _) as [r|e].
    + by apply IH.
    + by intros [? ?].
Qed.

(** ** Exceptions and advisory flags: what the caller sees *)

Lemma sample_ocr_typed : spans_have_text sample_ocr.
Proof. repeat constructor; by eexists. Qed.

(** C2, as stated, fails: with a span text that is not a string the
    consistency check of the first field raises, nothing catches the
    exception and [validate_extracted_data] raises it to its caller.  So does
    the run on the same OCR result as an object, on an OCR result whose text
    is [None], and on one whose average confidence is [None]. *)
Lemma validate_extracted_data_raises :
  validate_extracted_data sample_validator sample_today sample_form untyped_ocr
  = Raise (Exn AttributeError "'NoneType' object has no attribute 'lower'")
  ∧ ¬ returns (validate_extracted_data sample_validator sample_today
                 sample_form untyped_ocr)
  ∧ Raw.validate_extracted_data sample_limits sample_validator sample_today
      sample_form (ocr_dict untyped_ocr)
    = Raise (Exn AttributeError "'NoneType' object has no attribute 'lower'")
  ∧ Raw.validate_extracted_data sample_limits sample_validator sample_today
      sample_form none_text_ocr
    = Raise (Exn TypeError "'NoneType' object is not iterable")
  ∧ Raw.validate_extracted_data sample_limits sample_validator sample_today
      sample_form none_confidence_ocr
    = Raise (Exn TypeError
               "unsupported operand type(s) for *: 'NoneType' and 'int'").
Proof. split_and!; try (by vm_compute). by intros [? ?]. Qed.

(** C4, as stated, fails in its last part: the check raises when a span text
    is not a string, and when the text of the OCR result is [None]. *)
Lemma check_consistency_raises :
  _check_consistency_with_ocr sample_validator sample_today "firstName"
    (PStr "John") untyped_ocr
  = Raise (Exn AttributeError "'NoneType' object has no attribute 'lower'")
  ∧ Raw._check_consistency_with_ocr sample_limits sample_validator
      sample_today "firstName" (PStr "John") (ocr_dict untyped_ocr)
    = Raise (Exn AttributeError "'NoneType' object has no attribute 'lower'")
  ∧ Raw._check_consistency_with_ocr sample_limits sample_validator
      sample_today "firstName" (PStr "John") none_text_ocr
    = Raise (Exn TypeError "'NoneType' object is not iterable").
Proof. split_and!; by vm_compute. Qed.

(** "John" is in that OCR text: it is not flagged. *)
Lemma john_not_flagged :
  ∃ logs,
    _check_consistency_with_ocr sample_validator sample_today "firstName"
      (PStr "John") sample_ocr = Ok (sample_validator, logs)
    ∧ ¬ suspected_invention "firstName" (PStr "John") logs.
Proof.
  destruct (consistency_scalar sample_validator sample_today "firstName"
              (PStr "John") sample_ocr sample_ocr_typed I)
    as (logs & Hlogs & Hiff); [by vm_compute |].
  exists logs. split; [done |]. rewrite Hiff. intros Hall.
  by specialize (Hall "john" ltac:(by vm_compute; left)).
Qed.

(** ** OCR-only validation *)

(** A table among the elements makes the spatial check of the first span
    raise: a table is a list and has no [get]. *)
Lemma validate_extraction_table_raises :
  validate_extraction
    (OcrData (Some [Span (Some (PStr "ok")) (Some (Q2Qc 1)) None])
       (Some [[Cell "cell" 0 0 None]]) None)
  = Raise (Exn AttributeError "'list' object has no attribute 'get'").
Proof. by vm_compute. Qed.

Lemma overlaps_of_spans bbox spans :
  returns (overlaps_of bbox (ElSpan <$> spans)).
Proof.
  induction spans as [|sp spans [os IH]]; [by eexists |].
  rewrite fmap_cons. cbn [overlaps_of element_bounding_box mbind result_bind].
  case_decide; [by eexists |]. rewrite IH. by eexists.
Qed.

Lemma spatial_coherence_spans bbox spans :
  returns (_validate_spatial_coherence bbox (ElSpan <$> spans)).
Proof.
  unfold _validate_spatial_coherence. case_decide; [by eexists |].
  destruct (overlaps_of_spans bbox spans) as [os ->]. by eexists.
Qed.

Lemma spatial_of_spec spans sp :
  _validate_spatial_coherence (span_bounding_box sp) (ElSpan <$> spans)
  = Ok (spatial_of spans sp).
Proof.
  unfold spatial_of.
  by destruct (spatial_coherence_spans (span_bounding_box sp) spans) as [q ->].
Qed.

Lemma score_loop_spans spans sub :
  Forall (λ sp, ∃ s, span_text sp = PStr s) sub →
  score_loop sub (ElSpan <$> spans)
  = Ok (span_confidence <$> sub, spatial_of spans <$> sub).
Proof.
  induction 1 as [|sp sub [s Hs] _ IH]; [done |].
  cbn [score_loop]. rewrite Hs, spatial_of_spec, IH. done.
Qed.

Lemma mapM_total {A B} (f : A → result B) (g : A → B) l :
  (∀ a, f a = Ok (g a)) → mapM f l = Ok (g <$> l).
Proof.
  intros H. induction l as [|a l IH]; [done |].
  cbn [mapM]. by rewrite H, IH.
Qed.

(** Up to twenty spans with string texts and no table: the result is the
    one the spec describes. *)
Lemma validate_extraction_at_most_twenty od :
  default [] (od_tables od) = [] → length (text_spans od) ≤ 20 →
  spans_have_text od →
  ∃ r,
    validate_extraction od = Ok r
    ∧ global_confidence r = claimed_global_confidence (text_spans od)
    ∧ confidence_valid <$> validated_spans r
      = (λ sp, bool_decide (min_confidence_threshold ≤ span_confidence sp)%Qc)
        <$> text_spans od.
Proof.
  intros Htables Hlen Htyped. unfold validate_extraction. cbv zeta.
  rewrite Htables, fmap_nil, app_nil_r, take_ge by done.
  rewrite score_loop_spans by done. cbn [mbind result_bind fst snd].
  erewrite mapM_total; [| intros sp; by rewrite spatial_of_spec].
  cbn [mbind result_bind]. eexists. split; [done |].
  cbn [validated_spans global_confidence].
  split; [done |]. by rewrite <- !list_fmap_compose.
Qed.

(** C3: with at most 20 spans (string texts, no table) the global confidence
    is the equal-weight average of the mean confidence and of the mean
    spatial score over the text spans, and each span gets its boolean.  With
    21 spans the loop that collects the scores stops after the first 20
    ([text_spans[:20]]); the confidence 0 of the last span is left out of the
    average, so the global confidence is 1 and not 41/42, the average over
    all the spans; the per-span booleans cover the 21 spans. *)
Theorem validate_extraction_first_twenty :
  (∀ od,
     default [] (od_tables od) = [] → length (text_spans od) ≤ 20 →
     spans_have_text od →
     ∃ r,
       validate_extraction od = Ok r
       ∧ global_confidence r = claimed_global_confidence (text_spans od)
       ∧ confidence_valid <$> validated_spans r
         = (λ sp, bool_decide (min_confidence_threshold ≤ span_confidence sp)%Qc)
           <$> text_spans od)
  ∧ ∃ r,
      validate_extraction (OcrData (Some twenty_one_spans) None None) = Ok r
      ∧ length (validated_spans r) = 21
      ∧ confidence_valid <$> validated_spans r = replicate 20 true ++ [false]
      ∧ average_confidence r = Q2Qc 1
      ∧ mean_confidence twenty_one_spans = Q2Qc (20 # 21)
      ∧ mean_spatial_score twenty_one_spans = Q2Qc 1
      ∧ global_confidence r = Q2Qc 1
      ∧ claimed_global_confidence twenty_one_spans = Q2Qc (41 # 42).
Proof.
  split; [apply validate_extraction_at_most_twenty |].
  eexists. split; [by vm_compute |].
  split_and!; try (apply Qc_is_canon); by vm_compute.
Qed.

(** ** No mutation of the arguments *)

Module ObjectFacts.
Import Objects.

Lemma fresh_loc_above (h : heap) l :
  is_Some (h !! l) → (l < fresh_loc h)%positive.
Proof.
  unfold fresh_loc. revert l.
  apply (map_fold_weak_ind
           (λ r (m : heap), ∀ l, is_Some (m !! l) → (l < r)%positive)).
  - intros l [o H]. by rewrite lookup_empty in H.
  - intros i x m r Hi IH l Hl.
    destruct (decide (l = i)) as [-> | Hne]; [lia |].
    rewrite lookup_insert_ne in Hl by done. specialize (IH l Hl). lia.
Qed.

Lemma fresh_loc_fresh (h : heap) : h !! fresh_loc h = None.
Proof.
  destruct (h !! fresh_loc h) as [o|] eqn:H; [| done].
  assert (fresh_loc h < fresh_loc h)%positive by (apply fresh_loc_above; eauto).
  lia.
Qed.

Section frame.
(** [h0] is the store when the call starts. *)
Context (h0 : heap).

Lemma hoare_ret {A} (P : heap → Prop) (a : A) : hoare h0 P (mret a) (λ a' h, a' = a ∧ P h).
Proof. intros h Hh HP. split; [done |]. by intros a' [= <-]. Qed.

Lemma hoare_raise {A} (P : heap → Prop) e (Q : A → heap → Prop) :
  hoare h0 P (raise e) Q.
Proof. intros h Hh HP. by split. Qed.

Lemma hoare_bind {A B} P (m : prog A) R (k : A → prog B) Q :
  hoare h0 P m R → (∀ a, hoare h0 (R a) (k a) Q) → hoare h0 P (m ≫= k) Q.
Proof.
  intros Hm Hk h Hh HP. destruct (Hm h Hh HP) as [Hh' HR].
  unfold mbind, prog_bind. destruct (m h) as [h' [a|e]]; [| by split].
  cbn in *. by apply Hk, HR.
Qed.

Lemma hoare_conseq {A} (P P' : heap → Prop) (m : prog A) (Q Q' : A → heap → Prop) :
  hoare h0 P' m Q' → (∀ h, P h → P' h) → (∀ a h, Q' a h → Q a h) → hoare h0 P m Q.
Proof.
  intros Hm HP HQ h Hh Hp. destruct (Hm h Hh (HP h Hp)) as [Hh' Hq].
  split; [done |]. intros a Ha. by apply HQ, Hq.
Qed.

(** A fact that follows from the precondition may be assumed. *)
Lemma hoare_assume {A} (P : heap → Prop) (fact : Prop) (m : prog A) Q :
  (∀ h, P h → fact) → (fact → hoare h0 P m Q) → hoare h0 P m Q.
Proof. intros Hfact Hm h Hh HP. apply Hm; [by eapply Hfact | done | done]. Qed.

Lemma hoare_readonly {A} P (m : prog A) :
  readonly m → hoare h0 P m (λ a h, P h ∧ (m h).2 = Ok a).
Proof.
  intros Hm h Hh HP. split; [by rewrite Hm |]. intros a Ha. by rewrite !Hm.
Qed.

Lemma readonly_load l : readonly (load l).
Proof. intros h. unfold load. by destruct (h !! l). Qed.

Lemma readonly_bind {A B} (m : prog A) (k : A → prog B) :
  readonly m → (∀ a, readonly (k a)) → readonly (m ≫= k).
Proof.
  intros Hm Hk h. unfold mbind, prog_bind. specialize (Hm h).
  destruct (m h) as [h' [a|e]]; cbn in *; subst; [apply Hk | done].
Qed.

Lemma readonly_ret {A} (a : A) : readonly (mret a : prog A).
Proof. done. Qed.

Lemma readonly_raise {A} e : readonly (raise e : prog A).
Proof. done. Qed.

Lemma readonly_dict_items d : readonly (dict_items d).
Proof.
  apply readonly_bind; [apply readonly_load |]. by intros [].
Qed.

Lemma readonly_getitem d k : readonly (getitem d k).
Proof.
  apply readonly_bind; [apply readonly_load |].
  intros [items|elems]; [| done]. by destruct (dict_get k items).
Qed.

Lemma readonly_get_default d k v : readonly (get_default d k v).
Proof. apply readonly_bind; [apply readonly_load |]. by intros []. Qed.

Lemma readonly_deref v : readonly (deref v).
Proof. by destruct v. Qed.

Lemma readonly_as_num v : readonly (as_num v).
Proof. by destruct v. Qed.

Lemma readonly_is_dict v : readonly (is_dict v).
Proof.
  destruct v; try done. apply readonly_bind; [apply readonly_load | done].
Qed.

(** What a successful [getitem] tells about the store. *)
Lemma getitem_Ok d k h v :
  (getitem d k h).2 = Ok v →
  ∃ items, h !! d = Some (HDict items) ∧ dict_get k items = Some v.
Proof.
  unfold getitem, load, mbind, prog_bind.
  destruct (h !! d) as [[items|elems]|]; cbn; try done.
  destruct (dict_get k items) as [v'|] eqn:E; cbn; [| done].
  intros [= <-]. by exists items.
Qed.

Lemma deref_Ok v h l : (deref v h).2 = Ok l → v = HRef l.
Proof. destruct v; cbn; try done. by intros [= <-]. Qed.

(** Allocation. *)
Lemma hoare_new P o (Q : loc → heap → Prop) :
  (∀ h l, P h → h0 ⊆ h → h !! l = None → Q l (<[l := o]> h)) →
  hoare h0 P (new o) (λ l h, h0 !! l = None ∧ Q l h).
Proof.
  intros HQ h Hh HP. unfold new. cbn.
  pose proof (fresh_loc_fresh h) as Hfresh. split.
  - by apply insert_subseteq_r; [eapply lookup_weaken_None |].
  - intros l [= <-]. split; [by eapply lookup_weaken_None | by apply HQ].
Qed.

(** In-place updates of an object that [h0] does not have. *)
Lemma hoare_setitem P d k v (Q : heap → Prop) :
  h0 !! d = None →
  (∀ h items, P h → h0 ⊆ h → h !! d = Some (HDict items) →
              Q (<[d := HDict (dict_set k v items)]> h)) →
  hoare h0 P (setitem d k v) (λ _, Q).
Proof.
  intros Hd HQ h Hh HP. unfold setitem, load, store, mbind, prog_bind.
  destruct (h !! d) as [[items|elems]|] eqn:E; cbn; try by split.
  split; [by apply insert_subseteq_r |]. intros _ _. by apply HQ.
Qed.

Lemma hoare_append P l v (Q : heap → Prop) :
  h0 !! l = None →
  (∀ h elems, P h → h0 ⊆ h → h !! l = Some (HList elems) →
              Q (<[l := HList (elems ++ [v])]> h)) →
  hoare h0 P (append l v) (λ _, Q).
Proof.
  intros Hl HQ h Hh HP. unfold append, load, store, mbind, prog_bind.
  destruct (h !! l) as [[items|elems]|] eqn:E; cbn; try by split.
  split; [by apply insert_subseteq_r |]. intros _ _. by apply HQ.
Qed.

Lemma hoare_for_each {A} (P : heap → Prop) (l : list A) body :
  (∀ a, a ∈ l → hoare h0 P (body a) (λ _, P)) →
  hoare h0 P (for_each l body) (λ _, P).
Proof.
  induction l as [|a l IH]; intros Hbody.
  - eapply hoare_conseq; [apply hoare_ret | done | by intros ? ? [_ ?]].
  - cbn [for_each]. eapply hoare_bind; [apply Hbody; left |].
    intros ?. apply IH. intros a' ?. apply Hbody. by right.
Qed.
End frame.

(** [_flatten_dict] builds a new dict and changes no object of the store. *)
Lemma flatten_dict_extends depth d parent_key :
  extends (_flatten_dict depth d parent_key).
Proof.
  revert d parent_key. induction depth as [|depth IH]; intros d parent_key h.
  { by split. }
  assert (hoare h (λ _, True) (_flatten_dict (S depth) d parent_key)
            (λ l _, h !! l = None)) as H.
  { cbn [_flatten_dict].
    eapply hoare_bind; [apply (hoare_new h _ _ (λ _ _, True)); done |].
    intros items. cbn beta.
    apply (hoare_assume _ _ (h !! items = None)); [by intros ? [? ?] |].
    intros Hitems.
    eapply hoare_conseq with (P' := λ _, True) (Q' := λ l _, h !! l = None);
      [| done | done].
    eapply hoare_bind with (R := λ _ _, True).
    { eapply hoare_conseq; [apply (hoare_readonly h (λ _, True)), readonly_dict_items | |];
        done. }
    intros entries. cbn beta.
    eapply hoare_bind with (R := λ _ _, True).
    - apply hoare_for_each. intros [k v] _. cbn [fst snd].
      eapply hoare_bind with (R := λ _ _, True).
      { eapply hoare_conseq; [apply (hoare_readonly h (λ _, True)), readonly_is_dict | |];
          done. }
      intros [|]; cbn beta iota.
      + eapply hoare_bind with (R := λ _ _, True).
        { eapply hoare_conseq; [apply (hoare_readonly h (λ _, True)), readonly_deref | |];
            done. }
        intros l. cbn beta.
        eapply hoare_bind with (R := λ _ _, True).
        { intros h' Hh' HP. destruct (IH l (join_key parent_key k) h') as [Hext _].
          split; [by etrans | done]. }
        intros flat.
        eapply hoare_bind with (R := λ _ _, True).
        { eapply hoare_conseq; [apply (hoare_readonly h (λ _, True)), readonly_dict_items | |];
            done. }
        intros flat_entries. cbn beta.
        apply hoare_for_each. intros [k' v'] _.
        by apply hoare_setitem.
      + by apply hoare_setitem.
    - intros ?.
      eapply hoare_conseq; [apply (hoare_ret h (λ _, True)) | done |].
      by intros res h' [-> _]. }
  destruct (H h) as [Hext Hfresh]; [done | done |]. split; [done |].
  intros l Hl. by apply Hfresh.
Qed.

Lemma dict_get_set_ne {V} (k k' : string) (v : V) d :
  k' ≠ k → dict_get k (dict_set k' v d) = dict_get k d.
Proof.
  intros Hne. induction d as [|[k0 v0] d IH]; simpl.
  - by rewrite decide_False.
  - destruct (decide (k0 = k')) as [-> | H0]; simpl.
    + by rewrite !decide_False.
    + by rewrite IH.
Qed.

Lemma points_mono h h' d k t : points h d k t → h ⊆ h' → points h' d k t.
Proof.
  intros (items & Hd & Hk) Hsub. exists items. split; [| done].
  by eapply lookup_weaken.
Qed.

Lemma points_alloc h d k t l o :
  points h d k t → h !! l = None → points (<[l := o]> h) d k t.
Proof. intros H Hl. eapply points_mono; [done |]. by apply insert_subseteq. Qed.

Lemma points_setitem h d k t d' k' v items' :
  points h d k t → h !! d' = Some (HDict items') → k' ≠ k →
  points (<[d' := HDict (dict_set k' v items')]> h) d k t.
Proof.
  intros (items & Hd & Hk) Hd' Hne. destruct (decide (d' = d)) as [-> | Hdd].
  - rewrite Hd in Hd'. injection Hd' as <-.
    eexists. rewrite lookup_insert_eq. split; [done |].
    by rewrite dict_get_set_ne.
  - exists items. by rewrite lookup_insert_ne.
Qed.

Lemma points_append h d k t l elems v :
  points h d k t → h !! l = Some (HList elems) →
  points (<[l := HList (elems ++ [v])]> h) d k t.
Proof.
  intros (items & Hd & Hk) Hl. exists items. split; [| done].
  rewrite lookup_insert_ne; [done |]. intros ->. congruence.
Qed.

Lemma points_functional h d k t t' :
  points h d k t → points h d k t' → t = t'.
Proof. intros (items & Hd & Hk) (items' & Hd' & Hk'). congruence. Qed.

Section result.
(** [h0] is the store when [validate_extracted_data] starts; the result
    dict [vr], its sections [c] (completeness) and [a] (accuracy) and the
    lists [mr] (missing_required) and [inv] (invalid_fields) are objects
    that [h0] does not have. *)
Context (h0 : heap) (vr c a mr inv : loc).
Context (Hc : h0 !! c = None) (Ha : h0 !! a = None).
Context (Hmr : h0 !! mr = None) (Hinv : h0 !! inv = None).

Local Abbreviation kept := (result_inv vr c a mr inv).

Lemma result_inv_mono h h' : kept h → h ⊆ h' → kept h'.
Proof. intros (? & ? & ? & ?) ?. repeat split; by eapply points_mono. Qed.

Lemma result_inv_setitem h d k v items :
  kept h → h !! d = Some (HDict items) → untracked k →
  kept (<[d := HDict (dict_set k v items)]> h).
Proof.
  intros (? & ? & ? & ?) Hd Hk. unfold untracked in Hk.
  repeat split; apply points_setitem; try done; set_solver.
Qed.

Lemma result_inv_append h l elems v :
  kept h → h !! l = Some (HList elems) →
  kept (<[l := HList (elems ++ [v])]> h).
Proof. intros (? & ? & ? & ?) Hl. repeat split; by apply points_append. Qed.

Lemma result_inv_alloc h l o :
  kept h → h !! l = None → kept (<[l := o]> h).
Proof. intros (? & ? & ? & ?) Hl. repeat split; by apply points_alloc. Qed.

Lemma hoare_section section :
  section ∈ ["completeness"; "accuracy"] →
  hoare h0 kept (getitem vr section ≫= deref)
    (λ s h, kept h ∧ section_loc c a section s).
Proof.
  intros Hsec h Hh HI.
  assert (readonly (getitem vr section ≫= deref)) as Hro
    by (apply readonly_bind; [apply readonly_getitem | apply readonly_deref]).
  split; [by rewrite Hro |]. intros s Hs. rewrite Hro. split; [done |].
  unfold mbind, prog_bind in Hs.
  pose proof (getitem_Ok vr section h) as Hget.
  pose proof (readonly_getitem vr section h) as Hsame.
  destruct (getitem vr section h) as [h' [v|e]]; [| done].
  cbn in Hsame. subst h'. apply deref_Ok in Hs as ->.
  destruct (Hget _ eq_refl) as (items & Hvr & Hk).
  destruct HI as (Hpc & Hpa & _ & _).
  apply elem_of_cons in Hsec as [-> | Hsec]; [left | right].
  - split; [done |]. eapply points_functional; [| exact Hpc]. by exists items.
  - apply list_elem_of_singleton in Hsec as ->.
    split; [done |]. eapply points_functional; [| exact Hpa]. by exists items.
Qed.

Lemma section_loc_fresh section s : section_loc c a section s → h0 !! s = None.
Proof. by intros [[_ ->] | [_ ->]]. Qed.

Lemma hoare_set_field section key v :
  section ∈ ["completeness"; "accuracy"] → untracked key →
  hoare h0 kept (set_field vr section key v) (λ _, kept).
Proof.
  intros Hsec Hkey. unfold set_field.
  eapply hoare_bind; [by apply hoare_section |].
  intros s. apply (hoare_assume _ _ (section_loc c a section s)); [by intros ? [_ ?] |].
  intros Hs%section_loc_fresh. apply hoare_setitem; [done |].
  intros h items [HI _] _ Hd. by apply result_inv_setitem.
Qed.

Lemma hoare_increment section key :
  section ∈ ["completeness"; "accuracy"] → untracked key →
  hoare h0 kept (increment vr section key) (λ _, kept).
Proof.
  intros Hsec Hkey. unfold increment.
  eapply hoare_bind; [by apply hoare_section |].
  intros s. apply (hoare_assume _ _ (section_loc c a section s)); [by intros ? [_ ?] |].
  intros Hs%section_loc_fresh.
  eapply hoare_bind.
  { apply hoare_readonly.
    apply readonly_bind; [apply readonly_getitem | apply readonly_as_num]. }
  intros n. apply hoare_setitem; [done |].
  intros h items [[HI _] _] _ Hd. by apply result_inv_setitem.
Qed.

Lemma hoare_sub_object section key :
  (section = "completeness" ∧ key = "missing_required")
  ∨ (section = "accuracy" ∧ key = "invalid_fields") →
  hoare h0 kept (sub_object vr section key)
    (λ l h, kept h ∧ h0 !! l = None).
Proof.
  intros Hsk. unfold sub_object.
  eapply hoare_bind.
  { apply hoare_section. destruct Hsk as [[-> _] | [-> _]]; set_solver. }
  intros s. apply (hoare_assume _ _ (section_loc c a section s)); [by intros ? [_ ?] |].
  intros Hs h Hh [HI _].
  assert (readonly (getitem s key ≫= deref)) as Hro
    by (apply readonly_bind; [apply readonly_getitem | apply readonly_deref]).
  split; [by rewrite Hro |]. intros l Hl. rewrite Hro. split; [done |].
  unfold mbind, prog_bind in Hl.
  pose proof (getitem_Ok s key h) as Hget.
  pose proof (readonly_getitem s key h) as Hsame.
  destruct (getitem s key h) as [h' [v|e]]; [| done].
  cbn in Hsame. subst h'. apply deref_Ok in Hl as ->.
  destruct (Hget _ eq_refl) as (items & Hd & Hk).
  destruct HI as (_ & _ & Hpm & Hpi).
  destruct Hsk as [[-> ->] | [-> ->]], Hs as [[? ->] | [? ->]]; try done.
  - assert (l = mr) as -> by (eapply points_functional; [| exact Hpm]; by exists items).
    done.
  - assert (l = inv) as -> by (eapply points_functional; [| exact Hpi]; by exists items).
    done.
Qed.

Lemma hoare_append_to section key v :
  (section = "completeness" ∧ key = "missing_required")
  ∨ (section = "accuracy" ∧ key = "invalid_fields") →
  hoare h0 kept (l ← sub_object vr section key; append l v)
    (λ _, kept).
Proof.
  intros Hsk. eapply hoare_bind; [by apply hoare_sub_object |].
  intros l. apply (hoare_assume _ _ (h0 !! l = None)); [by intros ? [_ ?] |].
  intros Hl. apply hoare_append; [done |].
  intros h elems [HI _] _ Hd. by apply result_inv_append.
Qed.

Lemma hoare_required_step field kv :
  hoare h0 kept (required_step vr field kv) (λ _, kept).
Proof.
  unfold required_step. case_match.
  - apply hoare_append_to. by left.
  - eapply hoare_conseq; [apply (hoare_ret h0 kept) | done |].
    by intros ? ? [_ ?].
Qed.

Lemma hoare_accuracy_loop od today entries self :
  hoare h0 kept (accuracy_loop vr od today entries self)
    (λ _, kept).
Proof.
  revert self. induction entries as [|[key value] entries IH]; intros self.
  { eapply hoare_conseq; [apply (hoare_ret h0 kept) | done |].
    by intros ? ? [_ ?]. }
  cbn [accuracy_loop].
  destruct (py_in "confidences" key || py_in "confidence" key); [apply IH |].
  destruct (nonblank (leaf value)); [| apply IH].
  eapply hoare_bind.
  { apply hoare_increment; [set_solver | unfold untracked; set_solver]. }
  intros ?. eapply hoare_bind with (R := λ _, kept).
  { eapply hoare_conseq; [apply (hoare_readonly h0 kept) | done |].
    - done.
    - by intros ? ? [? _]. }
  intros od'. eapply hoare_bind with (R := λ _, kept).
  { eapply hoare_conseq; [apply (hoare_readonly h0 kept) | done |].
    - done.
    - by intros ? ? [? _]. }
  intros r. eapply hoare_bind with (R := λ _, kept); [| intros ?; apply IH].
  destruct (validate_format _ _).
  - apply hoare_increment; [set_solver | unfold untracked; set_solver].
  - eapply hoare_bind with (R := λ _, kept).
    + eapply hoare_conseq;
        [apply (hoare_new h0 kept _ (λ _, kept)) | done |].
      * intros h l HI _ Hl. by apply result_inv_alloc.
      * by intros ? ? [_ ?].
    + intros entry. apply hoare_append_to. by right.
Qed.
End result.

Lemma hoare_validate_extracted_data h0 depth self today sd od :
  hoare h0 (λ _, True) (validate_extracted_data depth self today sd od)
    (λ res h,
       h0 !! res.2 = None
       ∧ ∃ c a, points h res.2 "completeness" c ∧ points h res.2 "accuracy" a
                ∧ h0 !! c = None ∧ h0 !! a = None).
Proof.
  unfold validate_extracted_data.
  eapply hoare_bind; [apply (hoare_new h0 _ _ (λ _ _, True)); done |].
  intros mr. apply (hoare_assume _ _ (h0 !! mr = None)); [by intros ? [? _] |].
  intros Hmr.
  eapply hoare_bind.
  { apply (hoare_new h0 _ _ (λ c h, points h c "missing_required" mr)).
    intros h c _ _ Hc. eexists. by rewrite lookup_insert_eq. }
  intros c. apply (hoare_assume _ _ (h0 !! c = None)); [by intros ? [? _] |].
  intros Hc.
  eapply hoare_bind.
  { apply (hoare_new h0 _ _ (λ _ h, points h c "missing_required" mr)).
    intros h inv [_ Hp] _ Hinv. by apply points_alloc. }
  intros inv. apply (hoare_assume _ _ (h0 !! inv = None)); [by intros ? [? _] |].
  intros Hinv.
  eapply hoare_bind.
  { apply (hoare_new h0 _ _ (λ a h, points h c "missing_required" mr
                                     ∧ points h a "invalid_fields" inv)).
    intros h a [_ Hp] _ Ha. split; [by apply points_alloc |].
    eexists. by rewrite lookup_insert_eq. }
  intros a. apply (hoare_assume _ _ (h0 !! a = None)); [by intros ? [? _] |].
  intros Ha.
  eapply hoare_bind.
  { apply hoare_readonly, readonly_get_default. }
  intros average.
  eapply hoare_bind.
  { apply (hoare_new h0 _ _ (λ _ h, points h c "missing_required" mr
                                     ∧ points h a "invalid_fields" inv)).
    intros h cf [[_ [Hp1 Hp2]] _] _ Hcf. split; by apply points_alloc. }
  intros cf.
  eapply hoare_bind.
  { apply (hoare_new h0 _ _ (λ vr h, result_inv vr c a mr inv h)).
    intros h vr [_ [Hp1 Hp2]] _ Hvr.
    repeat split; try (by apply points_alloc);
      eexists; by rewrite lookup_insert_eq. }
  intros vr. apply (hoare_assume _ _ (h0 !! vr = None)); [by intros ? [? _] |].
  intros Hvr.
  set (I := result_inv vr c a mr inv).
  eapply hoare_conseq with (P' := I)
    (Q' := λ res h, res.2 = vr ∧ I h); [| by intros ? [_ ?] |].
  2: { intros [self' r] h [Hr (Hpc & Hpa & _ & _)]. cbn in Hr. subst r.
       split; [done |]. by exists c, a. }
  eapply hoare_bind with (R := λ _, I).
  { intros h Hh HI.
    destruct (flatten_dict_extends depth sd "" h) as [Hext _].
    split; [by etrans |]. intros _ _. by eapply result_inv_mono. }
  intros flat_data.
  eapply hoare_bind with (R := λ _, I).
  { eapply hoare_conseq;
      [apply (hoare_readonly h0 I), readonly_dict_items | done |].
    by intros ? ? [? _]. }
  intros entries. cbv zeta.
  eapply hoare_bind with (R := λ _, I).
  { apply hoare_for_each. intros field _. apply hoare_for_each. intros kv _.
    by apply hoare_required_step. }
  intros ?.
  eapply hoare_bind with (R := λ _, I); [by apply hoare_accuracy_loop |].
  intros self'.
  assert (∀ section key v,
            section ∈ ["completeness"; "accuracy"] →
            untracked key →
            hoare h0 I (set_field vr section key v) (λ _, I)) as Hset.
  { intros. by apply hoare_set_field. }
  eapply hoare_bind with (R := λ _, I);
    [apply Hset; [set_solver | unfold untracked; set_solver] |].
  intros ?.
  eapply hoare_bind with (R := λ _, I);
    [apply Hset; [set_solver | unfold untracked; set_solver] |].
  intros ?.
  eapply hoare_bind with (R := λ _, I);
    [apply Hset; [set_solver | unfold untracked; set_solver] |].
  intros ?.
  eapply hoare_bind with (R := λ _, I).
  { eapply hoare_conseq; [apply (hoare_readonly h0 I) | done |].
    - apply readonly_bind; [apply readonly_getitem | apply readonly_deref].
    - by intros ? ? [? _]. }
  intros acc.
  eapply hoare_bind with (R := λ _, I).
  { eapply hoare_conseq; [apply (hoare_readonly h0 I) | done |].
    - apply readonly_bind; [apply readonly_getitem | apply readonly_as_num].
    - by intros ? ? [? _]. }
  intros valid_format.
  eapply hoare_bind with (R := λ _, I).
  { eapply hoare_conseq; [apply (hoare_readonly h0 I) | done |].
    - apply readonly_bind; [apply readonly_getitem | apply readonly_as_num].
    - by intros ? ? [? _]. }
  intros total.
  eapply hoare_bind with (R := λ _, I);
    [apply Hset; [set_solver | unfold untracked; set_solver] |].
  intros ?.
  eapply hoare_conseq; [apply (hoare_ret h0 I) | done |].
  by intros ? ? [-> ?].
Qed.

(** C10: [validate_extracted_data] changes no object of the store it is
    called in, whether it returns or raises: every object that exists before
    the call, so [structured_data], [ocr_data] and all that is nested in
    them, is the same afterwards.  The result is a new dict whose
    completeness and accuracy sections are new dicts, and [_flatten_dict]
    builds its dict anew without changing an object either. *)
Theorem validate_extracted_data_frame depth self today sd od (h : heap) :
  let out := validate_extracted_data depth self today sd od h in
  (∀ l o, h !! l = Some o → out.1 !! l = Some o)
  ∧ (∀ self' r, out.2 = Ok (self', r) →
       h !! r = None
       ∧ ∃ c a, points out.1 r "completeness" c ∧ points out.1 r "accuracy" a
                ∧ h !! c = None ∧ h !! a = None)
  ∧ (∀ parent_key,
       let flat := _flatten_dict depth sd parent_key h in
       (∀ l o, h !! l = Some o → flat.1 !! l = Some o)
       ∧ ∀ l, flat.2 = Ok l → h !! l = None).
Proof.
  intros out.
  destruct (hoare_validate_extracted_data h depth self today sd od h)
    as [Hext Hres]; [done | done |].
  split_and!.
  - by apply map_subseteq_spec.
  - intros self' r Hout. by apply (Hres (self', r)).
  - intros parent_key flat.
    destruct (flatten_dict_extends depth sd parent_key h) as [Hflat Hfresh].
    split; [by apply map_subseteq_spec | done].
Qed.

(** On the sample, the run on objects returns, stores the numbers of the
    run on values, and leaves the objects of the arguments as they were. *)
Lemma sample_store_run :
  ∃ h sd od h' r,
    sample_store = (h, Ok (sd, od))
    ∧ validate_extracted_data 50 sample_validator sample_today sd od h
      = (h', Ok (sample_validator, r))
    ∧ number_at h' r "completeness" "total_fields" = Some (10 # 1)%Q
    ∧ number_at h' r "completeness" "filled_fields" = Some (7 # 1)%Q
    ∧ number_at h' r "completeness" "score" = Some (7 # 10)%Q
    ∧ number_at h' r "accuracy" "total_fields" = Some (7 # 1)%Q
    ∧ number_at h' r "accuracy" "valid_format_fields" = Some (7 # 1)%Q
    ∧ (∀ l o, h !! l = Some o → h' !! l = Some o)
    ∧ h !! r = None.
Proof.
  eexists _, _, _, _, _. split; [by vm_compute |].
  split; [by vm_compute |].
  split; [by vm_compute |]. split; [by vm_compute |].
  split; [by vm_compute |]. split; [by vm_compute |].
  split; [by vm_compute |].
  match goal with
  | |- context [?h !! _ = Some _ → ?h' !! _ = Some _] =>
      destruct (hoare_validate_extracted_data h 50 sample_validator
                  sample_today 3%positive 8%positive h) as [Hkeep _];
        [done | done |]
  end.
  split.
  - intros l o Hl. eapply map_subseteq_spec in Hl; [| exact Hkeep].
    revert Hl. by vm_compute.
  - by vm_compute.
Qed.

End ObjectFacts.

(** * Further properties

    Properties of the functions beside the ones above, and of the functions
    around them. *)

(** ** Rational numbers *)

Lemma Qc_this_le (a b : Qc) : (a ≤ b)%Qc ↔ (this a <= this b)%Q.
Proof. done. Qed.

Lemma Qc_this_lt (a b : Qc) : (a < b)%Qc ↔ (this a < this b)%Q.
Proof. done. Qed.

Lemma Qc_this_plus (a b : Qc) : (this (a + b)%Qc == this a + this b)%Q.
Proof. unfold Qcplus. simpl. apply Qred_correct. Qed.

Lemma Qc_this_minus (a b : Qc) : (this (a - b)%Qc == this a - this b)%Q.
Proof. unfold Qcminus, Qcplus, Qcopp. simpl. rewrite !Qred_correct. reflexivity. Qed.

Lemma Qc_this_mult (a b : Qc) : (this (a * b)%Qc == this a * this b)%Q.
Proof. unfold Qcmult. simpl. apply Qred_correct. Qed.

Lemma Qc_this_div (a b : Qc) : (this (a / b)%Qc == this a / this b)%Q.
Proof. unfold Qcdiv, Qcmult, Qcinv. simpl. rewrite !Qred_correct. reflexivity. Qed.

Lemma Qc_this_Q2Qc q : (this (Q2Qc q) == q)%Q.
Proof. apply Qred_correct. Qed.

Ltac qc2q :=
  rewrite ?Qc_this_le, ?Qc_this_lt in *;
  repeat (rewrite ?Qc_this_plus, ?Qc_this_minus, ?Qc_this_mult, ?Qc_this_div, ?Qc_this_Q2Qc in * ).

Lemma qmax_ge_l a b : (a ≤ qmax a b)%Qc.
Proof.
  unfold qmax. case_bool_decide as H; [by apply Qclt_le_weak | apply Qcle_refl].
Qed.

Lemma qmax_ge_r a b : (b ≤ qmax a b)%Qc.
Proof.
  unfold qmax. case_bool_decide as H; [apply Qcle_refl | by apply Qcnot_lt_le].
Qed.

Lemma qmin_le_l a b : (qmin a b ≤ a)%Qc.
Proof.
  unfold qmin. case_bool_decide as H; [by apply Qclt_le_weak | apply Qcle_refl].
Qed.

Lemma qmin_le_r a b : (qmin a b ≤ b)%Qc.
Proof.
  unfold qmin. case_bool_decide as H; [apply Qcle_refl | by apply Qcnot_lt_le].
Qed.

Lemma qmax_comm a b : qmax a b = qmax b a.
Proof.
  unfold qmax. repeat case_bool_decide; try done.
  - exfalso. qc2q. lra.
  - apply Qcle_antisym; by apply Qcnot_lt_le.
Qed.

Lemma qmin_comm a b : qmin a b = qmin b a.
Proof.
  unfold qmin. repeat case_bool_decide; try done.
  - exfalso. qc2q. lra.
  - apply Qcle_antisym; by apply Qcnot_lt_le.
Qed.

(** ** Overlap and spatial coherence *)

Lemma calculate_overlap_cases b1 b2 :
  (_calculate_overlap b1 b2 = Q2Qc 0 ∧ ¬ (complete_box b1 ∧ complete_box b2))
  ∨ ∃ x1 y1 w1 h1 x2 y2 w2 h2,
      b1 !! "x" = Some x1 ∧ b1 !! "y" = Some y1 ∧ b1 !! "width" = Some w1
      ∧ b1 !! "height" = Some h1 ∧ b2 !! "x" = Some x2 ∧ b2 !! "y" = Some y2
      ∧ b2 !! "width" = Some w2 ∧ b2 !! "height" = Some h2
      ∧ _calculate_overlap b1 b2 = iou x1 y1 w1 h1 x2 y2 w2 h2.
Proof.
  unfold _calculate_overlap, complete_box.
  destruct (b1 !! "x") as [x1|] eqn:?; [| left; split; [done | intros [(?%is_Some_None & _) _]; done]].
  destruct (b1 !! "y") as [y1|] eqn:?; [| left; split; [done | intros [(_ & ?%is_Some_None & _) _]; done]].
  destruct (b1 !! "width") as [w1|] eqn:?; [| left; split; [done | intros [(_ & _ & ?%is_Some_None & _) _]; done]].
  destruct (b1 !! "height") as [h1|] eqn:?; [| left; split; [done | intros [(_ & _ & _ & ?%is_Some_None) _]; done]].
  destruct (b2 !! "x") as [x2|] eqn:?; [| left; split; [done | intros [_ (?%is_Some_None & _)]; done]].
  destruct (b2 !! "y") as [y2|] eqn:?; [| left; split; [done | intros [_ (_ & ?%is_Some_None & _)]; done]].
  destruct (b2 !! "width") as [w2|] eqn:?; [| left; split; [done | intros [_ (_ & _ & ?%is_Some_None & _)]; done]].
  destruct (b2 !! "height") as [h2|] eqn:?; [| left; split; [done | intros [_ (_ & _ & _ & ?%is_Some_None)]; done]].
  right. by exists x1, y1, w1, h1, x2, y2, w2, h2.
Qed.

Lemma iou_bounds x1 y1 w1 h1 x2 y2 w2 h2 :
  (Q2Qc 0 ≤ iou x1 y1 w1 h1 x2 y2 w2 h2 ≤ Q2Qc 1)%Qc.
Proof.
  unfold iou. cbv zeta.
  pose proof (qmax_ge_l x1 x2) as Hxl1. pose proof (qmax_ge_r x1 x2) as Hxl2.
  pose proof (qmax_ge_l y1 y2) as Hyt1. pose proof (qmax_ge_r y1 y2) as Hyt2.
  pose proof (qmin_le_l (x1 + w1) (x2 + w2)) as Hxr1.
  pose proof (qmin_le_r (x1 + w1) (x2 + w2)) as Hxr2.
  pose proof (qmin_le_l (y1 + h1) (y2 + h2)) as Hyb1.
  pose proof (qmin_le_r (y1 + h1) (y2 + h2)) as Hyb2.
  set (xl := qmax x1 x2) in *. set (yt := qmax y1 y2) in *.
  set (xr := qmin (x1 + w1) (x2 + w2)) in *.
  set (yb := qmin (y1 + h1) (y2 + h2)) in *.
  destruct (bool_decide (xr < xl)%Qc) eqn:Hx; [done |].
  destruct (bool_decide (yb < yt)%Qc) eqn:Hy; [done |].
  apply bool_decide_eq_false, Qcnot_lt_le in Hx, Hy. cbn [orb].
  case_bool_decide as Hu; [| done].
  qc2q.
  set (X1 := this x1) in *. set (Y1 := this y1) in *.
  set (W1 := this w1) in *. set (H1 := this h1) in *.
  set (X2 := this x2) in *. set (Y2 := this y2) in *.
  set (W2 := this w2) in *. set (H2 := this h2) in *.
  set (XL := this xl) in *. set (YT := this yt) in *.
  set (XR := this xr) in *. set (YB := this yb) in *.
  assert (0 <= (XR - XL) * (YB - YT))%Q as Hi by nra.
  assert ((XR - XL) * (YB - YT) <= W1 * H1)%Q as Hi1 by nra.
  assert ((XR - XL) * (YB - YT) <= W2 * H2)%Q as Hi2 by nra.
  split.
  - apply Qle_shift_div_l; [done | lra].
  - apply Qle_shift_div_r; [done | lra].
Qed.

Lemma iou_sym x1 y1 w1 h1 x2 y2 w2 h2 :
  iou x1 y1 w1 h1 x2 y2 w2 h2 = iou x2 y2 w2 h2 x1 y1 w1 h1.
Proof.
  unfold iou. cbv zeta.
  rewrite (qmax_comm x2 x1), (qmax_comm y2 y1).
  rewrite (qmin_comm (x2 + w2) (x1 + w1)), (qmin_comm (y2 + h2) (y1 + h1)).
  by rewrite (Qcplus_comm (w2 * h2) (w1 * h1)).
Qed.

Lemma box_lookup x y w h :
  box x y w h !! "x" = Some x ∧ box x y w h !! "y" = Some y
  ∧ box x y w h !! "width" = Some w ∧ box x y w h !! "height" = Some h.
Proof. by vm_compute. Qed.

Lemma calculate_overlap_box x1 y1 w1 h1 x2 y2 w2 h2 :
  _calculate_overlap (box x1 y1 w1 h1) (box x2 y2 w2 h2)
  = iou x1 y1 w1 h1 x2 y2 w2 h2.
Proof.
  unfold _calculate_overlap.
  destruct (box_lookup x1 y1 w1 h1) as (-> & -> & -> & ->).
  by destruct (box_lookup x2 y2 w2 h2) as (-> & -> & -> & ->).
Qed.

Lemma calculate_overlap_unit b1 b2 :
  (Q2Qc 0 ≤ _calculate_overlap b1 b2 ≤ Q2Qc 1)%Qc.
Proof.
  destruct (calculate_overlap_cases b1 b2)
    as [[-> _] | (x1 & y1 & w1 & h1 & x2 & y2 & w2 & h2 & H)]; [done |].
  destruct H as (_ & _ & _ & _ & _ & _ & _ & _ & ->). apply iou_bounds.
Qed.

(** Where the right edge of the intersection is not beyond its left edge,
    or the bottom not beyond the top, nothing is shared. *)
Lemma iou_empty x1 y1 w1 h1 x2 y2 w2 h2 :
  (qmin (x1 + w1) (x2 + w2) ≤ qmax x1 x2)%Qc
  ∨ (qmin (y1 + h1) (y2 + h2) ≤ qmax y1 y2)%Qc →
  iou x1 y1 w1 h1 x2 y2 w2 h2 = Q2Qc 0.
Proof.
  intros H. unfold iou. cbv zeta.
  set (xl := qmax x1 x2) in *. set (yt := qmax y1 y2) in *.
  set (xr := qmin (x1 + w1) (x2 + w2)) in *.
  set (yb := qmin (y1 + h1) (y2 + h2)) in *.
  destruct (bool_decide (xr < xl)%Qc) eqn:Hx; [done |].
  destruct (bool_decide (yb < yt)%Qc) eqn:Hy; [done |].
  apply bool_decide_eq_false, Qcnot_lt_le in Hx, Hy. cbn [orb].
  assert ((xr - xl) * (yb - yt) = Q2Qc 0)%Qc as ->.
  { destruct H as [H | H].
    - assert (xr = xl) as -> by (by apply Qcle_antisym). ring.
    - assert (yb = yt) as -> by (by apply Qcle_antisym). ring. }
  case_bool_decide; [| done]. apply Qc_is_canon. qc2q.
  unfold Qdiv. ring.
Qed.

(** X1: the overlap of two boxes ([_calculate_overlap]) is never negative
    and does not depend on the order of the boxes; it is 0 when a key of a
    box is missing, when the boxes are apart or only touch along one axis,
    and when a box has no positive width or height.  Each of these depends
    only on signs and on the order of sums, which the rounding of floats
    keeps. *)
Theorem calculate_overlap_bounds b1 b2 :
  (Q2Qc 0 ≤ _calculate_overlap b1 b2)%Qc
  ∧ _calculate_overlap b1 b2 = _calculate_overlap b2 b1
  ∧ (¬ (complete_box b1 ∧ complete_box b2) →
     _calculate_overlap b1 b2 = Q2Qc 0)
  ∧ (∀ x1 y1 w1 h1 x2 y2 w2 h2,
       b1 = box x1 y1 w1 h1 → b2 = box x2 y2 w2 h2 →
       (x1 + w1 ≤ x2)%Qc ∨ (x2 + w2 ≤ x1)%Qc
       ∨ (y1 + h1 ≤ y2)%Qc ∨ (y2 + h2 ≤ y1)%Qc →
       _calculate_overlap b1 b2 = Q2Qc 0)
  ∧ (∀ x1 y1 w1 h1 x2 y2 w2 h2,
       b1 = box x1 y1 w1 h1 → b2 = box x2 y2 w2 h2 →
       (w1 ≤ Q2Qc 0)%Qc ∨ (h1 ≤ Q2Qc 0)%Qc
       ∨ (w2 ≤ Q2Qc 0)%Qc ∨ (h2 ≤ Q2Qc 0)%Qc →
       _calculate_overlap b1 b2 = Q2Qc 0).
Proof.
  split_and!.
  - apply calculate_overlap_unit.
  - destruct (calculate_overlap_cases b1 b2)
      as [[H12 Hn] | (x1 & y1 & w1 & h1 & x2 & y2 & w2 & h2 & H)].
    + destruct (calculate_overlap_cases b2 b1)
        as [[H21 _] | (? & ? & ? & ? & ? & ? & ? & ? & H)]; [congruence |].
      destruct Hn. unfold complete_box.
      destruct H as (-> & -> & -> & -> & -> & -> & -> & -> & _). eauto 10.
    + destruct H as (Hx1 & Hy1 & Hw1 & Hh1 & Hx2 & Hy2 & Hw2 & Hh2 & ->).
      unfold _calculate_overlap.
      rewrite Hx1, Hy1, Hw1, Hh1, Hx2, Hy2, Hw2, Hh2.
      apply iou_sym.
  - intros Hn.
    destruct (calculate_overlap_cases b1 b2)
      as [[-> _] | (x1 & y1 & w1 & h1 & x2 & y2 & w2 & h2 & H)]; [done |].
    destruct Hn. unfold complete_box.
    destruct H as (-> & -> & -> & -> & -> & -> & -> & -> & _). eauto 10.
  - intros x1 y1 w1 h1 x2 y2 w2 h2 -> -> H. rewrite calculate_overlap_box.
    apply iou_empty.
    pose proof (qmax_ge_l x1 x2). pose proof (qmax_ge_r x1 x2).
    pose proof (qmax_ge_l y1 y2). pose proof (qmax_ge_r y1 y2).
    pose proof (qmin_le_l (x1 + w1) (x2 + w2)).
    pose proof (qmin_le_r (x1 + w1) (x2 + w2)).
    pose proof (qmin_le_l (y1 + h1) (y2 + h2)).
    pose proof (qmin_le_r (y1 + h1) (y2 + h2)).
    destruct H as [H | [H | [H | H]]]; [left | left | right | right];
      qc2q; lra.
  - intros x1 y1 w1 h1 x2 y2 w2 h2 -> -> H. rewrite calculate_overlap_box.
    apply iou_empty.
    pose proof (qmax_ge_l x1 x2). pose proof (qmax_ge_r x1 x2).
    pose proof (qmax_ge_l y1 y2). pose proof (qmax_ge_r y1 y2).
    pose proof (qmin_le_l (x1 + w1) (x2 + w2)).
    pose proof (qmin_le_r (x1 + w1) (x2 + w2)).
    pose proof (qmin_le_l (y1 + h1) (y2 + h2)).
    pose proof (qmin_le_r (y1 + h1) (y2 + h2)).
    destruct H as [H | [H | [H | H]]]; [left | right | left | right];
      qc2q; lra.
Qed.

Lemma qsum_bounds l :
  Forall unit_interval l →
  (0 <= this (qsum l) <= inject_Z (Z.of_nat (length l)))%Q.
Proof.
  induction 1 as [|q l [Hq0 Hq1] _ IH]; [done |].
  cbn [qsum foldr length]. fold (qsum l).
  rewrite Nat2Z.inj_succ, <- Z.add_1_l, inject_Z_plus.
  qc2q. change (inject_Z 1) with 1%Q. lra.
Qed.

Lemma mean_or_zero_bounds l :
  Forall unit_interval l → unit_interval (mean_or_zero l).
Proof.
  intros H. destruct l as [|q l]; [done |].
  pose proof (qsum_bounds _ H) as [H0 H1].
  unfold mean_or_zero, unit_interval.
  set (n := length (q :: l)) in *.
  assert (0 < inject_Z (Z.of_nat n))%Q as Hn.
  { change 0%Q with (inject_Z 0). rewrite <- Zlt_Qlt. subst n. simpl. lia. }
  qc2q. change (Z.of_nat n # 1)%Q with (inject_Z (Z.of_nat n)).
  split.
  - apply Qle_shift_div_l; [done | lra].
  - apply Qle_shift_div_r; [done | lra].
Qed.

Lemma overlaps_of_bounds bbox els os :
  overlaps_of bbox els = Ok os → Forall unit_interval os.
Proof.
  revert os. induction els as [|el els IH]; intros os H.
  - injection H as <-. constructor.
  - cbn [overlaps_of] in H.
    destruct (element_bounding_box el) as [b|e]; [| done].
    cbn [mbind result_bind] in H. case_decide; [by apply IH |].
    destruct (overlaps_of bbox els) as [os'|e]; [| done].
    cbn [mbind result_bind] in H. injection H as <-.
    constructor; [| by apply IH].
    apply calculate_overlap_unit.
Qed.

Lemma overlaps_of_table bbox els :
  ¬ Forall is_span_element els →
  overlaps_of bbox els
  = Raise (Exn AttributeError "'list' object has no attribute 'get'").
Proof.
  induction els as [|el els IH]; intros H.
  - destruct H. constructor.
  - destruct el as [sp | cells]; [| done].
    cbn [overlaps_of element_bounding_box mbind result_bind].
    assert (¬ Forall is_span_element els) as Hels
      by (intros ?; apply H; by constructor).
    rewrite (IH Hels). by case_decide.
Qed.

Lemma overlaps_of_returns bbox els :
  Forall is_span_element els → returns (overlaps_of bbox els).
Proof.
  induction 1 as [|el els Hel _ [os IH]]; [by eexists |].
  destruct el as [sp | cells]; [| done].
  cbn [overlaps_of element_bounding_box mbind result_bind].
  rewrite IH. case_decide; by eexists.
Qed.

Lemma overlaps_of_same bbox spans :
  Forall (λ sp, sp_bounding_box sp = Some bbox) spans →
  overlaps_of bbox (ElSpan <$> spans) = Ok [].
Proof.
  induction 1 as [|sp spans Hsp _ IH]; [done |].
  rewrite fmap_cons.
  cbn [overlaps_of element_bounding_box mbind result_bind].
  by rewrite decide_True.
Qed.

Lemma coherence_score_bounds avg :
  unit_interval avg →
  unit_interval (Q2Qc 1 - qmin (avg / spatial_overlap_threshold) (Q2Qc 1))%Qc.
Proof.
  intros [H0 H1]. unfold unit_interval.
  pose proof (qmin_le_r (avg / spatial_overlap_threshold) (Q2Qc 1)) as Hle.
  assert (Q2Qc 0 ≤ qmin (avg / spatial_overlap_threshold) (Q2Qc 1))%Qc as Hge.
  { unfold qmin. case_bool_decide; [done |].
    unfold spatial_overlap_threshold. qc2q.
    apply Qle_shift_div_l; [done | lra]. }
  qc2q. lra.
Qed.

(** X2: the score of [_validate_spatial_coherence] lies between 0 and 1; the
    function returns exactly when no element is a table, and a table makes it
    raise AttributeError; the score is 1 when there is no element and when
    every element has the box itself, which the loop skips. *)
Theorem spatial_coherence_bounds bbox els :
  (∀ q, _validate_spatial_coherence bbox els = Ok q → unit_interval q)
  ∧ (returns (_validate_spatial_coherence bbox els)
     ↔ Forall is_span_element els)
  ∧ (¬ Forall is_span_element els →
     _validate_spatial_coherence bbox els
     = Raise (Exn AttributeError "'list' object has no attribute 'get'"))
  ∧ (els = [] → _validate_spatial_coherence bbox els = Ok (Q2Qc 1))
  ∧ (∀ spans, els = ElSpan <$> spans →
       Forall (λ sp, sp_bounding_box sp = Some bbox) spans →
       _validate_spatial_coherence bbox els = Ok (Q2Qc 1)).
Proof.
  assert (¬ Forall is_span_element els →
     _validate_spatial_coherence bbox els
     = Raise (Exn AttributeError "'list' object has no attribute 'get'"))
    as Hraise.
  { intros H. unfold _validate_spatial_coherence.
    rewrite decide_False by (intros ->; apply H; constructor).
    by rewrite overlaps_of_table. }
  split_and!; try done.
  - intros q. unfold _validate_spatial_coherence.
    case_decide; [intros [= <-]; done |].
    destruct (overlaps_of bbox els) as [os|e] eqn:Hos; [| done].
    cbn [mbind result_bind]. intros [= <-].
    by eapply coherence_score_bounds, mean_or_zero_bounds, overlaps_of_bounds.
  - split.
    + intros [q Hq]. destruct (decide (Forall is_span_element els)); [done |].
      by rewrite Hraise in Hq.
    + intros H. unfold _validate_spatial_coherence.
      case_decide; [by eexists |].
      destruct (overlaps_of_returns bbox els H) as [os ->]. by eexists.
  - by intros ->.
  - intros spans -> Hsame. unfold _validate_spatial_coherence.
    case_decide; [done |]. rewrite overlaps_of_same by done.
    cbn [mbind result_bind mean_or_zero]. by f_equal; apply Qc_is_canon.
Qed.

(** ** The outcome of [validate_extraction] *)

Lemma slice_text_returns v : returns (slice_text v) ↔ ∃ s, v = PStr s.
Proof.
  destruct v as [|s|items]; simpl; split; try (by intros [? ?]).
  - intros _. by exists s.
  - intros _. by eexists.
Qed.

Lemma score_loop_returns sub els :
  returns (score_loop sub els) ↔
  sub = [] ∨ (Forall has_string_text sub ∧ Forall is_span_element els).
Proof.
  induction sub as [|sp sub IH].
  - split; [by left | by eexists].
  - cbn [score_loop]. split.
    + intros [rs H]. right.
      destruct (slice_text (span_text sp)) as [t|e] eqn:Ht; [| done].
      cbn [mbind result_bind] in H.
      destruct (_validate_spatial_coherence (span_bounding_box sp) els)
        as [q|e] eqn:Hq; [| done].
      cbn [mbind result_bind] in H.
      destruct (score_loop sub els) as [rs'|e] eqn:Hrs; [| done].
      assert (Forall is_span_element els) as Hels.
      { destruct (decide (Forall is_span_element els)) as [|Hn]; [done |].
        unfold _validate_spatial_coherence in Hq.
        rewrite decide_False in Hq by (intros ->; apply Hn; constructor).
        by rewrite overlaps_of_table in Hq. }
      split; [| done]. constructor.
      * apply slice_text_returns. by eexists.
      * destruct (proj1 IH) as [-> | [? _]]; [by eexists | constructor | done].
    + intros [[=] | [Hsub Hels]]. inversion Hsub as [|? ? [s Hs] Hsub']; subst.
      rewrite Hs. cbn [slice_text mbind result_bind].
      assert (returns (_validate_spatial_coherence (span_bounding_box sp) els))
        as [q ->].
      { unfold _validate_spatial_coherence. case_decide; [by eexists |].
        destruct (overlaps_of_returns (span_bounding_box sp) els Hels) as [os ->].
        by eexists. }
      cbn [mbind result_bind].
      destruct (proj2 IH) as [rs ->]; [by right |]. by eexists.
Qed.

Lemma score_loop_scores sub els rs :
  score_loop sub els = Ok rs →
  rs.1 = span_confidence <$> sub ∧ Forall unit_interval rs.2.
Proof.
  revert rs. induction sub as [|sp sub IH]; intros rs H.
  - injection H as <-. by split.
  - cbn [score_loop] in H.
    destruct (slice_text (span_text sp)) as [t|e]; [| done].
    cbn [mbind result_bind] in H.
    destruct (_validate_spatial_coherence (span_bounding_box sp) els)
      as [q|e] eqn:Hq; [| done].
    cbn [mbind result_bind] in H.
    destruct (score_loop sub els) as [rs'|e]; [| done].
    cbn [mbind result_bind] in H. injection H as <-.
    destruct (IH rs' eq_refl) as [-> Hs]. split; [done |].
    constructor; [| done]. cbn [snd].
    unfold _validate_spatial_coherence in Hq.
    case_decide; [by injection Hq as <- |].
    destruct (overlaps_of _ els) as [os|e] eqn:Hos; [| done].
    cbn [mbind result_bind] in Hq. injection Hq as <-.
    by eapply coherence_score_bounds, mean_or_zero_bounds, overlaps_of_bounds.
Qed.

Lemma spatial_of_bounds spans sp : unit_interval (spatial_of spans sp).
Proof.
  pose proof (spatial_of_spec spans sp) as H.
  unfold _validate_spatial_coherence in H.
  case_decide; [by injection H as <- |].
  destruct (overlaps_of _ _) as [os|e] eqn:Hos; [| done].
  cbn [mbind result_bind] in H. injection H as <-.
  by eapply coherence_score_bounds, mean_or_zero_bounds, overlaps_of_bounds.
Qed.

Lemma elements_all_spans spans (tables : list (list cell)) :
  Forall is_span_element ((ElSpan <$> spans) ++ (ElTable <$> tables))
  ↔ tables = [].
Proof.
  rewrite Forall_app. split.
  - intros [_ H]. destruct tables; [done |]. by inversion H.
  - intros ->. split; [| constructor]. by apply Forall_fmap, Forall_true.
Qed.

Lemma half_sum_bounds a b :
  unit_interval a → unit_interval b → unit_interval ((a + b) / Q2Qc 2)%Qc.
Proof.
  intros [? ?] [? ?]. unfold unit_interval. qc2q.
  split.
  - apply Qle_shift_div_l; [done | lra].
  - apply Qle_shift_div_r; [done | lra].
Qed.

Lemma score_loop_table sub spans tables :
  sub ≠ [] → tables ≠ [] →
  ¬ returns (score_loop sub ((ElSpan <$> spans) ++ (ElTable <$> tables))).
Proof.
  intros Hsub Htables Hret.
  apply score_loop_returns in Hret as [-> | [_ Hels]]; [done |].
  by apply elements_all_spans in Hels.
Qed.

(** X3: without text spans [validate_extraction] returns the empty result,
    with the three confidences 0; with a text span and a table it raises, as
    a table is a list and has no [get]; a result it returns has one entry per
    span, the spatial scores and the spatial confidence lie between 0 and 1,
    and so do the average and the global confidence when the confidences of
    the first 20 spans do. *)
Theorem validate_extraction_outcome od :
  (text_spans od = [] →
   ∃ r, validate_extraction od = Ok r
        ∧ validated_spans r = [] ∧ global_confidence r = Q2Qc 0
        ∧ average_confidence r = Q2Qc 0 ∧ spatial_confidence r = Q2Qc 0)
  ∧ (text_spans od ≠ [] → default [] (od_tables od) ≠ [] →
     ¬ returns (validate_extraction od))
  ∧ ∀ r, validate_extraction od = Ok r →
      length (validated_spans r) = length (text_spans od)
      ∧ Forall (λ v, unit_interval (spatial_score v)) (validated_spans r)
      ∧ unit_interval (spatial_confidence r)
      ∧ (Forall (λ sp, unit_interval (span_confidence sp))
           (take 20 (text_spans od)) →
         unit_interval (average_confidence r)
         ∧ unit_interval (global_confidence r)).
Proof.
  unfold validate_extraction. cbv zeta.
  set (spans := text_spans od). set (tables := default [] (od_tables od)).
  assert (mapM (λ sp,
      spatial ← _validate_spatial_coherence (span_bounding_box sp)
                   (ElSpan <$> spans);
      Ok (ValidatedSpan (span_text sp)
            (bool_decide (min_confidence_threshold ≤ span_confidence sp)%Qc)
            spatial)) spans
    = Ok ((λ sp, ValidatedSpan (span_text sp)
            (bool_decide (min_confidence_threshold ≤ span_confidence sp)%Qc)
            (spatial_of spans sp)) <$> spans)) as Hmap.
  { apply mapM_total. intros sp. by rewrite spatial_of_spec. }
  rewrite Hmap. split_and!.
  - intros ->. cbn. eexists. split; [reflexivity |]. cbn.
    split_and!; try done; by apply Qc_is_canon.
  - intros Hspans Htables [r Hr].
    destruct (score_loop _ _) as [rs|e] eqn:Hrs; [| done].
    apply (score_loop_table (take 20 spans) spans tables); [| done | by eexists].
    by destruct spans.
  - intros r Hr.
    destruct (score_loop _ _) as [rs|e] eqn:Hrs; [| done].
    cbn [mbind result_bind] in Hr. injection Hr as <-.
    cbn [validated_spans spatial_confidence average_confidence
         global_confidence].
    destruct (score_loop_scores _ _ _ Hrs) as [Hconf Hspat].
    split_and!.
    + by rewrite length_fmap.
    + apply Forall_fmap, Forall_forall. intros sp _. apply spatial_of_bounds.
    + by apply mean_or_zero_bounds.
    + intros Hc.
      assert (unit_interval (mean_or_zero rs.1)) as Havg.
      { apply mean_or_zero_bounds. rewrite Hconf. by apply Forall_fmap. }
      split; [done |]. apply half_sum_bounds; [done |].
      by apply mean_or_zero_bounds.
Qed.

(** ** Spatial position *)

Lemma expected_zones_registered field :
  is_Some (expected_zones !! field)
  ↔ field ∈ ["lastName"; "firstName"; "idNumber"].
Proof.
  rewrite !elem_of_cons, elem_of_nil. unfold expected_zones. split.
  - intros [z H].
    repeat (apply lookup_insert_Some in H as [[<- <-] | [? H]]; [tauto |]).
    apply lookup_singleton_Some in H as [<- <-]. tauto.
  - intros [-> | [-> | [-> | []]]]; eexists; by vm_compute.
Qed.

Lemma between_spec r x :
  between r x = true ↔ (r.1 ≤ x ≤ r.2)%Qc.
Proof.
  unfold between. by rewrite andb_true_iff, !bool_decide_eq_true.
Qed.

Lemma zone_inside z field :
  expected_zones !! field = Some z →
  (Q2Qc 0 < (x_range z).1)%Qc ∧ ((x_range z).2 < Q2Qc 1)%Qc
  ∧ (Q2Qc 0 < (y_range z).1)%Qc ∧ ((y_range z).2 < Q2Qc 1)%Qc.
Proof.
  unfold expected_zones. intros H.
  repeat (apply lookup_insert_Some in H as [[_ <-] | [_ H]]; [done |]).
  by apply lookup_singleton_Some in H as [_ <-].
Qed.

Lemma outside_not_between lo hi c size :
  (Q2Qc 0 < lo)%Qc → (hi < Q2Qc 1)%Qc → (Q2Qc 0 < size)%Qc →
  (c ≤ Q2Qc 0)%Qc ∨ (size ≤ c)%Qc →
  between (lo, hi) (c / size) = false.
Proof.
  intros Hlo Hhi Hsize H. apply not_true_iff_false.
  rewrite between_spec. cbn [fst snd]. intros [H1 H2].
  destruct H as [H | H].
  - assert (c / size ≤ Q2Qc 0)%Qc; [| qc2q; lra].
    qc2q. apply Qle_shift_div_r; [done | lra].
  - assert (Q2Qc 1 ≤ c / size)%Qc; [| qc2q; lra].
    qc2q. apply Qle_shift_div_l; [done | lra].
Qed.

(** X4: [validate_spatial_position] answers 1 for every field without an
    expected zone (all fields but lastName, firstName and idNumber), whatever
    the position and the page are.  For a field with a zone it reads x, the
    page width, y and the page height in this order: the first missing key
    raises KeyError and a page dimension 0 raises ZeroDivisionError; a score
    it returns is 0, 1/2 or 1; a coordinate that is not inside the page is
    not in the zone, so that the score is not 1 when x or y is outside the
    page, and 0 when both are. *)
Theorem validate_spatial_position_spec field position page_dims :
  (field ∉ ["lastName"; "firstName"; "idNumber"] →
   validate_spatial_position field position page_dims = inr (Q2Qc 1))
  ∧ (∀ q, validate_spatial_position field position page_dims = inr q →
       q = Q2Qc 0 ∨ q = Q2Qc (5 # 10) ∨ q = Q2Qc 1)
  ∧ (field ∈ ["lastName"; "firstName"; "idNumber"] →
     (position !! "x" = None →
      validate_spatial_position field position page_dims
      = inl (PositionKeyError "x"))
     ∧ (is_Some (position !! "x") → page_dims !! "width" = None →
        validate_spatial_position field position page_dims
        = inl (PositionKeyError "width"))
     ∧ (is_Some (position !! "x") → page_dims !! "width" = Some (Q2Qc 0) →
        validate_spatial_position field position page_dims
        = inl PositionZeroDivisionError)
     ∧ (∀ x w, position !! "x" = Some x → page_dims !! "width" = Some w →
        w ≠ Q2Qc 0 →
        (position !! "y" = None →
         validate_spatial_position field position page_dims
         = inl (PositionKeyError "y"))
        ∧ (is_Some (position !! "y") → page_dims !! "height" = None →
           validate_spatial_position field position page_dims
           = inl (PositionKeyError "height"))
        ∧ (is_Some (position !! "y") →
           page_dims !! "height" = Some (Q2Qc 0) →
           validate_spatial_position field position page_dims
           = inl PositionZeroDivisionError)))
  ∧ (∀ x y w h q,
       field ∈ ["lastName"; "firstName"; "idNumber"] →
       position !! "x" = Some x → position !! "y" = Some y →
       page_dims !! "width" = Some w → page_dims !! "height" = Some h →
       (Q2Qc 0 < w)%Qc → (Q2Qc 0 < h)%Qc →
       validate_spatial_position field position page_dims = inr q →
       ((x ≤ Q2Qc 0)%Qc ∨ (w ≤ x)%Qc ∨ (y ≤ Q2Qc 0)%Qc ∨ (h ≤ y)%Qc →
        q ≠ Q2Qc 1)
       ∧ ((x ≤ Q2Qc 0)%Qc ∨ (w ≤ x)%Qc → (y ≤ Q2Qc 0)%Qc ∨ (h ≤ y)%Qc →
          q = Q2Qc 0)).
Proof.
  split_and!.
  - intros H. unfold validate_spatial_position.
    destruct (expected_zones !! field) as [z|] eqn:Hz; [| done].
    destruct H. apply expected_zones_registered. by eexists.
  - intros q. unfold validate_spatial_position.
    destruct (expected_zones !! field) as [z|]; [| intros [= <-]; auto].
    destruct (normalised _ _ "x" _) as [e|x_norm]; [done |].
    destruct (normalised _ _ "y" _) as [e|y_norm]; [done |].
    cbv zeta. repeat case_match; intros [= <-]; auto.
  - intros [z Hz]%expected_zones_registered.
    unfold validate_spatial_position, normalised. rewrite Hz.
    split_and!.
    + by intros ->.
    + by intros [x ->] ->.
    + intros [x ->] ->. by rewrite decide_True.
    + intros x w -> -> Hw. rewrite decide_False by done. split_and!.
      * by intros ->.
      * by intros [y ->] ->.
      * intros [y ->] ->. by rewrite decide_True.
  - intros x y w h q [z Hz]%expected_zones_registered Hx Hy Hw Hh Hwpos Hhpos.
    destruct (zone_inside z field Hz) as (Hx1 & Hx2 & Hy1 & Hy2).
    unfold validate_spatial_position, normalised. rewrite Hz, Hx, Hy, Hw, Hh.
    rewrite !decide_False by (intros ->; qc2q; lra). cbv zeta.
    destruct (x_range z) as [xlo xhi], (y_range z) as [ylo yhi].
    cbn [fst snd] in *.
    assert ((x ≤ Q2Qc 0)%Qc ∨ (w ≤ x)%Qc →
            between (xlo, xhi) (x / w) = false) as Hxout
      by (by apply outside_not_between).
    assert ((y ≤ Q2Qc 0)%Qc ∨ (h ≤ y)%Qc →
            between (ylo, yhi) (y / h) = false) as Hyout
      by (by apply outside_not_between).
    intros Hq. split.
    + intros Hout Hone.
      destruct Hout as [H | [H | [H | H]]].
      1,2: rewrite Hxout in Hq by auto; cbn [andb orb] in Hq;
        destruct (between (ylo, yhi) (y / h)); injection Hq as <-; done.
      all: rewrite Hyout in Hq by auto; rewrite ?andb_false_r in Hq;
        destruct (between (xlo, xhi) (x / w)); cbn in Hq;
        injection Hq as <-; done.
    + intros Hxo Hyo. rewrite Hxout, Hyout in Hq by done.
      by injection Hq as <-.
Qed.

(** ** The flattened dict *)

Lemma flatten_items_leaves v parent_key :
  App.flatten_items v parent_key = leaves v parent_key.
Proof.
  revert parent_key.
  induction v as [| s | d IH] using pyval_nested_ind; intros parent_key;
    [done | done |].
  rewrite leaves_bind. cbn [App.flatten_items].
  assert (∀ items,
    (fix loop (d : list (string * pyval)) (items : list (string * pyval))
         : list (string * pyval) :=
         match d with
         | [] => items
         | (k, v) :: d' =>
             loop d'
               match v with
               | PDict _ => items ++ App.flatten_items v (join_key parent_key k)
               | _ => items ++ [(join_key parent_key k, v)]
               end
         end) d items = items ++ (d ≫= leaves_entry parent_key)) as H.
  { induction d as [|[k x] d IHd]; intros items; [by rewrite app_nil_r |].
    apply Forall_cons in IH as [IHx IH]. cbn [snd] in IHx.
    rewrite bind_cons, IHd by done. rewrite app_assoc. f_equal.
    unfold leaves_entry. cbn [fst snd]. destruct x; try done.
    by rewrite IHx. }
  apply H.
Qed.

Lemma dict_set_keys_in {V} k (v : V) d :
  k ∈ d.*1 → (dict_set k v d).*1 = d.*1.
Proof.
  induction d as [|[k' v'] d IH]; [by intros ?%elem_of_nil |].
  rewrite fmap_cons, elem_of_cons. cbn. intros H.
  case_decide as Hk; [by subst |]. cbn. f_equal. apply IH.
  by destruct H.
Qed.

Lemma dict_set_keys {V} k (v : V) d :
  (dict_set k v d).*1 = if decide (k ∈ d.*1) then d.*1 else d.*1 ++ [k].
Proof.
  case_decide; [by apply dict_set_keys_in |].
  rewrite dict_set_fresh by done. by rewrite fmap_app.
Qed.

Lemma dict_set_NoDup {V} k (v : V) d : NoDup d.*1 → NoDup (dict_set k v d).*1.
Proof.
  intros H. rewrite dict_set_keys. case_decide; [done |].
  apply NoDup_app. split_and!; [done | | apply NoDup_singleton].
  intros x Hx ->%list_elem_of_singleton. done.
Qed.

Lemma dict_set_Forall {V} (P : string * V → Prop) k v d :
  Forall P d → P (k, v) → Forall P (dict_set k v d).
Proof.
  intros Hd Hkv. induction Hd as [|[k' v'] d Hx Hd IH]; cbn.
  - by constructor.
  - case_decide; constructor; done.
Qed.

Lemma dict_update_app {V} (a b c : list (string * V)) :
  dict_update a (b ++ c) = dict_update (dict_update a b) c.
Proof. unfold dict_update. apply foldl_app. Qed.

Lemma dict_update_NoDup {V} (a b : list (string * V)) :
  NoDup a.*1 → NoDup (dict_update a b).*1.
Proof.
  revert a. induction b as [|[k v] b IH]; intros a Ha; [done |].
  unfold dict_update. cbn [foldl]. apply IH. by apply dict_set_NoDup.
Qed.

Lemma dict_update_Forall {V} (P : string * V → Prop) a b :
  Forall P a → Forall P b → Forall P (dict_update a b).
Proof.
  intros Ha Hb. revert a Ha.
  induction Hb as [|[k v] b Hkv Hb IH]; intros a Ha; [done |].
  unfold dict_update. cbn [foldl]. apply IH. by apply dict_set_Forall.
Qed.

Lemma dict_set_set {V} k (v v0 : V) d :
  dict_set k v (dict_set k v0 d) = dict_set k v d.
Proof.
  induction d as [|[k' v'] d IH]; cbn.
  - by rewrite decide_True.
  - case_decide; cbn.
    + by rewrite decide_True.
    + rewrite decide_False by done. by rewrite IH.
Qed.

Lemma dict_set_comm {V} k k' (v v' : V) d :
  k ≠ k' → k ∈ d.*1 →
  dict_set k v (dict_set k' v' d) = dict_set k' v' (dict_set k v d).
Proof.
  intros Hne. induction d as [|[k0 v0] d IH]; [by intros ?%elem_of_nil |].
  rewrite fmap_cons, elem_of_cons. cbn [fst]. intros Hin. cbn.
  repeat (case_decide; subst; cbn); try done.
  f_equal. apply IH. by destruct Hin.
Qed.

Lemma dict_set_update {V} k (v : V) items d :
  k ∈ items.*1 →  k ∉ d.*1 →
  dict_update (dict_set k v items) d = dict_set k v (dict_update items d).
Proof.
  revert items. induction d as [|[k' v'] d IH]; intros items Hin Hk; [done |].
  rewrite fmap_cons, not_elem_of_cons in Hk. destruct Hk as [Hne Hk].
  unfold dict_update. cbn [foldl fst snd].
  rewrite <- dict_set_comm by done.
  apply IH; [| done]. rewrite dict_set_keys. case_decide; [done |].
  apply elem_of_app. by left.
Qed.

Lemma dict_update_set {V} k (v : V) items d :
  NoDup d.*1 →
  dict_update items (dict_set k v d) = dict_set k v (dict_update items d).
Proof.
  intros Hnd. destruct (decide (k ∈ d.*1)) as [Hin | Hin].
  - revert items. induction d as [|[k' v'] d IH]; intros items;
      [by apply elem_of_nil in Hin |].
    rewrite fmap_cons in Hnd, Hin. apply NoDup_cons in Hnd as [Hk' Hnd].
    cbn. case_decide as Hk.
    + subst k'. unfold dict_update. cbn [foldl fst snd].
      fold (dict_update (dict_set k v items) d).
      fold (dict_update (dict_set k v' items) d).
      assert (k ∈ (dict_set k v items).*1) as H1.
      { rewrite dict_set_keys. case_decide; [done |]. apply elem_of_app.
        right. by apply list_elem_of_singleton. }
      assert (k ∈ (dict_set k v' items).*1) as H2.
      { rewrite dict_set_keys. case_decide; [done |]. apply elem_of_app.
        right. by apply list_elem_of_singleton. }
      rewrite <- (dict_set_set k v v' items).
      rewrite (dict_set_update k v (dict_set k v' items)) by done.
      done.
    + unfold dict_update. cbn [foldl fst snd]. apply IH; [done |].
      apply elem_of_cons in Hin as [-> | ?]; done.
  - rewrite dict_set_fresh by done. rewrite dict_update_app. done.
Qed.

Lemma dict_update_of_pairs {V} (items l : list (string * V)) :
  dict_update items (dict_of_pairs l) = dict_update items l.
Proof.
  unfold dict_of_pairs. induction l as [|[k v] l IH] using rev_ind; [done |].
  rewrite !dict_update_app. unfold dict_update at 2. cbn [foldl fst snd].
  rewrite dict_update_set by (apply dict_update_NoDup; constructor).
  by rewrite IH.
Qed.

Lemma flatten_value_of_pairs v parent_key :
  flatten_value v parent_key = dict_of_pairs (leaves v parent_key).
Proof.
  revert parent_key.
  induction v as [| s | d IH] using pyval_nested_ind; intros parent_key;
    [done | done |].
  rewrite flatten_value_foldl, leaves_bind. unfold dict_of_pairs.
  generalize (@nil (string * pyval)).
  induction d as [|[k x] d IHd]; intros items; [done |].
  apply Forall_cons in IH as [IHx IH]. cbn [snd] in IHx.
  rewrite bind_cons, dict_update_app. cbn [foldl]. rewrite IHd by done.
  f_equal. unfold flatten_entry, leaves_entry. cbn [fst snd].
  destruct x; try done. by rewrite IHx, dict_update_of_pairs.
Qed.

Lemma leaves_scalar v parent_key :
  Forall (λ kv, is_scalar kv.2) (leaves v parent_key).
Proof.
  revert parent_key.
  induction v as [| s | d IH] using pyval_nested_ind; intros parent_key;
    [constructor | constructor |].
  rewrite leaves_bind. induction d as [|[k x] d IHd]; [constructor |].
  apply Forall_cons in IH as [IHx IH]. cbn [snd] in IHx.
  rewrite bind_cons. apply Forall_app. split; [| by apply IHd].
  unfold leaves_entry. cbn [fst snd].
  destruct x; [by repeat constructor | by repeat constructor | apply IHx].
Qed.

Lemma leaves_flat d :
  Forall (λ kv, is_scalar kv.2) d → leaves (PDict d) "" = d.
Proof.
  rewrite leaves_bind. induction 1 as [|[k x] d Hx _ IH]; [done |].
  rewrite bind_cons, IH. unfold leaves_entry, join_key. cbn [fst snd].
  rewrite decide_False by (by intros []). by destruct x.
Qed.

(** X5: the dict [_flatten_dict] returns is [dict(flatten_dict(d))] of the
    list the form editor flattens to; its keys are distinct; none of its
    values is a dict; flattening it again changes nothing; when no two leaves
    have the same dotted path it is the list of the leaves, in order; a dict
    whose values are all empty dicts flattens to nothing. *)
Theorem flatten_dict_invariants d parent_key :
  let flat := _flatten_dict d parent_key in
  flat = dict_of_pairs (App.flatten_dict d parent_key)
  ∧ NoDup flat.*1
  ∧ Forall (λ kv, is_scalar kv.2) flat
  ∧ _flatten_dict flat "" = flat
  ∧ (NoDup (App.flatten_dict d parent_key).*1 →
     flat = App.flatten_dict d parent_key)
  ∧ (Forall (λ kv, kv.2 = PDict []) d → flat = []).
Proof.
  intros flat.
  assert (flat = dict_of_pairs (leaves (PDict d) parent_key)) as Hflat
    by apply flatten_value_of_pairs.
  assert (NoDup flat.*1) as Hnd
    by (rewrite Hflat; apply dict_update_NoDup; constructor).
  assert (Forall (λ kv, is_scalar kv.2) flat) as Hsc.
  { rewrite Hflat. apply dict_update_Forall; [constructor |].
    apply leaves_scalar. }
  split_and!; try done.
  - unfold App.flatten_dict. by rewrite flatten_items_leaves.
  - unfold _flatten_dict. rewrite flatten_value_leaves.
    + by apply leaves_flat.
    + by rewrite leaves_flat.
  - unfold App.flatten_dict. rewrite flatten_items_leaves.
    apply flatten_dict_leaves.
  - intros Hempty. rewrite Hflat, leaves_bind.
    assert (d ≫= leaves_entry parent_key = []) as ->; [| done].
    clear Hflat Hnd Hsc flat.
    induction Hempty as [|[k x] d' Hx _ IH]; [done |].
    rewrite bind_cons, IH. cbn in Hx. by subst x.
Qed.

(** ** Required fields *)

Lemma chars_rev_app s acc :
  chars (String.rev_app s acc) = reverse (chars s) ++ chars acc.
Proof.
  revert acc. induction s as [|c s IH]; intros acc; [done |].
  cbn [String.rev_app]. rewrite IH.
  change (chars (String c s)) with (c :: chars s).
  change (chars (String c acc)) with (c :: chars acc).
  by rewrite reverse_cons, <- app_assoc.
Qed.

Lemma chars_rev s : chars (String.rev s) = reverse (chars s).
Proof. unfold String.rev. by rewrite chars_rev_app, app_nil_r. Qed.

Lemma py_endswith_spec s suffix :
  py_endswith s suffix = true ↔ ends_with s suffix.
Proof.
  unfold py_endswith, ends_with. rewrite prefix_chars, !chars_rev. split.
  - intros [rest H]. exists (reverse rest).
    apply (inj reverse). by rewrite H, reverse_app, reverse_involutive.
  - intros [pre H]. exists (reverse pre). by rewrite H, reverse_app.
Qed.

Lemma missing_required_of_spec flat k :
  k ∈ missing_required_of flat ↔
  ∃ v field, (k, v) ∈ flat ∧ field ∈ required_fields ∧ ends_with k field
             ∧ nonblank v = false.
Proof.
  unfold missing_required_of. rewrite list_elem_of_bind. split.
  - intros (field & Hk & Hfield).
    apply list_elem_of_bind in Hk as ([k' v] & Hk & Hkv). cbn [fst snd] in Hk.
    destruct (py_endswith k' field) eqn:He; [| by apply elem_of_nil in Hk].
    destruct (nonblank v) eqn:Hn; [by apply elem_of_nil in Hk |].
    apply list_elem_of_singleton in Hk as ->.
    exists v, field. by rewrite <- py_endswith_spec.
  - intros (v & field & Hkv & Hfield & He%py_endswith_spec & Hn).
    exists field. split; [| done]. apply list_elem_of_bind.
    exists (k, v). split; [| done]. cbn [fst snd]. rewrite He, Hn. by left.
Qed.

(** X6: in the result of a run that returns, [missing_required] lists
    exactly the flattened keys that end with lastName, firstName or idNumber
    and have a blank value; a required field that the data does not have at
    all is not listed, and without any field the list is empty. *)
Theorem missing_required_spec self today sd od self' r :
  validate_extracted_data self today sd od = Ok (self', r) →
  let flat_data := _flatten_dict sd "" in
  (∀ k, k ∈ missing_required (completeness r) ↔
        ∃ v field, (k, v) ∈ flat_data
                   ∧ field ∈ ["lastName"; "firstName"; "idNumber"]
                   ∧ ends_with k field ∧ nonblank v = false)
  ∧ (∀ field, (∀ kv, kv ∈ flat_data → ¬ ends_with kv.1 field) →
       ∀ k, k ∈ missing_required (completeness r) → ¬ ends_with k field)
  ∧ (flat_data = [] → missing_required (completeness r) = []).
Proof.
  intros H flat_data.
  destruct (validate_extracted_data_result _ _ _ _ _ _ H)
    as (valid & total & invalid & _ & ->).
  cbn [completeness missing_required]. fold flat_data.
  split_and!.
  - apply missing_required_of_spec.
  - intros field Habsent k (v & _ & Hkv & _)%missing_required_of_spec.
    by apply (Habsent (k, v)).
  - by intros ->.
Qed.

(** A blank last name is reported, a first name that is given is not. *)
Lemma missing_required_spec_witness :
  ∃ self' r,
    validate_extracted_data sample_validator sample_today nameless_form
      sample_ocr = Ok (self', r)
    ∧ "lastName" ∈ missing_required (completeness r)
    ∧ "firstName" ∉ missing_required (completeness r).
Proof.
  eexists _, _. split; [vm_compute; reflexivity |].
  match goal with
  | |- ?k ∈ missing_required (completeness ?r) ∧ _ =>
      destruct (missing_required_spec sample_validator sample_today
                  nameless_form sample_ocr sample_validator r)
        as (Hiff & _ & _); [vm_compute; reflexivity |]
  end.
  split.
  - apply Hiff. exists (PStr " "), "lastName".
    split; [left |]. split; [left |]. split; [by exists [] | reflexivity].
  - intros (v & field & Hin & _ & _ & Hblank)%Hiff.
    assert (_flatten_dict nameless_form "" = nameless_form) as E
      by (by vm_compute).
    rewrite E in Hin. unfold nameless_form in Hin.
    repeat (apply elem_of_cons in Hin as [Heq | Hin];
            [first [by simplify_eq
                   | simplify_eq; by vm_compute in Hblank] |]).
    by apply elem_of_nil in Hin.
Defined.

(** ** The format loop *)

Lemma consistency_scalar_self self today field value od r :
  is_scalar value →
  _check_consistency_with_ocr self today field value od = Ok r → r.1 = self.
Proof.
  intros Hs. unfold _check_consistency_with_ocr. cbv zeta.
  case_match; [by intros [= <-] |].
  destruct (ocr_corpus od) as [c|e]; [| done]. cbn [mbind result_bind].
  destruct value as [|s|items]; [| | done].
  all: destruct (check_tokens _ _ _) as [[[? ?] ?]|e]; [| done];
    cbn [mbind result_bind]; by intros [= <-].
Qed.

Lemma consistency_short self today field value od :
  py_len (value_str_of value) ≤ 3 →
  _check_consistency_with_ocr self today field value od
  = Ok (self, [ValueTooShort field]).
Proof.
  intros H. unfold _check_consistency_with_ocr. cbv zeta.
  fold (value_str_of value).
  by rewrite (bool_decide_eq_true_2 (py_len _ ≤ 3)), orb_true_r.
Qed.

Lemma accuracy_loop_spec self today od items valid total invalid self' acc :
  Forall (λ kv, is_scalar kv.2) items →
  accuracy_loop self today od items (valid, total, invalid) = Ok (self', acc) →
  self' = self
  ∧ acc = (valid + length (filter (λ kv, format_valid kv = true) items),
           total + length (filter (λ kv, format_checked kv = true) items),
           invalid
           ++ (invalid_entry <$> filter (λ kv, format_invalid kv = true) items)).
Proof.
  intros Hsc. revert self valid total invalid.
  induction Hsc as [|[key value] items Hv _ IH]; intros self valid total invalid H.
  - cbn in H. injection H as <- <-. cbn.
    by rewrite !Nat.add_0_r, app_nil_r.
  - cbn [accuracy_loop] in H. rewrite !filter_cons.
    assert (format_checked (key, value)
            = negb (py_in "confidences" key || py_in "confidence" key)
              && nonblank value) as Hfc by done.
    assert (format_valid (key, value)
            = format_checked (key, value)
              && validate_format (last_segment key) (py_str value)) as Hfv
      by done.
    assert (format_invalid (key, value)
            = format_checked (key, value)
              && negb (validate_format (last_segment key) (py_str value)))
      as Hfi by done.
    destruct (py_in "confidences" key || py_in "confidence" key).
    { rewrite Hfc in Hfv, Hfi. cbn in Hfc, Hfv, Hfi.
      rewrite !decide_False by congruence. by apply IH. }
    destruct (nonblank value).
    2: { rewrite Hfc in Hfv, Hfi. cbn in Hfc, Hfv, Hfi.
         rewrite !decide_False by congruence. by apply IH. }
    cbn in Hfc. rewrite Hfc in Hfv, Hfi. cbn [andb] in Hfv, Hfi.
    rewrite (decide_True (P := format_checked _ = true)) by done.
    destruct (_check_consistency_with_ocr _ _ _ _ _) as [r|e] eqn:Hr; [| done].
    cbn [mbind result_bind] in H.
    apply consistency_scalar_self in Hr; [| done]. rewrite Hr in H.
    destruct (validate_format _ _); cbn in Hfv, Hfi.
    + rewrite decide_True, decide_False by congruence.
      apply IH in H as [-> ->]. split; [done |]. cbn [length].
      by rewrite !Nat.add_succ_r.
    + rewrite decide_False, decide_True by congruence.
      apply IH in H as [-> ->]. split; [done |]. cbn [length].
      by rewrite fmap_cons, <- app_assoc, !Nat.add_succ_r.
Qed.

Lemma flatten_dict_scalar d parent_key :
  Forall (λ kv, is_scalar kv.2) (_flatten_dict d parent_key).
Proof.
  unfold _flatten_dict. rewrite flatten_value_of_pairs.
  apply dict_update_Forall; [constructor | apply leaves_scalar].
Qed.

Lemma format_invalid_registered kv :
  format_invalid kv = true →
  last_segment kv.1 ∈ ["idNumber"; "mobilePhone"; "landlinePhone"; "postalCode"].
Proof.
  unfold format_invalid. intros [_ H%negb_true_iff]%andb_true_iff.
  apply field_patterns_registered. unfold validate_format in H.
  case_decide; [done |].
  destruct (field_patterns !! last_segment kv.1); [by eexists | done].
Qed.

(** X7: a run of [validate_extracted_data] that returns leaves the
    validator as it was (every flattened value is a scalar, so the date
    coherence check is never reached); [invalid_fields] lists, in order,
    exactly the checked fields whose format is invalid, each with the reason
    "Invalid format"; [valid_format_fields] counts the checked fields whose
    format is valid; only fields named idNumber, mobilePhone, landlinePhone
    or postalCode can be invalid, so without such a field every checked
    field counts as valid. *)
Theorem accuracy_fields_spec self today sd od self' r :
  validate_extracted_data self today sd od = Ok (self', r) →
  let flat_data := _flatten_dict sd "" in
  self' = self
  ∧ invalid_fields (accuracy r)
    = invalid_entry <$> filter (λ kv, format_invalid kv = true) flat_data
  ∧ valid_format_fields (accuracy r)
    = length (filter (λ kv, format_valid kv = true) flat_data)
  ∧ Forall (λ f, last_segment (if_field f)
                 ∈ ["idNumber"; "mobilePhone"; "landlinePhone"; "postalCode"]
                 ∧ if_reason f = "Invalid format")
      (invalid_fields (accuracy r))
  ∧ ((∀ kv, kv ∈ flat_data →
        last_segment kv.1
        ∉ ["idNumber"; "mobilePhone"; "landlinePhone"; "postalCode"]) →
     invalid_fields (accuracy r) = []
     ∧ valid_format_fields (accuracy r) = a_total_fields (accuracy r)).
Proof.
  intros H flat_data.
  destruct (validate_extracted_data_result _ _ _ _ _ _ H)
    as (valid & total & invalid & Hloop & ->).
  apply accuracy_loop_spec in Hloop as [-> [= -> -> ->]];
    [| apply flatten_dict_scalar].
  fold flat_data. cbn [accuracy invalid_fields valid_format_fields a_total_fields].
  split_and!; try done.
  - apply Forall_fmap, Forall_forall. intros kv [Hkv _]%list_elem_of_filter.
    split; [by apply format_invalid_registered | done].
  - intros Hnone.
    assert (∀ kv, kv ∈ flat_data → format_invalid kv = false) as Hinv.
    { intros kv Hkv. destruct (format_invalid kv) eqn:E; [| done].
      apply format_invalid_registered in E. by apply Hnone in Hkv. }
    clearbody flat_data. clear H.
    induction flat_data as [|kv l IH]; [done |].
    rewrite !filter_cons.
    assert (format_invalid kv = false) as Hkv by (apply Hinv; left).
    destruct IH as [IH1 IH2].
    { intros ? ?. apply Hnone. by right. }
    { intros ? ?. apply Hinv. by right. }
    rewrite (decide_False (P := format_invalid kv = true)) by congruence.
    split; [done |].
    unfold format_valid, format_invalid in *.
    destruct (format_checked kv); cbn [andb] in *.
    + apply negb_false_iff in Hkv. rewrite Hkv.
      rewrite !decide_True by done. cbn [length]. lia.
    + rewrite !decide_False by done. done.
Qed.

(** An ID number of five digits is the one invalid field. *)
Lemma accuracy_fields_spec_witness :
  ∃ self' r,
    validate_extracted_data sample_validator sample_today nameless_form
      sample_ocr = Ok (self', r)
    ∧ self' = sample_validator
    ∧ invalid_fields (accuracy r)
      = [InvalidField "idNumber" (PStr "12345") "Invalid format"]
    ∧ valid_format_fields (accuracy r) = 1.
Proof.
  eexists _, _. split; [vm_compute; reflexivity |].
  match goal with
  | |- _ ∧ invalid_fields (accuracy ?r) = _ ∧ _ =>
      destruct (accuracy_fields_spec sample_validator sample_today
                  nameless_form sample_ocr sample_validator r)
        as (Hself & Hinv & Hvalid & _); [vm_compute; reflexivity |]
  end.
  split; [reflexivity |]. split; [| exact Hvalid].
  rewrite Hinv. vm_compute. reflexivity.
Defined.

(** ** Date coherence *)

Lemma date_coherence_reads self today field_name date_dict date :
  reads_as date_dict date →
  ∃ before,
    Forall (λ m, ¬ is_order_msg m) before
    ∧ _check_date_coherence self today field_name date_dict
      = (remember_injury self field_name date,
         before
         ++ match injury_date (remember_injury self field_name date) with
            | Some injury =>
                if py_in "filling" (py_lower field_name) && dt_lt date injury
                then [FillingBeforeInjury date injury] else []
            | None => []
            end).
Proof.
  intros (ds & ms & ys & day & month & year & Hd & Hm & Hy & Hdd & Hmd & Hyd
          & Hdi & Hmi & Hyi & Hnew).
  unfold _check_date_coherence, date_keys_present, dict_has, dict_item.
  cbn [forallb]. rewrite Hd, Hm, Hy.
  rewrite !bool_decide_eq_true_2 by (by eexists). cbn [andb negb].
  cbn [mbind result_bind isdigit_of and_then]. rewrite Hdd.
  cbn [mbind result_bind isdigit_of and_then]. rewrite Hmd.
  cbn [mbind result_bind isdigit_of and_then]. rewrite Hyd.
  cbn [negb py_int]. unfold int_of_str. rewrite Hdi, Hmi, Hyi.
  cbn [mbind result_bind]. rewrite Hnew. cbv zeta.
  fold (remember_injury self field_name date).
  eexists. split; [| rewrite !app_assoc; reflexivity].
  repeat apply Forall_app_2; unfold future_date_msgs;
    repeat case_match; repeat constructor; auto.
Qed.

Lemma date_coherence_keeps self today field_name date_dict :
  (_check_date_coherence self today field_name date_dict).1 = self
  ∨ py_in "injury" (py_lower field_name) = true
    ∧ ∃ date, (_check_date_coherence self today field_name date_dict).1
              = Validator (Some date)
              ∧ DateIsValid field_name date
                ∈ (_check_date_coherence self today field_name date_dict).2.
Proof.
  unfold _check_date_coherence. case_match; [by left |].
  match goal with |- context [match ?p with _ => _ end] => destruct p as [[[[day month] year]|]|e] end;
    [| by left | by left].
  cbv zeta. destruct (datetime_new year month day) as [date|e];
    [| case_decide; by left].
  cbn [fst snd]. destruct (py_in "injury" (py_lower field_name)); [| by left].
  right. split; [done |]. exists date. split; [done |].
  apply elem_of_app. right. by left.
Qed.

(** X9: [_check_date_coherence] remembers the date of a field whose name
    mentions "injury"; when it then checks a field whose name mentions
    "filling" (and not "injury"), it keeps the remembered date and reports
    "filling before injury" exactly when the filling date is earlier than
    the injury date, and reports no other order error.  In general the
    validator changes only for a field whose name mentions "injury" and
    whose date is valid. *)
Theorem date_coherence_order self today injury_field filling_field
    injury_dict filling_dict injury filling :
  py_in "injury" (py_lower injury_field) = true →
  py_in "filling" (py_lower filling_field) = true →
  py_in "injury" (py_lower filling_field) = false →
  reads_as injury_dict injury → reads_as filling_dict filling →
  let first := _check_date_coherence self today injury_field injury_dict in
  let second := _check_date_coherence first.1 today filling_field filling_dict in
  injury_date first.1 = Some injury
  ∧ second.1 = first.1
  ∧ (FillingBeforeInjury filling injury ∈ second.2 ↔ dt_lt filling injury = true)
  ∧ (∀ m, m ∈ second.2 → is_order_msg m →
       m = FillingBeforeInjury filling injury)
  ∧ (∀ self0 field_name date_dict,
       let out := _check_date_coherence self0 today field_name date_dict in
       out.1 = self0
       ∨ py_in "injury" (py_lower field_name) = true
         ∧ ∃ date, out.1 = Validator (Some date)
                   ∧ DateIsValid field_name date ∈ out.2).
Proof.
  intros Hinj Hfill Hfi Hr1 Hr2 first second.
  destruct (date_coherence_reads self today injury_field _ _ Hr1)
    as (before1 & _ & H1).
  assert (first.1 = Validator (Some injury)) as Hfirst.
  { subst first. rewrite H1. unfold remember_injury. by rewrite Hinj. }
  destruct (date_coherence_reads first.1 today filling_field _ _ Hr2)
    as (before2 & Hb2 & H2).
  fold second in H2. unfold remember_injury in H2.
  rewrite Hfi, Hfill, Hfirst in H2. cbn [injury_date andb] in H2.
  rewrite H2, Hfirst. cbn [fst snd injury_date].
  assert (∀ m, m ∈ before2 → ¬ is_order_msg m) as Hb by (by apply Forall_forall).
  split_and!; try done.
  - rewrite elem_of_app. split.
    + intros [Hin | Hin]; [by apply Hb in Hin |].
      destruct (dt_lt filling injury); [done | by apply elem_of_nil in Hin].
    + intros ->. right. by left.
  - intros m [Hin | Hin]%elem_of_app Hm; [by apply Hb in Hin |].
    destruct (dt_lt filling injury); [| by apply elem_of_nil in Hin].
    by apply list_elem_of_singleton in Hin.
  - intros self0 field_name date_dict. apply date_coherence_keeps.
Qed.

(** A form filled on 5 January 2024 for an injury of 10 January 2024. *)
Lemma date_coherence_order_witness :
  FillingBeforeInjury (Datetime 2024 1 5) (Datetime 2024 1 10)
  ∈ (_check_date_coherence
       (_check_date_coherence sample_validator sample_today "dateOfInjury"
          injury_dict).1
       sample_today "formFillingDate" filling_dict).2.
Proof.
  apply (date_coherence_order sample_validator sample_today "dateOfInjury"
           "formFillingDate" injury_dict filling_dict
           (Datetime 2024 1 10) (Datetime 2024 1 5));
    [reflexivity | reflexivity | reflexivity | | | reflexivity].
  - exists "10", "1", "2024", 10%Z, 1%Z, 2024%Z. by vm_compute.
  - exists "5", "1", "2024", 5%Z, 1%Z, 2024%Z. by vm_compute.
Defined.

(** ** Dates of any components *)


(** ** Expected formats *)

Lemma ratio_gt_tenths k a b :
  0 < b →
  (Q2Qc (Z.of_nat k # 10) < ratio a b)%Qc ↔ k * b < 10 * a.
Proof.
  intros Hpos. unfold ratio. rewrite Q2Qc_lt. unfold Qlt. simpl.
  rewrite Zpos_of_nat by done. lia.
Qed.

Lemma py_len_pos value : value ≠ "" → 0 < py_len value.
Proof. destruct value; [done | cbn; lia]. Qed.

Lemma digits_ratio_gt k value :
  0 < k →
  (Q2Qc (Z.of_nat k # 10) < digits_ratio value)%Qc
  ↔ k * py_len value < 10 * digit_count value.
Proof.
  intros Hk. unfold digits_ratio. case_decide as Hv.
  - subst value. rewrite Q2Qc_lt. unfold Qlt. cbn. lia.
  - fold (digit_count value). by apply ratio_gt_tenths, py_len_pos.
Qed.

Lemma digits_ratio_lt_half value :
  (digits_ratio value < Q2Qc (5 # 10))%Qc
  ↔ value = "" ∨ 2 * digit_count value < py_len value.
Proof.
  unfold digits_ratio. case_decide as Hv.
  - subst value. split; [by left | done].
  - fold (digit_count value). rewrite ratio_lt_half by (by apply py_len_pos).
    split; [by right | by intros [? | ?]].
Qed.

(** X11: the format the validator expects of a field type, in numbers of
    characters: a phone value matches when more than 7 characters in 10 are
    digits, a numeric value when more than 9 in 10 are, a text value when it
    is empty or fewer than half are; every other type matches always, and
    the expected format is empty exactly for the types the validator does
    not know. *)
Theorem matches_expected_format_spec value :
  (_matches_expected_format value (_get_expected_format "phone") = true
   ↔ 7 * py_len value < 10 * digit_count value)
  ∧ (_matches_expected_format value (_get_expected_format "numeric") = true
     ↔ 9 * py_len value < 10 * digit_count value)
  ∧ (_matches_expected_format value (_get_expected_format "text") = true
     ↔ value = "" ∨ 2 * digit_count value < py_len value)
  ∧ (∀ field_type, field_type ∉ ["numeric"; "phone"; "text"] →
       _matches_expected_format value (_get_expected_format field_type) = true)
  ∧ (∀ field_type, _get_expected_format field_type = "" ↔
       field_type ∉ ["numeric"; "phone"; "date"; "text"; "address"]).
Proof.
  split_and!.
  - change (_matches_expected_format value (_get_expected_format "phone"))
      with (bool_decide (Q2Qc (7 # 10)%Q < digits_ratio value)%Qc).
    rewrite bool_decide_eq_true. apply (digits_ratio_gt 7). lia.
  - change (_matches_expected_format value (_get_expected_format "numeric"))
      with (bool_decide (Q2Qc (9 # 10)%Q < digits_ratio value)%Qc).
    rewrite bool_decide_eq_true. apply (digits_ratio_gt 9). lia.
  - change (_matches_expected_format value (_get_expected_format "text"))
      with (bool_decide (digits_ratio value < Q2Qc (5 # 10)%Q)%Qc).
    rewrite bool_decide_eq_true. apply digits_ratio_lt_half.
  - intros field_type Hf. unfold _get_expected_format. cbn [dict_get].
    repeat case_decide; subst; try done; set_solver.
  - intros field_type. unfold _get_expected_format. cbn [dict_get].
    repeat case_decide; subst; cbn; split; try done; set_solver.
Qed.

(** ** The shape of a bounding box *)

Lemma min_le_max a l : (foldl qmin a l ≤ foldl qmax a l)%Qc.
Proof.
  destruct (foldl_qmin a l) as [_ Hmin], (foldl_qmax a l) as [_ Hmax].
  eapply Qcle_trans; [apply (Hmin a) | apply (Hmax a)]; by left.
Qed.

(** X12: the box [_extract_bounding_box] returns always has the four keys
    x, y, width and height, and its width and height are never negative. *)
Theorem extract_bounding_box_shape (polygon : list pelem) :
  ∃ x y w h,
    _extract_bounding_box polygon = Ok (box x y w h)
    ∧ (Q2Qc 0 ≤ w)%Qc ∧ (Q2Qc 0 ≤ h)%Qc
    ∧ complete_box (box x y w h).
Proof.
  assert (∀ x y w h, complete_box (box x y w h)) as Hc.
  { intros x y w h. unfold complete_box.
    destruct (box_lookup x y w h) as (-> & -> & -> & ->). eauto. }
  assert (∃ x y w h,
            Ok default_box = Ok (box x y w h)
            ∧ (Q2Qc 0 ≤ w)%Qc ∧ (Q2Qc 0 ≤ h)%Qc
            ∧ complete_box (box x y w h)) as Hdefault.
  { exists (Q2Qc 0), (Q2Qc 0), (Q2Qc 100), (Q2Qc 20). by split_and!. }
  unfold _extract_bounding_box.
  destruct (polygon_coordinates polygon) as [[[xs ys]|]|e]; [| done | done].
  cbn [mbind result_bind].
  destruct xs as [|x0 xs]; [done |]. cbn [py_min mbind result_bind].
  destruct ys as [|y0 ys]; [done |]. cbn [py_min py_max mbind result_bind try_except_all].
  eexists _, _, _, _. split; [reflexivity |].
  split_and!; [| | done].
  - pose proof (min_le_max x0 xs). qc2q. lra.
  - pose proof (min_le_max y0 ys). qc2q. lra.
Qed.

(** ** Flattening and rebuilding in the editor *)

Lemma paths_bind d : paths (PDict d) = d ≫= path_entry.
Proof.
  cbn [paths]. induction d as [|[k x] d IH]; [done |].
  rewrite bind_cons, <- IH. by destruct x.
Qed.

Lemma nested_ok_dict d :
  nested_ok (PDict d) ↔
  d ≠ [] ∧ NoDup d.*1 ∧ Forall (λ kv, plain_key kv.1 ∧ nested_ok kv.2) d.
Proof.
  cbn [nested_ok].
  assert ((fix all (l : list (string * pyval)) : Prop :=
             match l with
             | [] => True
             | (k, x) :: l' => plain_key k ∧ nested_ok x ∧ all l'
             end) d
          ↔ Forall (λ kv, plain_key kv.1 ∧ nested_ok kv.2) d) as ->; [| done].
  induction d as [|[k x] d IH]; [by split; [constructor |] |].
  rewrite Forall_cons, IH. cbn [fst snd]. tauto.
Qed.

Lemma insert_all_app a b root :
  insert_all (a ++ b) root = insert_all a root ≫= insert_all b.
Proof.
  revert root. induction a as [|[p v] a IH]; intros root; [done |].
  cbn [app insert_all].
  destruct (App.insert_path p v root) as [r|e]; [| done]. apply IH.
Qed.

(** Inserting under one key: all the paths start with [k] and go on. *)
Lemma insert_all_under k items root sub0 :
  items ≠ [] → Forall (λ pv, pv.1 ≠ []) items →
  (dict_get k root = None ∧ sub0 = [] ∨ dict_get k root = Some (PDict sub0)) →
  insert_all ((λ pv, (k :: pv.1, pv.2)) <$> items) root
  = sub ← insert_all items sub0; Ok (dict_set k (PDict sub) root).
Proof.
  intros Hne Hpaths. revert root sub0 Hne.
  induction Hpaths as [|[p v] items Hp _ IH]; intros root sub0 Hne Hroot;
    [done |].
  rewrite fmap_cons. cbn [insert_all fst snd] in *.
  destruct p as [|k1 p]; [done |].
  assert (App.insert_path (k :: k1 :: p) v root
          = sub ← App.insert_path (k1 :: p) v sub0;
            Ok (dict_set k (PDict sub) root)) as ->.
  { cbn [App.insert_path]. by destruct Hroot as [[-> ->] | ->]. }
  destruct (App.insert_path (k1 :: p) v sub0) as [sub1|e]; [| done].
  cbn [mbind result_bind].
  destruct items as [|item items]; [done |].
  rewrite (IH (dict_set k (PDict sub1) root) sub1); [| done |].
  - destruct (insert_all _ sub1) as [sub|e]; [| done].
    cbn [mbind result_bind]. by rewrite dict_set_set.
  - right. clear. induction root as [|[k' v'] root IH]; cbn.
    + by rewrite decide_True.
    + case_decide; cbn; [by rewrite decide_True | by rewrite decide_False].
Qed.

Lemma dict_get_None {V} k (d : list (string * V)) :
  dict_get k d = None ↔ k ∉ d.*1.
Proof.
  induction d as [|[k' v] d IH]; cbn; [by split; [intros _ ?%elem_of_nil |] |].
  rewrite not_elem_of_cons. case_decide; [| rewrite IH]; split; try done;
    try tauto.
  by intros [? ?].
Qed.

Lemma paths_nonempty v :
  nested_ok v → (∃ d, v = PDict d) → paths v ≠ [].
Proof.
  induction v as [| s | d IH] using pyval_nested_ind;
    [by intros _ [? ?] | by intros _ [? ?] |].
  intros (Hne & _ & Hall)%nested_ok_dict _.
  rewrite paths_bind. destruct d as [|[k x] d]; [done |].
  apply Forall_cons in IH as [IHx _], Hall as [[_ Hx] _]. cbn [snd] in *.
  rewrite bind_cons. unfold path_entry. cbn [fst snd].
  destruct x as [| s | d']; [done | done |].
  intros [H _]%app_eq_nil. apply fmap_nil_inv in H.
  by apply IHx in H; [| | eexists].
Qed.

Lemma paths_heads v : Forall (λ pv, pv.1 ≠ []) (paths v).
Proof.
  destruct v as [| s | d]; [constructor | constructor |].
  rewrite paths_bind. apply Forall_bind, Forall_forall. intros [k x] _.
  unfold path_entry. cbn [fst snd].
  destruct x; [by repeat constructor | by repeat constructor |].
  apply Forall_fmap, Forall_forall. by intros ? _.
Qed.

(** Inserting the leaves of a well-formed dict rebuilds it. *)
Lemma insert_all_paths v d acc :
  v = PDict d →
  NoDup d.*1 → Forall (λ kv, plain_key kv.1 ∧ nested_ok kv.2) d →
  NoDup (acc.*1 ++ d.*1) →
  insert_all (paths v) acc = Ok (acc ++ d).
Proof.
  revert d acc.
  induction v as [| s | d0 IH] using pyval_nested_ind; [done | done |].
  intros d acc [= ->] _ Hall Hnd. rewrite paths_bind.
  revert acc Hnd. induction d as [|[k x] d IHd]; intros acc Hnd.
  - by rewrite app_nil_r.
  - apply Forall_cons in IH as [IHx IH], Hall as [[Hk Hx] Hall].
    cbn [fst snd] in *. rewrite bind_cons, insert_all_app.
    rewrite fmap_cons in Hnd. cbn [fst] in Hnd.
    assert (k ∉ acc.*1) as Hfresh.
    { apply NoDup_app in Hnd as (_ & Hdisj & _). intros Hin.
      eapply Hdisj; [done | left]. }
    assert (insert_all (path_entry (k, x)) acc = Ok (acc ++ [(k, x)])) as ->.
    { unfold path_entry. cbn [fst snd]. destruct x as [| s | sub].
      - cbn. by rewrite dict_set_fresh.
      - cbn. by rewrite dict_set_fresh.
      - apply nested_ok_dict in Hx as Hsub. destruct Hsub as (Hne & Hnds & Hs).
        rewrite (insert_all_under k _ acc []).
        + rewrite (IHx sub []); [| done | done | done | by rewrite app_nil_l].
          cbn [mbind result_bind app]. by rewrite dict_set_fresh.
        + apply paths_nonempty; [done | by eexists].
        + apply paths_heads.
        + left. split; [| done]. by apply dict_get_None. }
    cbn [mbind result_bind]. rewrite IHd; [by rewrite <- app_assoc | done | done |].
    rewrite fmap_app, <- app_assoc. done.
Qed.

Lemma split_on_chars_plain sep cur k :
  sep ∉ k → App.split_on_chars sep cur k = [reverse cur ++ k].
Proof.
  revert cur. induction k as [|c k IH]; intros cur Hk.
  - by rewrite app_nil_r.
  - apply not_elem_of_cons in Hk as [Hc Hk]. cbn.
    rewrite decide_False by done. rewrite IH by done.
    by rewrite reverse_cons, <- app_assoc.
Qed.

Lemma split_on_chars_snoc sep cur l k :
  sep ∉ k →
  App.split_on_chars sep cur (l ++ sep :: k)
  = App.split_on_chars sep cur l ++ [k].
Proof.
  intros Hk. revert cur. induction l as [|c l IH]; intros cur; cbn.
  - rewrite decide_True by done. by rewrite split_on_chars_plain.
  - case_decide; [by rewrite IH | apply IH].
Qed.

Lemma dotted_snoc path k : dotted (path ++ [k]) = join_key (dotted path) k.
Proof. unfold dotted. by rewrite foldl_app. Qed.

Lemma dotted_nonempty path :
  path ≠ [] → Forall plain_key path → dotted path ≠ "".
Proof.
  induction path as [|k path IH] using rev_ind; [done |].
  intros _ [_ [Hk _]%Forall_singleton]%Forall_app.
  rewrite dotted_snoc. unfold join_key. case_decide; [| done].
  intros Heq. apply (f_equal chars) in Heq. rewrite !chars_app in Heq.
  by apply app_eq_nil in Heq as [_ Heq].
Qed.

Lemma split_dot_dotted path :
  path ≠ [] → Forall plain_key path → App.split_dot (dotted path) = path.
Proof.
  induction path as [|k path IH] using rev_ind; [done |].
  intros _ [Hpath [Hk Hdot]%Forall_singleton]%Forall_app.
  rewrite dotted_snoc. unfold join_key, App.split_dot.
  destruct path as [|k0 path].
  - cbn. rewrite split_on_chars_plain by done. cbn. by rewrite str_of_chars.
  - rewrite decide_True by (by apply dotted_nonempty).
    rewrite !chars_app. change (chars ".") with ["."%char]. cbn [app].
    rewrite split_on_chars_snoc by done. rewrite fmap_app.
    unfold App.split_dot in IH. rewrite IH by done.
    cbn. by rewrite str_of_chars.
Qed.

Lemma flatten_items_paths v prefix :
  App.flatten_items v (dotted prefix)
  = (λ pv, (dotted (prefix ++ pv.1), pv.2)) <$> paths v.
Proof.
  rewrite flatten_items_leaves. revert prefix.
  induction v as [| s | d IH] using pyval_nested_ind; intros prefix;
    [done | done |].
  rewrite leaves_bind, paths_bind.
  induction d as [|[k x] d IHd]; [done |].
  apply Forall_cons in IH as [IHx IH]. cbn [snd] in IHx.
  rewrite !bind_cons, fmap_app, IHd by done. f_equal.
  unfold leaves_entry, path_entry. cbn [fst snd].
  rewrite <- dotted_snoc.
  destruct x as [| s | sub]; [done | done |].
  rewrite IHx, <- list_fmap_compose. apply list_fmap_ext.
  intros _ [p v] _. cbn. by rewrite <- app_assoc.
Qed.

Lemma rebuild_loop_paths items root :
  Forall (λ pv, pv.1 ≠ [] ∧ Forall plain_key pv.1) items →
  App.rebuild_loop ((λ pv, (dotted pv.1, pv.2)) <$> items) root
  = insert_all items root.
Proof.
  intros H. revert root.
  induction H as [|[p v] items [Hne Hp] _ IH]; intros root; [done |].
  rewrite fmap_cons. cbn [App.rebuild_loop insert_all fst snd] in *.
  rewrite split_dot_dotted by done.
  destruct (App.insert_path p v root); [apply IH | done].
Qed.

Lemma paths_plain v d :
  v = PDict d → Forall (λ kv, plain_key kv.1 ∧ nested_ok kv.2) d →
  Forall (λ pv, pv.1 ≠ [] ∧ Forall plain_key pv.1) (paths v).
Proof.
  revert d. induction v as [| s | d0 IH] using pyval_nested_ind;
    [done | done |].
  intros d [= ->] Hall. rewrite paths_bind.
  apply Forall_bind. induction Hall as [|[k x] d [Hk Hx] _ IHd];
    [constructor |].
  apply Forall_cons in IH as [IHx IH]. cbn [fst snd] in *.
  constructor; [| by apply IHd].
  unfold path_entry. cbn [fst snd]. destruct x as [| s | sub].
  - apply Forall_singleton. split; [done | by apply Forall_singleton].
  - apply Forall_singleton. split; [done | by apply Forall_singleton].
  - apply nested_ok_dict in Hx as (_ & _ & Hsub).
    apply Forall_fmap. eapply Forall_impl; [by apply (IHx sub) |].
    intros [p v] [Hne Hp]. cbn. split; [done | by constructor].
Qed.

(** X13: [rebuild_dict] undoes [flatten_dict] of the form editor on every
    dict whose keys, at every level, are distinct, not empty and without a
    dot, and whose nested dicts are not empty: the rebuilt dict is the
    original one, with the keys in the original order. *)
Theorem rebuild_flatten_round_trip d :
  editable d →
  App.rebuild_dict (App.flatten_dict d "") = Ok d.
Proof.
  intros [Hnd Hall]. unfold App.rebuild_dict, App.flatten_dict.
  change "" with (dotted []). rewrite flatten_items_paths.
  cbn [app]. rewrite rebuild_loop_paths by (by eapply paths_plain).
  by rewrite (insert_all_paths _ d []).
Qed.

Lemma sample_form_editable : editable sample_form.
Proof.
  split; [by apply (bool_decide_unpack _); vm_compute |].
  repeat (apply Forall_cons; split;
          [split; [split; [done | by apply (bool_decide_unpack _); vm_compute] |] |]);
    try apply Forall_nil_2; try done.
  all: apply nested_ok_dict; split; [done |];
    (split; [by apply (bool_decide_unpack _); vm_compute |]).
  all: repeat (apply Forall_cons; split;
          [split; [split; [done | by apply (bool_decide_unpack _); vm_compute] | done] |]);
    apply Forall_nil_2.
Qed.

(** The sample form survives the way through the editor. *)
Lemma rebuild_flatten_round_trip_witness :
  editable sample_form
  ∧ App.rebuild_dict (App.flatten_dict sample_form "") = Ok sample_form.
Proof.
  split; [exact sample_form_editable |].
  apply (rebuild_flatten_round_trip sample_form). exact sample_form_editable.
Defined.

Lemma walk_error_class v rest : exn_cls (App.walk_error v rest) = TypeError.
Proof.
  destruct v as [| s | d], rest as [|p [|q rest]]; cbn; try done.
  by case_match.
Qed.

Lemma insert_path_raise parts value d e :
  App.insert_path parts value d = Raise e → exn_cls e = TypeError.
Proof.
  revert d e. induction parts as [|part rest IH]; intros d e; [done |].
  cbn [App.insert_path]. destruct rest as [|part2 rest]; [done |].
  destruct (dict_get part d) as [[| s | sub0]|].
  - intros [= <-]. apply (walk_error_class PNone (part2 :: rest)).
  - intros [= <-]. apply (walk_error_class (PStr s) (part2 :: rest)).
  - destruct (App.insert_path (part2 :: rest) value sub0) eqn:H; [done |].
    cbn. intros [= <-]. by eapply IH.
  - destruct (App.insert_path (part2 :: rest) value []) eqn:H; [done |].
    cbn. intros [= <-]. by eapply IH.
Qed.

Lemma rebuild_loop_raise items root e :
  App.rebuild_loop items root = Raise e → exn_cls e = TypeError.
Proof.
  revert root e. induction items as [|[key value] items IH]; intros root e;
    [done |].
  cbn [App.rebuild_loop].
  destruct (App.insert_path _ value root) as [r|e'] eqn:H.
  - apply IH.
  - cbn. intros [= <-]. by eapply insert_path_raise.
Qed.

(** X14: the only exception [rebuild_dict] raises is TypeError, and it
    does when a key continues below a key that holds a string; of two pairs
    with the same key the later value is kept; an empty nested dict is lost
    on the way through [flatten_dict] and [rebuild_dict]. *)
Theorem rebuild_dict_errors :
  (∀ flat_items e,
     App.rebuild_dict flat_items = Raise e → exn_cls e = TypeError)
  ∧ (∀ k k2 s value,
       plain_key k → plain_key k2 →
       ∃ e, App.rebuild_dict [(k, PStr s); (k +:+ "." +:+ k2, value)]
            = Raise e)
  ∧ (∀ k value1 value2,
       plain_key k →
       App.rebuild_dict [(k, value1); (k, value2)] = Ok [(k, value2)])
  ∧ (∀ k, App.rebuild_dict (App.flatten_dict [(k, PDict [])] "") = Ok []).
Proof.
  split_and!.
  - intros flat_items e. apply rebuild_loop_raise.
  - intros k k2 s value Hk Hk2. unfold App.rebuild_dict.
    cbn [App.rebuild_loop].
    assert (App.split_dot k = [k]) as ->
      by (apply (split_dot_dotted [k]); [done | by constructor]).
    assert (App.split_dot (k +:+ "." +:+ k2) = [k; k2]) as ->.
    { destruct Hk as [Hk ?].
      assert (dotted [k; k2] = k +:+ "." +:+ k2) as <-.
      { unfold dotted. cbn [foldl]. change (join_key "" k) with k.
        unfold join_key. by rewrite decide_True. }
      apply split_dot_dotted; [done |].
      apply Forall_cons. split; [done |]. by apply Forall_singleton. }
    cbn. rewrite decide_True by done. by eexists.
  - intros k value1 value2 Hk. unfold App.rebuild_dict.
    cbn [App.rebuild_loop].
    assert (App.split_dot k = [k]) as ->
      by (apply (split_dot_dotted [k]); [done | by constructor]).
    cbn. by rewrite decide_True.
  - done.
Qed.

(** ** The copy of the expected fields *)

Lemma copy_fields_fmap schema source :
  plain_schema schema →
  Extractor.copy_fields (PDict schema) source
  = (λ kv, (kv.1, copied source kv)) <$> schema.
Proof.
  intros [Hnd Hkeys]. cbn [Extractor.copy_fields].
  assert (∀ target,
    NoDup (target.*1 ++ schema.*1) →
    (fix loop (entries target : list (string * pyval))
         : list (string * pyval) :=
         match entries with
         | [] => target
         | (key, value) :: rest =>
             if Extractor.confidence_key key then loop rest target
             else
               loop rest
                 (dict_set key
                    match value with
                    | PDict sub_schema =>
                        match dict_get key source with
                        | Some (PDict sub_source) =>
                            PDict (Extractor.copy_fields value sub_source)
                        | _ => PDict (Extractor.empty_structure sub_schema)
                        end
                    | _ => default (PStr "") (dict_get key source)
                    end
                    target)
         end) schema target
    = target ++ ((λ kv, (kv.1, copied source kv)) <$> schema)) as H.
  { clear Hnd. induction Hkeys as [|[k v] schema Hk _ IH]; intros target Hnd.
    - by rewrite app_nil_r.
    - cbn [fst] in Hk. rewrite Hk. rewrite fmap_cons in Hnd. cbn [fst] in Hnd.
      rewrite IH.
      + rewrite dict_set_fresh; [by rewrite <- app_assoc |].
        apply NoDup_app in Hnd as (_ & Hdisj & _). intros Hin.
        eapply Hdisj; [done | left].
      + rewrite dict_set_keys, decide_False.
        * by rewrite <- app_assoc.
        * apply NoDup_app in Hnd as (_ & Hdisj & _). intros Hin.
          eapply Hdisj; [done | left]. }
  by rewrite H.
Qed.

Lemma plain_schema_dec_true schema :
  bool_decide (NoDup schema.*1)
  && forallb (λ kv, negb (Extractor.confidence_key kv.1)) schema = true →
  plain_schema schema.
Proof.
  intros [Hnd Hk]%andb_true_iff. split; [by apply bool_decide_eq_true in Hnd |].
  apply Forall_forall. intros kv Hkv.
  rewrite forallb_forall in Hk. apply negb_true_iff, Hk.
  by apply list_elem_of_In.
Qed.

Lemma expected_schema_two_level : two_level Extractor.expected_schema.
Proof.
  split; [by apply plain_schema_dec_true; vm_compute |].
  repeat (apply Forall_cons; split;
          [intros sub [= <-];
           (split; [by apply plain_schema_dec_true; vm_compute
                   | repeat constructor]) || idtac |]);
    try (intros sub; discriminate).
  all: try constructor.
Qed.

Lemma dict_get_fmap {V} (f : string * V → V) l k v :
  NoDup l.*1 → (k, v) ∈ l →
  dict_get k ((λ kv, (kv.1, f kv)) <$> l) = Some (f (k, v)).
Proof.
  induction l as [|[k' v'] l IH]; [by intros _ ?%elem_of_nil |].
  rewrite fmap_cons. intros [Hk Hnd]%NoDup_cons [[= -> ->] | Hin]%elem_of_cons.
  - cbn. by rewrite decide_True.
  - cbn. rewrite decide_False; [by apply IH |].
    intros ->. apply Hk. apply list_elem_of_fmap. by exists (k, v).
Qed.

Lemma fmap_keys {V W} (f : string * V → W) (l : list (string * V)) :
  ((λ kv, (kv.1, f kv)) <$> l).*1 = l.*1.
Proof. rewrite <- list_fmap_compose. by apply list_fmap_ext. Qed.

Lemma empty_structure_fmap sub :
  NoDup sub.*1 →
  Extractor.empty_structure sub = (λ kv, (kv.1, PStr "")) <$> sub.
Proof.
  intros Hnd. unfold Extractor.empty_structure.
  rewrite dict_update_fresh; [done |]. cbn [fmap list_fmap app].
  by rewrite (fmap_keys (λ _, PStr "")).
Qed.

(** What is stored under a nested key has the keys of the nested schema and
    comes from a function of the schema entries. *)
Lemma copied_nested source k sub :
  plain_schema sub → Forall (λ kv, is_scalar kv.2) sub →
  ∃ g, copied source (k, PDict sub) = PDict ((λ kv, (kv.1, g kv)) <$> sub)
       ∧ ((∀ sub_source, dict_get k source = Some (PDict sub_source) →
             Forall (λ kv, ∀ v, dict_get kv.1 sub_source = Some v →
                                is_scalar v) sub) →
          Forall (λ kv, is_scalar (g kv)) sub).
Proof.
  intros Hplain Hsc. unfold copied. cbn [fst snd].
  destruct (dict_get k source) as [[| s | sub_source]|] eqn:Hk.
  1,2,4: exists (λ _, PStr ""); split;
    [by rewrite empty_structure_fmap by apply Hplain
    | intros _; by apply Forall_forall].
  exists (copied sub_source). split.
  - by rewrite copy_fields_fmap.
  - intros H. specialize (H sub_source eq_refl).
    apply Forall_forall. intros [j x] Hj.
    rewrite Forall_forall in H, Hsc.
    specialize (H _ Hj). specialize (Hsc _ Hj). cbn [fst snd] in *.
    unfold copied. cbn [fst snd]. destruct x as [| s |]; [| | done].
    + destruct (dict_get j sub_source); [by apply H | done].
    + destruct (dict_get j sub_source); [by apply H | done].
Qed.

Lemma copy_fields_fixed sub (g : string * pyval → pyval) :
  plain_schema sub → Forall (λ kv, is_scalar kv.2) sub →
  Extractor.copy_fields (PDict sub) ((λ kv, (kv.1, g kv)) <$> sub)
  = (λ kv, (kv.1, g kv)) <$> sub.
Proof.
  intros Hplain Hsc. rewrite copy_fields_fmap by done.
  apply list_fmap_ext. intros i [j x] Hi. cbn [fst snd].
  apply list_elem_of_lookup_2 in Hi. f_equal.
  rewrite Forall_forall in Hsc. specialize (Hsc _ Hi). cbn [snd] in Hsc.
  unfold copied. cbn [fst snd].
  rewrite (dict_get_fmap g sub j x) by (by destruct Hplain).
  by destruct x.
Qed.

Lemma copy_fields_idempotent schema source :
  two_level schema →
  Extractor.copy_expected_fields
    (Extractor.copy_expected_fields source schema) schema
  = Extractor.copy_expected_fields source schema.
Proof.
  intros [Hplain Hnested]. unfold Extractor.copy_expected_fields.
  rewrite !copy_fields_fmap by done.
  apply list_fmap_ext. intros i [k x] Hi. cbn [fst snd].
  apply list_elem_of_lookup_2 in Hi. f_equal.
  rewrite Forall_forall in Hnested. specialize (Hnested _ Hi).
  cbn [snd] in Hnested.
  unfold copied at 1. cbn [fst snd].
  rewrite (dict_get_fmap (copied source) schema k x) by (by destruct Hplain).
  destruct x as [| s | sub]; [done | done |].
  destruct (Hnested sub eq_refl) as [Hsub Hsc].
  destruct (copied_nested source k sub Hsub Hsc) as (g & -> & _).
  by rewrite copy_fields_fixed.
Qed.

Lemma leaves_scalar_entries X parent_key :
  Forall (λ kv, is_scalar kv.2) X →
  (leaves (PDict X) parent_key).*1 = join_key parent_key <$> X.*1.
Proof.
  rewrite leaves_bind. induction 1 as [|[j x] X Hx _ IH]; [done |].
  rewrite bind_cons, fmap_app, IH. unfold leaves_entry. cbn [fst snd].
  by destruct x.
Qed.

Lemma copy_fields_leaf_keys schema source :
  two_level schema → scalars_where_expected schema source →
  (leaves (PDict (Extractor.copy_expected_fields source schema)) "").*1
  = (leaves (PDict schema) "").*1.
Proof.
  intros [Hplain Hnested] Hsc. unfold Extractor.copy_expected_fields.
  rewrite copy_fields_fmap by done. rewrite !leaves_bind.
  clear Hplain. unfold scalars_where_expected in Hsc.
  induction schema as [|[k x] schema IH]; [done |].
  apply Forall_cons in Hnested as [Hx Hnested], Hsc as [Hkx Hsc].
  cbn [fst snd] in *.
  rewrite fmap_cons, !bind_cons, !fmap_app, IH by done. f_equal.
  unfold leaves_entry. cbn [fst snd].
  destruct x as [| s | sub].
  - unfold copied. cbn [fst snd].
    destruct (dict_get k source) as [v|]; [| done].
    specialize (Hkx v eq_refl). by destruct v.
  - unfold copied. cbn [fst snd].
    destruct (dict_get k source) as [v|]; [| done].
    specialize (Hkx v eq_refl). by destruct v.
  - destruct (Hx sub eq_refl) as [Hsub Hscalar].
    destruct (copied_nested source k sub Hsub Hscalar) as (g & -> & Hg).
    specialize (Hg Hkx).
    rewrite !leaves_scalar_entries; [by rewrite fmap_keys | done |].
    apply Forall_fmap. by apply (Forall_impl _ _ _ Hg).
Qed.

(** X15: whatever the source holds, the dict [copy_expected_fields]
    builds from the expected schema has exactly the keys of the schema, in
    order; under a key whose schema entry is a string it holds the value of
    the source, or "" when the source lacks the key; under a key whose
    schema entry is a dict it holds a dict with exactly the keys of that
    entry; copying the copy again changes nothing; and when the source has
    no dict where the schema expects a string, the copy flattens to the 35
    fields of the schema. *)
Theorem copy_expected_fields_spec source :
  let copy := Extractor.copy_expected_fields source Extractor.expected_schema in
  copy.*1 = Extractor.expected_schema.*1
  ∧ (∀ k s, (k, PStr s) ∈ Extractor.expected_schema →
       dict_get k copy = Some (default (PStr "") (dict_get k source)))
  ∧ (∀ k sub_schema, (k, PDict sub_schema) ∈ Extractor.expected_schema →
       ∃ sub, dict_get k copy = Some (PDict sub) ∧ sub.*1 = sub_schema.*1)
  ∧ Extractor.copy_expected_fields copy Extractor.expected_schema = copy
  ∧ (scalars_where_expected Extractor.expected_schema source →
     (_flatten_dict copy "").*1
     = (_flatten_dict Extractor.expected_schema "").*1
     ∧ length (_flatten_dict copy "") = 35).
Proof.
  intros copy. pose proof expected_schema_two_level as Htwo.
  destruct Htwo as [Hplain Hnested] eqn:E. clear E.
  assert (copy = (λ kv, (kv.1, copied source kv))
                 <$> Extractor.expected_schema) as Hcopy
    by (by apply copy_fields_fmap).
  split_and!.
  - by rewrite Hcopy, fmap_keys.
  - intros k s Hk. rewrite Hcopy.
    by rewrite (dict_get_fmap (copied source) _ k (PStr s))
      by (by destruct Hplain).
  - intros k sub_schema Hk. rewrite Hcopy.
    rewrite (dict_get_fmap (copied source) _ k (PDict sub_schema))
      by (by destruct Hplain).
    rewrite Forall_forall in Hnested.
    destruct (Hnested _ Hk sub_schema eq_refl) as [Hsub Hsc].
    destruct (copied_nested source k sub_schema Hsub Hsc) as (g & -> & _).
    eexists. split; [done |]. by rewrite fmap_keys.
  - by apply copy_fields_idempotent.
  - intros Hsc.
    pose proof (copy_fields_leaf_keys _ source expected_schema_two_level Hsc)
      as Hkeys. fold copy in Hkeys.
    assert (NoDup (leaves (PDict Extractor.expected_schema) "").*1) as Hnd
      by (apply (bool_decide_unpack _); by vm_compute).
    assert (_flatten_dict copy "" = leaves (PDict copy) "") as ->
      by (apply flatten_dict_leaves; by rewrite Hkeys).
    rewrite (flatten_dict_leaves Extractor.expected_schema) by done.
    split; [done |].
    rewrite <- (length_fmap fst), Hkeys, length_fmap. by vm_compute.
Qed.

(** * The validator on an OCR result of any shape

    [Raw.validate_extracted_data] and [Raw._check_consistency_with_ocr]: when
    they return, what they raise, and how they relate to the functions on the
    typed OCR result. *)

(** ** The recursion limit *)

Lemma nesting_entries items :
  Forall (λ kv, nesting kv.2 < nesting (PDict items)) items.
Proof.
  cbn [nesting].
  induction items as [|[k x] items IH]; constructor.
  - cbn [snd]. lia.
  - eapply Forall_impl; [exact IH |]. intros kv. cbn beta. lia.
Qed.

Lemma nesting_cons k x items :
  nesting (PDict ((k, x) :: items))
  = S (nesting x) `max` nesting (PDict items).
Proof. cbn [nesting]. lia. Qed.

Lemma walk_entries depth (items : list (string * pyval)) :
  (∀ v, nesting v ≤ depth → walk depth v = Ok ()) →
  Forall (λ kv, nesting kv.2 ≤ depth) items →
  ∃ us, mapM (λ kv, walk depth kv.2) items = Ok us.
Proof.
  intros Hwalk. induction 1 as [|kv items Hkv _ [us IH]]; [by eexists |].
  cbn [mapM]. rewrite (Hwalk _ Hkv), IH. by eexists.
Qed.

Lemma walk_ok depth v : nesting v ≤ depth → walk depth v = Ok ().
Proof.
  revert v. induction depth as [|depth IH]; intros v Hv.
  - destruct v as [| |items]; [done | done |]. cbn [nesting] in Hv. lia.
  - destruct v as [| |items]; [done | done |]. cbn [walk].
    destruct (walk_entries depth items IH) as [us ->]; [| done].
    eapply Forall_impl; [apply nesting_entries |]. intros kv. cbn beta. lia.
Qed.

Lemma walk_raise depth v :
  depth < nesting v → ∃ msg, walk depth v = Raise (Exn RecursionError msg).
Proof.
  revert v. induction depth as [|depth IH]; intros v Hv.
  - destruct v as [| |items]; try (cbn in Hv; lia). by eexists.
  - destruct v as [| |items]; try (cbn in Hv; lia). cbn [walk].
    assert (∃ msg, mapM (λ kv, walk depth kv.2) items
                   = Raise (Exn RecursionError msg)) as [msg ->]; [| by eexists].
    induction items as [|[k x] items IHitems]; [cbn in Hv; lia |].
    rewrite nesting_cons in Hv. cbn [mapM snd].
    destruct (decide (depth < nesting x)) as [Hx | Hx].
    + destruct (IH x Hx) as [msg ->]. by eexists.
    + rewrite walk_ok by lia. cbn [mbind result_bind].
      destruct IHitems as [msg ->]; [lia |]. by eexists.
Qed.

Lemma walk_returns depth v : returns (walk depth v) ↔ nesting v ≤ depth.
Proof.
  split.
  - intros [u Hu]. destruct (decide (nesting v ≤ depth)) as [| Hn]; [done |].
    destruct (walk_raise depth v) as [msg Hmsg]; [lia | congruence].
  - intros H. rewrite walk_ok by done. by eexists.
Qed.

(** Within the limit the counted [_flatten_dict] is the function on values;
    beyond it the recursion raises. *)
Lemma flatten_dict_within depth d parent_key :
  nesting (PDict d) ≤ depth →
  Raw._flatten_dict depth d parent_key = Ok (_flatten_dict d parent_key).
Proof.
  revert d parent_key. induction depth as [|depth IH]; intros d parent_key Hd.
  - cbn [nesting] in Hd. lia.
  - unfold _flatten_dict. cbn [Raw._flatten_dict flatten_value].
    assert (nesting (PDict d) ≤ S depth) as Hle by done. clear Hd.
    generalize (@nil (string * pyval)).
    induction d as [|[k v] d IHd]; intros items; [done |].
    rewrite nesting_cons in Hle.
    destruct v as [| s | nested].
    + apply IHd. lia.
    + apply IHd. lia.
    + rewrite (IH nested) by lia. cbn [mbind result_bind].
      unfold _flatten_dict. apply IHd. lia.
Qed.

Lemma flatten_dict_beyond depth d parent_key :
  depth < nesting (PDict d) →
  ∃ msg, Raw._flatten_dict depth d parent_key = Raise (Exn RecursionError msg).
Proof.
  revert d parent_key. induction depth as [|depth IH]; intros d parent_key Hd.
  - by eexists.
  - cbn [Raw._flatten_dict].
    generalize (@nil (string * pyval)).
    induction d as [|[k v] d IHd]; intros items; [cbn in Hd; lia |].
    rewrite nesting_cons in Hd.
    destruct v as [| s | nested].
    + apply IHd. cbn [nesting] in *. lia.
    + apply IHd. cbn [nesting] in *. lia.
    + destruct (decide (depth < nesting (PDict nested))) as [Hn | Hn].
      * destruct (IH nested (join_key parent_key k) Hn) as [msg ->].
        by eexists.
      * rewrite flatten_dict_within by lia. cbn [mbind result_bind].
        apply IHd. lia.
Qed.

(** ** Reading the OCR result *)

Lemma span_with_text_get span :
  span_with_text span →
  Raw.get span "text" (JStr "") = Ok (JStr (span_string span)).
Proof.
  intros (d & -> & s & Hs). cbn [Raw.get span_string]. f_equal.
  by destruct (dict_get "text" d) as [[]|]; simplify_eq/=.
Qed.

Lemma span_lower_returns span t :
  (x ← Raw.get span "text" (JStr ""); Raw.lower x) = Ok t →
  span_with_text span.
Proof.
  destruct span as [| | | | |elems|d]; try done. cbn.
  destruct (default (JStr "") (dict_get "text" d)) as [| | | |s| |] eqn:E;
    try done.
  intros _. exists d. split; [done |]. by exists s.
Qed.

Lemma mapM_span_lower spans :
  Forall span_with_text spans →
  mapM (λ span, x ← Raw.get span "text" (JStr ""); Raw.lower x) spans
  = Ok (py_lower <$> (span_string <$> spans)).
Proof.
  induction 1 as [|span spans Hspan%span_with_text_get _ IH]; [done |].
  cbn [mapM]. rewrite Hspan. cbn [Raw.lower mbind result_bind]. by rewrite IH.
Qed.

Lemma mapM_span_lower_returns spans texts :
  mapM (λ span, x ← Raw.get span "text" (JStr ""); Raw.lower x) spans
  = Ok texts →
  Forall span_with_text spans.
Proof.
  revert texts. induction spans as [|span spans IH]; intros texts H;
    [constructor |].
  cbn [mapM] in H.
  destruct (x ← Raw.get span "text" (JStr ""); Raw.lower x) as [t|e] eqn:Ht;
    [| done].
  cbn [mbind result_bind] in H.
  destruct (mapM _ spans) as [ts|e] eqn:Hts; [| done].
  constructor; [by eapply span_lower_returns | by eapply IH].
Qed.

Lemma mapM_span_join spans :
  Forall span_with_text spans →
  (items ← mapM (λ span, Raw.get span "text" (JStr "")) spans;
   mapM Raw.join_item items)
  = Ok (span_string <$> spans).
Proof.
  induction 1 as [|span spans Hspan%span_with_text_get _ IH]; [done |].
  cbn [mapM]. rewrite Hspan. cbn [mbind result_bind].
  destruct (mapM _ spans) as [items|e]; [| done].
  cbn [mbind result_bind mapM Raw.join_item] in *. by rewrite IH.
Qed.

(** The spans of a readable OCR result. *)
Lemma readable_spans_of ocr_data :
  readable_ocr ocr_data →
  ∃ items text,
    ocr_data = JDict items
    ∧ default (JList []) (dict_get "text" items) = text
    ∧ Raw.iter text = Ok (spans_of ocr_data)
    ∧ Forall span_with_text (spans_of ocr_data).
Proof.
  intros (items & -> & H). exists items, (default (JList []) (dict_get "text" items)).
  split; [done |]. split; [done |]. cbn [spans_of].
  destruct (dict_get "text" items) as [v|]; cbn in H |- *.
  - destruct H as [(spans & -> & Hspans) | [-> | ->]];
      cbn; (split; [done |]); first [done | constructor].
  - split; [done | constructor].
Qed.

Lemma ocr_corpus_readable ocr_data :
  readable_ocr ocr_data → Raw.ocr_corpus ocr_data = Ok (raw_corpus ocr_data).
Proof.
  intros H.
  destruct (readable_spans_of ocr_data H) as (items & text & E & Ht & Hi & Hs).
  unfold Raw.ocr_corpus, raw_corpus. rewrite E at 1. cbn [Raw.get mbind result_bind].
  rewrite Ht, Hi. cbn [mbind result_bind]. by rewrite mapM_span_lower.
Qed.

Lemma ocr_tokens_readable ocr_data :
  readable_ocr ocr_data →
  Raw.ocr_tokens_of ocr_data
  = Ok (py_split (py_lower (py_join " " (span_string <$> spans_of ocr_data)))).
Proof.
  intros H.
  destruct (readable_spans_of ocr_data H) as (items & text & E & Ht & Hi & Hs).
  unfold Raw.ocr_tokens_of. rewrite E at 1. cbn [Raw.get mbind result_bind].
  rewrite Ht, Hi. cbn [mbind result_bind].
  pose proof (mapM_span_join _ Hs) as Hj.
  destruct (mapM _ (spans_of ocr_data)) as [its|e]; [| done].
  cbn [mbind result_bind] in *. by rewrite Hj.
Qed.

(** The corpus is read only from a readable OCR result. *)
Lemma ocr_corpus_returns ocr_data c :
  Raw.ocr_corpus ocr_data = Ok c → readable_ocr ocr_data.
Proof.
  unfold Raw.ocr_corpus.
  destruct ocr_data as [| | | | |elems|items]; try done.
  cbn [Raw.get mbind result_bind]. intros H. exists items. split; [done |].
  destruct (default (JList []) (dict_get "text" items))
    as [| | | |s|spans|keys]; try done; cbn [Raw.iter mbind result_bind] in H.
  - right. left. destruct s as [|a s]; [done |]. done.
  - left. exists spans. split; [done |].
    destruct (mapM _ spans) as [texts|e] eqn:Hm; [| done].
    by eapply mapM_span_lower_returns.
  - right. right. destruct keys as [|[k v] keys]; [done |]. done.
Qed.

(** What reading the corpus can raise. *)
Lemma ocr_corpus_raise_class ocr_data e :
  Raw.ocr_corpus ocr_data = Raise e →
  exn_cls e = AttributeError ∨ exn_cls e = TypeError.
Proof.
  unfold Raw.ocr_corpus.
  destruct (Raw.get ocr_data "text" (JList [])) as [text|e'] eqn:Hget.
  2: { destruct ocr_data; simplify_eq/=; intros [= <-]; by left. }
  cbn [mbind result_bind].
  destruct (Raw.iter text) as [spans|e'] eqn:Hiter.
  2: { destruct text; simplify_eq/=; intros [= <-]; by right. }
  cbn [mbind result_bind].
  destruct (mapM _ spans) as [texts|e'] eqn:Hm; [done |].
  cbn [mbind result_bind]. intros [= <-]. left.
  clear Hiter. induction spans as [|span spans IH]; [done |].
  cbn [mapM] in Hm.
  destruct (x ← Raw.get span "text" (JStr ""); Raw.lower x) as [t|e0] eqn:Ht.
  - cbn [mbind result_bind] in Hm.
    destruct (mapM _ spans) as [ts|e1]; [done |].
    cbn [mbind result_bind] in Hm. injection Hm as <-. by apply IH.
  - cbn [mbind result_bind] in Hm. injection Hm as <-.
    destruct span as [| | | | | |d]; simplify_eq/=; try done.
    by destruct (default (JStr "") (dict_get "text" d)); simplify_eq/=.
Qed.

(** The typed view of a readable OCR result has the same corpus and the same
    tokens. *)
Lemma typed_spans_have_text raw : spans_have_text (typed_spans raw).
Proof.
  unfold spans_have_text, typed_spans, text_spans. cbn.
  apply Forall_fmap, Forall_true. intros sp. by eexists.
Qed.

Lemma typed_spans_strings raw :
  span_strings (typed_spans raw) = span_string <$> spans_of raw.
Proof.
  unfold span_strings, typed_spans, text_spans. cbn.
  by rewrite <- list_fmap_compose.
Qed.

Lemma typed_spans_corpus raw : corpus_of (typed_spans raw) = raw_corpus raw.
Proof. unfold corpus_of, raw_corpus. by rewrite typed_spans_strings. Qed.

Lemma readable_typed raw :
  readable_ocr raw →
  Raw.ocr_corpus raw = ocr_corpus (typed_spans raw)
  ∧ Raw.ocr_tokens_of raw = ocr_tokens_of (typed_spans raw).
Proof.
  intros H. split.
  - rewrite ocr_corpus_readable by done.
    rewrite ocr_corpus_typed by apply typed_spans_have_text.
    by rewrite typed_spans_corpus.
  - rewrite ocr_tokens_readable by done.
    rewrite ocr_tokens_typed by apply typed_spans_have_text.
    by rewrite typed_spans_strings.
Qed.

(** ** The consistency check on an OCR result of any shape *)

Lemma check_tokens_agree raw od corpus tokens :
  Raw.ocr_tokens_of raw = ocr_tokens_of od →
  Raw.check_tokens raw corpus tokens = check_tokens od corpus tokens.
Proof.
  intros H. induction tokens as [|token tokens IH]; [done |].
  cbn [Raw.check_tokens check_tokens]. rewrite IH.
  unfold Raw.check_token, check_token. by rewrite H.
Qed.

(** Where the typed OCR result gives the same corpus and the same tokens,
    the check is the one of the typed function. *)
Lemma consistency_agree lim self today field value raw od :
  nesting value ≤ repr_depth lim →
  Raw.ocr_corpus raw = ocr_corpus od →
  Raw.ocr_tokens_of raw = ocr_tokens_of od →
  Raw._check_consistency_with_ocr lim self today field value raw
  = _check_consistency_with_ocr self today field value od.
Proof.
  intros Hdepth Hcorpus Htokens.
  unfold Raw._check_consistency_with_ocr, _check_consistency_with_ocr,
    Raw.str_of_value.
  rewrite walk_ok by done. cbn [mbind result_bind]. rewrite Hcorpus.
  case_match; [done |].
  destruct (ocr_corpus od) as [c|e]; [| done]. cbn [mbind result_bind].
  destruct value; try done; by rewrite (check_tokens_agree raw od).
Qed.

Lemma raw_consistency_short lim self today field value raw :
  nesting value ≤ repr_depth lim → py_len (value_str_of value) ≤ 3 →
  Raw._check_consistency_with_ocr lim self today field value raw
  = Ok (self, [ValueTooShort field]).
Proof.
  intros Hdepth H. unfold Raw._check_consistency_with_ocr, Raw.str_of_value.
  rewrite walk_ok by done. cbn [mbind result_bind]. cbv zeta.
  fold (value_str_of value).
  by rewrite (bool_decide_eq_true_2 (py_len _ ≤ 3)), orb_true_r.
Qed.

(** No handler: what reading the corpus raises is what the check raises. *)
Lemma raw_consistency_raise lim self today field value raw e :
  nesting value ≤ repr_depth lim → 3 < py_len (value_str_of value) →
  Raw.ocr_corpus raw = Raise e →
  Raw._check_consistency_with_ocr lim self today field value raw = Raise e.
Proof.
  intros Hdepth Hlong He.
  unfold Raw._check_consistency_with_ocr, Raw.str_of_value.
  rewrite walk_ok by done. cbn [mbind result_bind]. cbv zeta.
  fold (value_str_of value). rewrite value_str_checked by done.
  by rewrite He.
Qed.

Lemma raw_consistency_deep lim self today field value raw :
  repr_depth lim < nesting value →
  ∃ msg, Raw._check_consistency_with_ocr lim self today field value raw
         = Raise (Exn RecursionError msg).
Proof.
  intros H. unfold Raw._check_consistency_with_ocr, Raw.str_of_value.
  destruct (walk_raise _ _ H) as [msg ->]. by exists msg.
Qed.

Lemma raw_consistency_readable lim self today field value raw :
  nesting value ≤ repr_depth lim → readable_ocr raw →
  Raw._check_consistency_with_ocr lim self today field value raw
  = _check_consistency_with_ocr self today field value (typed_spans raw).
Proof.
  intros Hdepth [Hc Ht]%readable_typed. by apply consistency_agree.
Qed.

(** The check returns exactly when the value can be printed and either its
    string is too short to be checked or the OCR result is readable. *)
Lemma raw_consistency_returns lim self today field value raw :
  returns (Raw._check_consistency_with_ocr lim self today field value raw)
  ↔ nesting value ≤ repr_depth lim
    ∧ (py_len (value_str_of value) ≤ 3 ∨ readable_ocr raw).
Proof.
  split.
  - intros [r Hr].
    destruct (decide (nesting value ≤ repr_depth lim)) as [Hdepth | Hdepth].
    2: { destruct (raw_consistency_deep lim self today field value raw)
           as [msg Hmsg]; [lia | congruence]. }
    split; [done |].
    destruct (decide (py_len (value_str_of value) ≤ 3)) as [| Hlong];
      [by left | right].
    destruct (Raw.ocr_corpus raw) as [c|e] eqn:Hc;
      [by eapply ocr_corpus_returns |].
    rewrite (raw_consistency_raise lim self today field value raw e) in Hr;
      [done | done | lia | done].
  - intros [Hdepth [Hshort | Hread]].
    + rewrite raw_consistency_short by done. by eexists.
    + rewrite raw_consistency_readable by done.
      apply consistency_returns, typed_spans_have_text.
Qed.

(** Every populated component of a dict value that is not in the corpus is
    recorded as not found. *)
Lemma check_components_not_found field corpus items k x :
  (k, x) ∈ populated items → py_in (value_str_of x) corpus = false →
  ComponentNotFound field k (value_str_of x)
  ∈ (check_components field corpus items).2.
Proof.
  unfold populated. intros [Hx Hin]%list_elem_of_filter Hnot. cbn [snd] in Hx.
  induction items as [|[key val] items IH]; [by apply elem_of_nil in Hin |].
  cbn [check_components].
  destruct (check_components field corpus items) as [[found total] logs].
  cbn [snd] in IH.
  apply elem_of_cons in Hin as [[= <- <-] | Hin].
  - rewrite Hx. fold (value_str_of x). rewrite Hnot. left.
  - specialize (IH Hin).
    destruct (nonblank val); [| done].
    destruct (py_in (py_strip (py_lower (py_str val))) corpus); by right.
Qed.

Lemma consistency_dict_components self today field items od k x :
  spans_have_text od →
  (k, x) ∈ populated items → py_in (value_str_of x) (corpus_of od) = false →
  ∃ self' logs,
    _check_consistency_with_ocr self today field (PDict items) od
    = Ok (self', logs)
    ∧ ComponentNotFound field k (value_str_of x) ∈ logs.
Proof.
  intros Hod Hpop Hnot.
  assert (items ≠ []) as Hne.
  { intros ->. unfold populated in Hpop. by apply elem_of_nil in Hpop. }
  pose proof (value_str_checked _ (dict_value_str_long items Hne)) as Hlen.
  unfold _check_consistency_with_ocr. fold (value_str_of (PDict items)).
  rewrite Hlen, ocr_corpus_typed by done. cbn [mbind result_bind].
  pose proof (check_components_not_found field (corpus_of od) items k x
                Hpop Hnot) as Hin.
  destruct (check_components field (corpus_of od) items)
    as [[found total] clogs].
  cbn [snd] in Hin.
  destruct (if _ : bool then _check_date_coherence self today field items
            else (self, [])) as [self1 dlogs].
  eexists _, _. split; [reflexivity |].
  rewrite !elem_of_app. right. by left.
Qed.

(** ** The format loop and the run on an OCR result of any shape *)

Lemma scalar_nesting value : is_scalar value → nesting value = 0.
Proof. by destruct value. Qed.

(** A check that returns is the check of the typed function on the spans
    that can be read. *)
Lemma raw_consistency_typed lim self today field value raw r :
  Raw._check_consistency_with_ocr lim self today field value raw = Ok r →
  _check_consistency_with_ocr self today field value (typed_spans raw) = Ok r.
Proof.
  intros H.
  destruct (proj1 (raw_consistency_returns lim self today field value raw))
    as [Hdepth [Hshort | Hread]]; [by eexists | |].
  - rewrite raw_consistency_short in H by done.
    by rewrite consistency_short.
  - by rewrite raw_consistency_readable in H.
Qed.

Lemma raw_loop_typed lim self today raw items acc r :
  Raw.accuracy_loop lim self today raw items acc = Ok r →
  accuracy_loop self today (typed_spans raw) items acc = Ok r.
Proof.
  revert self acc.
  induction items as [|[key value] items IH]; intros self acc H; [done |].
  cbn [Raw.accuracy_loop accuracy_loop] in *.
  destruct (py_in "confidences" key || py_in "confidence" key); [by apply IH |].
  destruct (nonblank value); [| by apply IH].
  destruct acc as [[valid total] invalid].
  destruct (Raw._check_consistency_with_ocr _ _ _ _ _ _) as [r1|e] eqn:Hr1;
    [| done].
  rewrite (raw_consistency_typed _ _ _ _ _ _ _ Hr1).
  cbn [mbind result_bind] in *. by apply IH.
Qed.

Lemma raw_loop_readable lim self today raw items acc :
  Forall (λ kv, is_scalar kv.2) items → readable_ocr raw →
  Raw.accuracy_loop lim self today raw items acc
  = accuracy_loop self today (typed_spans raw) items acc.
Proof.
  intros Hsc Hread. revert self acc.
  induction Hsc as [|[key value] items Hv _ IH]; intros self acc; [done |].
  cbn [Raw.accuracy_loop accuracy_loop].
  destruct (py_in "confidences" key || py_in "confidence" key); [apply IH |].
  destruct (nonblank value); [| apply IH].
  destruct acc as [[valid total] invalid].
  rewrite raw_consistency_readable
    by (rewrite ?scalar_nesting by done; done || lia).
  destruct (_check_consistency_with_ocr _ _ _ _ _) as [r1|e]; [| done].
  cbn [mbind result_bind]. apply IH.
Qed.

Lemma raw_loop_short lim self today raw items acc :
  Forall (λ kv, is_scalar kv.2) items →
  Forall (λ kv, format_checked kv = true → short_value kv) items →
  returns (Raw.accuracy_loop lim self today raw items acc).
Proof.
  intros Hsc H. revert self acc.
  induction H as [|[key value] items Hkv _ IH]; intros self acc; [by eexists |].
  apply Forall_cons in Hsc as [Hv Hsc]. cbn [snd] in Hv.
  cbn [Raw.accuracy_loop]. unfold format_checked, short_value in Hkv.
  cbn [fst snd] in Hkv.
  destruct (py_in "confidences" key || py_in "confidence" key); [by apply IH |].
  destruct (nonblank value); [| by apply IH].
  destruct acc as [[valid total] invalid].
  rewrite raw_consistency_short
    by (rewrite ?scalar_nesting by done; (by apply Hkv) || lia).
  cbn [mbind result_bind]. by apply IH.
Qed.

(** No handler in the loop: what the loop raises is what reading the corpus
    raises. *)
Lemma raw_loop_raise lim self today raw items acc e :
  Forall (λ kv, is_scalar kv.2) items →
  Raw.accuracy_loop lim self today raw items acc = Raise e →
  Raw.ocr_corpus raw = Raise e.
Proof.
  intros Hsc. revert self acc.
  induction Hsc as [|[key value] items Hv _ IH]; intros self acc; [done |].
  cbn [Raw.accuracy_loop]. cbn [snd] in Hv.
  destruct (py_in "confidences" key || py_in "confidence" key); [apply IH |].
  destruct (nonblank value); [| apply IH].
  destruct acc as [[valid total] invalid].
  destruct (Raw._check_consistency_with_ocr _ _ _ _ _ _) as [r1|e1] eqn:Hr1.
  - cbn [mbind result_bind]. apply IH.
  - cbn [mbind result_bind]. intros [= <-].
    assert (nesting value ≤ repr_depth lim) as Hdepth
      by (rewrite scalar_nesting by done; lia).
    destruct (decide (py_len (value_str_of value) ≤ 3)) as [Hshort | Hlong].
    { by rewrite raw_consistency_short in Hr1. }
    destruct (Raw.ocr_corpus raw) as [c|e0] eqn:Hc.
    + apply ocr_corpus_returns in Hc.
      destruct (proj2 (raw_consistency_returns lim self today
                         (last_segment key) value raw)) as [r Hr]; [auto |].
      congruence.
    + rewrite (raw_consistency_raise _ _ _ _ _ _ e0) in Hr1 by (done || lia).
      congruence.
Qed.

Lemma raw_loop_returns lim self today raw items acc :
  Forall (λ kv, is_scalar kv.2) items →
  returns (Raw.accuracy_loop lim self today raw items acc)
  ↔ readable_ocr raw
    ∨ Forall (λ kv, format_checked kv = true → short_value kv) items.
Proof.
  intros Hsc. split.
  - intros [r Hr].
    destruct (Raw.ocr_corpus raw) as [c|e0] eqn:Hc;
      [left; by eapply ocr_corpus_returns | right].
    revert self acc Hr.
    induction Hsc as [|[key value] items Hv _ IH]; intros self acc Hr;
      [constructor |].
    cbn [Raw.accuracy_loop] in Hr. cbn [snd] in Hv.
    unfold format_checked, short_value. constructor; cbn [fst snd].
    + destruct (py_in "confidences" key || py_in "confidence" key); [done |].
      destruct (nonblank value); [| done]. intros _.
      destruct acc as [[valid total] invalid].
      destruct (decide (py_len (value_str_of value) ≤ 3)) as [| Hlong];
        [done |].
      rewrite (raw_consistency_raise _ _ _ _ _ _ e0) in Hr;
        [done | rewrite scalar_nesting by done; lia | lia | done].
    + destruct (py_in "confidences" key || py_in "confidence" key);
        [by eapply IH |].
      destruct (nonblank value); [| by eapply IH].
      destruct acc as [[valid total] invalid].
      destruct (Raw._check_consistency_with_ocr _ _ _ _ _ _) as [r1|e1];
        [| done].
      cbn [mbind result_bind] in Hr. by eapply IH.
  - intros [Hread | Hshort].
    + rewrite raw_loop_readable by done.
      apply accuracy_loop_returns, typed_spans_have_text.
    + by apply raw_loop_short.
Qed.

(** The shape of a run: the walk of [json.dumps], the average confidence,
    the flattened data, the loop and the two log calls. *)
Lemma raw_validate_within lim self today sd raw :
  within lim sd →
  Raw.validate_extracted_data lim self today sd raw
  = (score ← Raw.get raw "average_confidence" (JInt 0);
     r ← Raw.accuracy_loop lim self today raw (_flatten_dict sd "") (0, 0, []);
     Raw.times_100 score;;
     let flat_data := _flatten_dict sd "" in
     let filled := length (filter (λ kv, nonblank kv.2 = true) flat_data) in
     Ok (r.1,
         Raw.ValidationResult
           (Completeness filled (length flat_data)
              (score_of filled (length flat_data))
              (missing_required_of flat_data))
           (Accuracy r.2.1.1 r.2.1.2 (score_of r.2.1.1 r.2.1.2) r.2.2)
           score)).
Proof.
  intros [Hjson Hcall]. unfold Raw.validate_extracted_data.
  rewrite walk_ok by done. cbn [mbind result_bind].
  destruct (Raw.get raw _ _) as [score|e]; [| done]. cbn [mbind result_bind].
  rewrite flatten_dict_within by done. cbn [mbind result_bind].
  destruct (Raw.accuracy_loop _ _ _ _ _ _) as [[self' [[valid total] invalid]]|e];
    [| done].
  unfold Raw._log_validation_summary.
  cbn [mbind result_bind Raw.confidence_score fst snd].
  by destruct (Raw.times_100 score) as [[]|e].
Qed.

Lemma raw_validate_beyond lim self today sd raw :
  ¬ within lim sd →
  ∃ e, Raw.validate_extracted_data lim self today sd raw = Raise e
       ∧ (exn_cls e = RecursionError ∨ exn_cls e = AttributeError).
Proof.
  intros Hn. unfold Raw.validate_extracted_data.
  destruct (decide (nesting (PDict sd) ≤ json_depth lim)) as [Hjson | Hjson].
  2: { destruct (walk_raise (json_depth lim) (PDict sd)) as [msg ->]; [lia |].
       eexists. split; [done | by left]. }
  rewrite walk_ok by done. cbn [mbind result_bind].
  destruct (Raw.get raw _ _) as [score|e] eqn:Hget.
  2: { exists e. split; [done |]. right.
       destruct raw; simplify_eq/=; done. }
  cbn [mbind result_bind].
  destruct (flatten_dict_beyond (call_depth lim) sd "") as [msg ->].
  { unfold within in Hn. lia. }
  eexists. split; [done | by left].
Qed.

Lemma has_percentage_spec raw :
  has_percentage raw
  ↔ ∃ score, Raw.get raw "average_confidence" (JInt 0) = Ok score
             ∧ Raw.times_100 score = Ok ().
Proof.
  unfold has_percentage. split.
  - intros (items & -> & H). eexists. split; [done |].
    by destruct (default (JInt 0) (dict_get "average_confidence" items)).
  - intros (score & Hget & Htimes).
    destruct raw as [| | | | | |items]; try done.
    exists items. split; [done |]. cbn in Hget. injection Hget as <-.
    by destruct (default (JInt 0) (dict_get "average_confidence" items)).
Qed.

Lemma times_100_raise score e :
  Raw.times_100 score = Raise e → exn_cls e = TypeError.
Proof. destruct score; simplify_eq/=; by intros [= <-]. Qed.

Lemma get_raise v k otherwise e :
  Raw.get v k otherwise = Raise e → e = Raw.no_attribute v "get".
Proof. destruct v; simplify_eq/=; by intros [= <-]. Qed.

(** ** An OCR result of the typed shape, as an object *)

Lemma jval_of_lower v : Raw.lower (jval_of v) = lower_of v.
Proof. by destruct v. Qed.

Lemma jval_of_join v : Raw.join_item (jval_of v) = join_item v.
Proof. by destruct v. Qed.

Lemma span_dict_text sp :
  Raw.get (span_dict sp) "text" (JStr "") = Ok (jval_of (span_text sp)).
Proof.
  unfold span_dict, span_text. cbn [Raw.get]. f_equal.
  by destruct (sp_text sp), (sp_confidence sp), (sp_bounding_box sp).
Qed.

Lemma ocr_dict_text od :
  Raw.get (ocr_dict od) "text" (JList [])
  = Ok (JList (span_dict <$> text_spans od)).
Proof.
  unfold ocr_dict, text_spans. cbn [Raw.get]. f_equal.
  by destruct (od_text od), (od_tables od), (od_average_confidence od).
Qed.

Lemma ocr_dict_average od :
  Raw.get (ocr_dict od) "average_confidence" (JInt 0)
  = Ok (from_option JFloat (JInt 0) (od_average_confidence od)).
Proof.
  unfold ocr_dict. cbn [Raw.get]. f_equal.
  by destruct (od_text od), (od_tables od), (od_average_confidence od).
Qed.

Lemma ocr_dict_corpus od : Raw.ocr_corpus (ocr_dict od) = ocr_corpus od.
Proof.
  unfold Raw.ocr_corpus, ocr_corpus. rewrite ocr_dict_text.
  cbn [mbind result_bind Raw.iter].
  assert (mapM (λ span, x ← Raw.get span "text" (JStr ""); Raw.lower x)
            (span_dict <$> text_spans od)
          = mapM (λ sp, lower_of (span_text sp)) (text_spans od)) as ->; [| done].
  induction (text_spans od) as [|sp spans IH]; [done |].
  rewrite fmap_cons. cbn [mapM]. rewrite span_dict_text.
  cbn [mbind result_bind]. by rewrite jval_of_lower, IH.
Qed.

Lemma ocr_dict_tokens od : Raw.ocr_tokens_of (ocr_dict od) = ocr_tokens_of od.
Proof.
  unfold Raw.ocr_tokens_of, ocr_tokens_of. rewrite ocr_dict_text.
  cbn [mbind result_bind Raw.iter].
  assert (mapM (λ span, Raw.get span "text" (JStr ""))
            (span_dict <$> text_spans od)
          = Ok (jval_of <$> (span_text <$> text_spans od))) as ->.
  { induction (text_spans od) as [|sp spans IH]; [done |].
    rewrite !fmap_cons. cbn [mapM]. by rewrite span_dict_text, IH. }
  cbn [mbind result_bind].
  assert (mapM Raw.join_item (jval_of <$> (span_text <$> text_spans od))
          = mapM (λ sp, join_item (span_text sp)) (text_spans od)) as ->; [| done].
  induction (text_spans od) as [|sp spans IH]; [done |].
  rewrite !fmap_cons. cbn [mapM]. by rewrite jval_of_join, IH.
Qed.

Lemma raw_loop_agree lim self today od items acc :
  Forall (λ kv, is_scalar kv.2) items →
  Raw.accuracy_loop lim self today (ocr_dict od) items acc
  = accuracy_loop self today od items acc.
Proof.
  intros Hsc. revert self acc.
  induction Hsc as [|[key value] items Hv _ IH]; intros self acc; [done |].
  cbn [Raw.accuracy_loop accuracy_loop].
  destruct (py_in "confidences" key || py_in "confidence" key); [apply IH |].
  destruct (nonblank value); [| apply IH].
  destruct acc as [[valid total] invalid].
  rewrite (consistency_agree lim self today (last_segment key) value
             (ocr_dict od) od);
    [| rewrite scalar_nesting by done; lia
     | apply ocr_dict_corpus | apply ocr_dict_tokens].
  destruct (_check_consistency_with_ocr _ _ _ _ _) as [r1|e]; [| done].
  cbn [mbind result_bind]. apply IH.
Qed.

(** On an OCR result of the typed shape, and within the recursion limit,
    [Raw.validate_extracted_data] is [validate_extracted_data]. *)
Lemma raw_validate_typed lim self today sd od :
  within lim sd →
  Raw.validate_extracted_data lim self today sd (ocr_dict od)
  = (r ← validate_extracted_data self today sd od;
     Ok (r.1,
         Raw.ValidationResult (completeness r.2) (accuracy r.2)
           (from_option JFloat (JInt 0) (od_average_confidence od)))).
Proof.
  intros Hlim. rewrite raw_validate_within by done.
  rewrite ocr_dict_average. cbn [mbind result_bind].
  rewrite raw_loop_agree by apply flatten_dict_scalar.
  unfold validate_extracted_data. cbv zeta.
  destruct (accuracy_loop _ _ _ _ _) as [[self' [[valid total] invalid]]|e];
    [| done].
  cbn [mbind result_bind fst snd completeness accuracy].
  by destruct (od_average_confidence od).
Qed.

(** ** Returning and raising *)

Lemma sample_within : within sample_limits sample_form.
Proof. split; vm_compute; lia. Qed.

Lemma sample_readable : readable_ocr (ocr_dict sample_ocr).
Proof.
  eexists. split; [reflexivity |]. left. eexists. split; [reflexivity |].
  repeat constructor; eexists; (split; [reflexivity |]); by eexists.
Qed.

Lemma sample_percentage : has_percentage (ocr_dict sample_ocr).
Proof. eexists. split; [reflexivity |]. exact I. Qed.

Lemma get_raise_corpus raw k otherwise e :
  Raw.get raw k otherwise = Raise e → Raw.ocr_corpus raw = Raise e.
Proof. destruct raw; simplify_eq/=; by intros [= <-]. Qed.

Lemma long_not_short (flat_data : list (string * pyval)) :
  (∃ kv, kv ∈ flat_data ∧ format_checked kv = true
         ∧ 3 < py_len (value_str_of kv.2)) →
  ¬ Forall (λ kv, format_checked kv = true → short_value kv) flat_data.
Proof.
  intros (kv & Hin & Hc & Hlong) Hall.
  eapply Forall_forall in Hall; [| done]. specialize (Hall Hc).
  unfold short_value in Hall. lia.
Qed.

(** C2, amended: [validate_extracted_data] has no handler around the
    per-field checks.  For an OCR result of any shape and data within the
    recursion limit: when the OCR result is readable (a dict whose text is
    absent or a list of span dicts with a string or no text) and its average
    confidence can be multiplied, the run returns, leaves the validator as it
    was, and its accuracy total counts every non-blank field whose key does
    not mention a confidence; when the OCR result is not readable and some
    checked field has a value string longer than 3 characters, the exception
    raised while reading the span texts, an AttributeError or a TypeError, is
    the exception of the run; when the OCR result is readable and its average
    confidence is [None] or a dict, the run raises TypeError. *)
Theorem per_field_exceptions lim self today sd ocr_data :
  let flat_data := _flatten_dict sd "" in
  (within lim sd → readable_ocr ocr_data → has_percentage ocr_data →
   ∃ r,
     Raw.validate_extracted_data lim self today sd ocr_data = Ok (self, r)
     ∧ a_total_fields (Raw.accuracy r)
       = length (filter (λ kv, format_checked kv = true) flat_data))
  ∧ (within lim sd → ¬ readable_ocr ocr_data →
     (∃ kv, kv ∈ flat_data ∧ format_checked kv = true
            ∧ 3 < py_len (value_str_of kv.2)) →
     ∃ e,
       Raw.ocr_corpus ocr_data = Raise e
       ∧ Raw.validate_extracted_data lim self today sd ocr_data = Raise e
       ∧ (exn_cls e = AttributeError ∨ exn_cls e = TypeError))
  ∧ (within lim sd → readable_ocr ocr_data → ¬ has_percentage ocr_data →
     ∃ e,
       Raw.validate_extracted_data lim self today sd ocr_data = Raise e
       ∧ exn_cls e = TypeError).
Proof.
  intros flat_data. split_and!.
  - intros Hlim Hread (score & Hget & Htimes)%has_percentage_spec.
    rewrite raw_validate_within, Hget by done. cbn [mbind result_bind].
    rewrite raw_loop_readable by (done || apply flatten_dict_scalar).
    destruct (accuracy_loop_returns self today (typed_spans ocr_data) flat_data
                (0, 0, []) (typed_spans_have_text ocr_data))
      as [[self' acc] Hloop].
    fold flat_data. rewrite Hloop.
    apply accuracy_loop_spec in Hloop as [-> ->];
      [| apply flatten_dict_scalar].
    cbn [mbind result_bind]. rewrite Htimes. cbn [mbind result_bind].
    eexists. split; [reflexivity |]. done.
  - intros Hlim Hnread Hlong.
    destruct (Raw.ocr_corpus ocr_data) as [c|e] eqn:Hc;
      [by apply ocr_corpus_returns in Hc |].
    exists e. split; [done |].
    split; [| by eapply ocr_corpus_raise_class].
    rewrite raw_validate_within by done.
    destruct (Raw.get ocr_data _ _) as [score|e'] eqn:Hget.
    2: { apply get_raise_corpus in Hget. cbn [mbind result_bind]. congruence. }
    cbn [mbind result_bind]. fold flat_data.
    destruct (Raw.accuracy_loop _ _ _ _ _ _) as [r|e'] eqn:Hloop.
    + destruct (proj1 (raw_loop_returns lim self today ocr_data flat_data
                         (0, 0, []) (flatten_dict_scalar sd "")))
        as [? | Hshort]; [by eexists | done |].
      by apply long_not_short in Hlong.
    + apply raw_loop_raise in Hloop; [| apply flatten_dict_scalar].
      cbn [mbind result_bind]. congruence.
  - intros Hlim Hread Hpct.
    rewrite raw_validate_within by done.
    destruct (Raw.get ocr_data "average_confidence" (JInt 0)) as [score|e]
      eqn:Hget.
    2: { by destruct Hread as (items & -> & _). }
    cbn [mbind result_bind].
    rewrite raw_loop_readable by (done || apply flatten_dict_scalar).
    destruct (accuracy_loop_returns self today (typed_spans ocr_data)
                flat_data (0, 0, []) (typed_spans_have_text _))
      as [r Hloop].
    fold flat_data. rewrite Hloop. cbn [mbind result_bind].
    destruct (Raw.times_100 score) as [[]|e] eqn:Htimes.
    + destruct Hpct. apply has_percentage_spec. by eexists.
    + exists e. split; [done |]. by eapply times_100_raise.
Qed.

(** The sample form with the sample OCR result: the run returns, and seven
    fields are checked. *)
Lemma per_field_exceptions_witness :
  ∃ r,
    Raw.validate_extracted_data sample_limits sample_validator sample_today
      sample_form (ocr_dict sample_ocr) = Ok (sample_validator, r)
    ∧ a_total_fields (Raw.accuracy r) = 7.
Proof.
  destruct (per_field_exceptions sample_limits sample_validator sample_today
              sample_form (ocr_dict sample_ocr)) as [H _].
  destruct (H sample_within sample_readable sample_percentage)
    as (r & Hr & Htotal).
  exists r. split; [exact Hr |].
  rewrite Htotal. vm_compute. reflexivity.
Defined.

(** C4, amended: the check has no handler.  For an OCR result of any shape
    it returns exactly when the value can be printed within the recursion
    limit and either its string has at most 3 characters or the OCR result is
    readable.  On a readable OCR result, a scalar value with a significant
    token (longer than 3 characters) is marked as a suspected invention
    exactly when none of its significant tokens is a substring of the corpus
    (the lower-cased span texts joined by spaces); a dict value is flagged
    exactly when fewer than half of its populated components are found
    verbatim in the corpus, and every populated component that is not found
    is recorded as not found, flagged or not.  The significant tokens of a
    value are the white-space separated tokens of its string that are longer
    than 3 characters, lower-cased. *)
Theorem ocr_consistency_spec lim self today field value ocr_data :
  (returns (Raw._check_consistency_with_ocr lim self today field value
              ocr_data)
   ↔ nesting value ≤ repr_depth lim
     ∧ (py_len (value_str_of value) ≤ 3 ∨ readable_ocr ocr_data))
  ∧ significant_tokens value
    = py_lower <$> filter significant (py_split (py_str value))
  ∧ (readable_ocr ocr_data → is_scalar value → significant_tokens value ≠ [] →
     ∃ logs,
       Raw._check_consistency_with_ocr lim self today field value ocr_data
       = Ok (self, logs)
       ∧ (suspected_invention field value logs ↔
          ∀ t, t ∈ significant_tokens value →
               ¬ substring t (raw_corpus ocr_data)))
  ∧ (readable_ocr ocr_data → nesting value ≤ repr_depth lim →
     ∀ items, value = PDict items →
     ∃ self' logs,
       Raw._check_consistency_with_ocr lim self today field value ocr_data
       = Ok (self', logs)
       ∧ (suspect_composite field logs ↔
          2 * length (found_in (raw_corpus ocr_data) items)
          < length (populated items))
       ∧ (∀ k x, (k, x) ∈ populated items →
            ¬ substring (value_str_of x) (raw_corpus ocr_data) →
            ComponentNotFound field k (value_str_of x) ∈ logs)).
Proof.
  pose proof (typed_spans_have_text ocr_data) as Hod.
  split_and!.
  - apply raw_consistency_returns.
  - apply significant_tokens_lower.
  - intros Hread Hscalar Hsig.
    rewrite raw_consistency_readable
      by (rewrite ?scalar_nesting by done; done || lia).
    destruct (consistency_scalar self today field value _ Hod Hscalar Hsig)
      as (logs & Hlogs & Hiff).
    exists logs. split; [done |]. rewrite Hiff, typed_spans_corpus.
    apply forall_proper. intros t.
    unfold substring. rewrite <- py_in_spec, not_true_iff_false. done.
  - intros Hread Hdepth items ->.
    rewrite raw_consistency_readable by done.
    destruct (consistency_dict self today field items _ Hod)
      as (self' & logs & Hlogs & Hiff).
    exists self', logs. split; [done |].
    split; [by rewrite <- typed_spans_corpus |].
    intros k x Hpop Hnot.
    destruct (consistency_dict_components self today field items
                (typed_spans ocr_data) k x Hod Hpop)
      as (self2 & logs2 & Hlogs2 & Hin).
    { rewrite typed_spans_corpus. apply not_true_iff_false.
      intros Hsub. apply Hnot. unfold substring. by rewrite <- py_in_spec. }
    congruence.
Qed.

(** "Zyxqpr" is not in an OCR text that contains "john smith": it is
    flagged. *)
Lemma ocr_consistency_witness :
  readable_ocr (ocr_dict sample_ocr)
  ∧ ∃ logs,
      Raw._check_consistency_with_ocr sample_limits sample_validator
        sample_today "firstName" (PStr "Zyxqpr") (ocr_dict sample_ocr)
      = Ok (sample_validator, logs)
      ∧ suspected_invention "firstName" (PStr "Zyxqpr") logs.
Proof.
  split; [exact sample_readable |].
  destruct (ocr_consistency_spec sample_limits sample_validator sample_today
              "firstName" (PStr "Zyxqpr") (ocr_dict sample_ocr))
    as (_ & _ & H & _).
  destruct (H sample_readable I) as (logs & Hlogs & Hiff); [by vm_compute |].
  exists logs. split; [exact Hlogs |]. apply Hiff.
  intros t Ht Hsub. apply py_in_spec in Hsub.
  change (significant_tokens (PStr "Zyxqpr")) with ["zyxqpr"] in Ht.
  apply list_elem_of_singleton in Ht as ->. by vm_compute in Hsub.
Defined.

(** X8: on an OCR result of any shape [validate_extracted_data] returns
    exactly when the data is within the recursion limit, the average
    confidence can be multiplied, and the OCR result is readable or no
    checked field has a value string longer than 3 characters; what it raises
    is a RecursionError, an AttributeError or a TypeError; the completeness
    and accuracy sections of a result it returns are those of the function
    on the typed OCR result, for the spans that can be read; on an OCR result
    of the typed shape the run is the run of that function; the check of a
    value whose string has at most 3 characters returns at once, whatever the
    OCR result is. *)
Theorem validate_extracted_data_outcome lim self today sd ocr_data :
  (returns (Raw.validate_extracted_data lim self today sd ocr_data) ↔
   within lim sd ∧ has_percentage ocr_data
   ∧ (readable_ocr ocr_data
      ∨ Forall (λ kv, format_checked kv = true → short_value kv)
          (_flatten_dict sd "")))
  ∧ (∀ e, Raw.validate_extracted_data lim self today sd ocr_data = Raise e →
       exn_cls e = RecursionError ∨ exn_cls e = AttributeError
       ∨ exn_cls e = TypeError)
  ∧ (∀ self' r,
       Raw.validate_extracted_data lim self today sd ocr_data = Ok (self', r) →
       ∃ r',
         validate_extracted_data self today sd (typed_spans ocr_data)
         = Ok (self', r')
         ∧ Raw.completeness r = completeness r'
         ∧ Raw.accuracy r = accuracy r')
  ∧ (∀ od,
       within lim sd →
       Raw.validate_extracted_data lim self today sd (ocr_dict od)
       = (r ← validate_extracted_data self today sd od;
          Ok (r.1,
              Raw.ValidationResult (completeness r.2) (accuracy r.2)
                (from_option JFloat (JInt 0) (od_average_confidence od)))))
  ∧ (∀ field value,
       nesting value ≤ repr_depth lim → short_value (field, value) →
       Raw._check_consistency_with_ocr lim self today field value ocr_data
       = Ok (self, [ValueTooShort field])).
Proof.
  pose proof (flatten_dict_scalar sd "") as Hsc.
  split_and!.
  - split.
    + intros [r Hr].
      destruct (decide (nesting (PDict sd) ≤ json_depth lim
                        ∧ nesting (PDict sd) ≤ call_depth lim)) as [Hlim | Hlim].
      2: { destruct (raw_validate_beyond lim self today sd ocr_data Hlim)
             as (e & He & _). congruence. }
      split; [done |]. rewrite raw_validate_within in Hr by done.
      destruct (Raw.get ocr_data _ _) as [score|e] eqn:Hget; [| done].
      cbn [mbind result_bind] in Hr.
      destruct (Raw.accuracy_loop _ _ _ _ _ _) as [r1|e] eqn:Hloop; [| done].
      cbn [mbind result_bind] in Hr.
      destruct (Raw.times_100 score) as [[]|e] eqn:Htimes; [| done].
      split; [apply has_percentage_spec; by eexists |].
      apply (raw_loop_returns lim self today ocr_data _ (0, 0, []) Hsc).
      by eexists.
    + intros (Hlim & (score & Hget & Htimes)%has_percentage_spec & Hloop).
      rewrite raw_validate_within, Hget by done. cbn [mbind result_bind].
      apply (raw_loop_returns lim self today ocr_data _ (0, 0, []) Hsc)
        in Hloop as [r1 ->].
      cbn [mbind result_bind]. rewrite Htimes. by eexists.
  - intros e He.
    destruct (decide (nesting (PDict sd) ≤ json_depth lim
                      ∧ nesting (PDict sd) ≤ call_depth lim)) as [Hlim | Hlim].
    2: { destruct (raw_validate_beyond lim self today sd ocr_data Hlim)
           as (e' & He' & Hcls). rewrite He in He'. injection He' as ->. tauto. }
    rewrite raw_validate_within in He by done.
    destruct (Raw.get ocr_data _ _) as [score|e'] eqn:Hget.
    2: { cbn in He. injection He as <-. apply get_raise in Hget as ->. auto. }
    cbn [mbind result_bind] in He.
    destruct (Raw.accuracy_loop _ _ _ _ _ _) as [r1|e'] eqn:Hloop.
    2: { cbn in He. injection He as <-. apply raw_loop_raise in Hloop; [| done].
         apply ocr_corpus_raise_class in Hloop. tauto. }
    cbn [mbind result_bind] in He.
    destruct (Raw.times_100 score) as [[]|e'] eqn:Htimes; [done |].
    cbn in He. injection He as <-. apply times_100_raise in Htimes. auto.
  - intros self' r Hr.
    destruct (decide (nesting (PDict sd) ≤ json_depth lim
                      ∧ nesting (PDict sd) ≤ call_depth lim)) as [Hlim | Hlim].
    2: { destruct (raw_validate_beyond lim self today sd ocr_data Hlim)
           as (e & He & _). congruence. }
    rewrite raw_validate_within in Hr by done.
    destruct (Raw.get ocr_data _ _) as [score|e] eqn:Hget; [| done].
    cbn [mbind result_bind] in Hr.
    destruct (Raw.accuracy_loop _ _ _ _ _ _)
      as [[self1 [[valid total] invalid]]|e] eqn:Hloop; [| done].
    cbn [mbind result_bind] in Hr.
    destruct (Raw.times_100 score) as [[]|e] eqn:Htimes; [| done].
    cbn [mbind result_bind fst snd] in Hr. injection Hr as <- <-.
    apply raw_loop_typed in Hloop.
    unfold validate_extracted_data. cbv zeta. rewrite Hloop.
    cbn [mbind result_bind]. eexists. split; [reflexivity |]. done.
  - intros od Hlim. by apply raw_validate_typed.
  - intros field value Hdepth Hshort. by apply raw_consistency_short.
Qed.
